(** * syntax-parser: the SQL lexer (src/lexer/index.ts) and the SQL grammar

    A shallow embedding of the [Tokenizer] class and of the grammar that
    consumes its tokens.  The lexer is driven by JavaScript regular
    expressions assembled from the dialect configuration by string
    concatenation, so the embedding has these layers:

    - [JS]: the few string, array and exception primitives the code uses;
    - [RegExp]: pattern text, its parser, and a backtracking matcher that
      follows the ECMAScript matching rules (ordered alternation, greedy and
      lazy quantifiers with the empty-iteration check, [^ $ \b], the [i]
      flag);
    - [Lexer]: the [Tokenizer] class itself, method by method;
    - [Parser]: the combinator engine, which is not among the sources and
      is written after its description;
    - [Grammar]: the rule functions of the SQL grammar, as data for the
      engine.

    Characters are code units below 256 ([ascii]).  The facts come after
    the definitions: [RegExpFacts], [LexerFacts], and then the statements
    of the description, [LexerClaims] and [GrammarClaims].  [Reading] says
    what some of the classifiers take from an input, as functions on
    strings; [ReadingFacts] and [LexerBehaviour] relate the code to them
    and add further properties of the constructor and of the loop. *)

From Stdlib Require Import String Ascii List Bool Arith NArith ZArith Lia.
Import ListNotations.

Set Warnings "-register-all".

Open Scope list_scope.
Open Scope string_scope.

(* ================================================================== *)
(** ** JavaScript primitives *)

Module JS.

(** Exceptions.  [Unsupported] is not a JavaScript exception: it marks a
    pattern that lies outside the fragment of the regular-expression syntax
    interpreted here (look-around, back-references, counted repetition,
    named groups, flags other than [g] and [i]). *)
Inductive error : Type := TypeError | SyntaxError | Unsupported.

Inductive result (A : Type) : Type :=
| Ok (a : A)
| Throw (e : error).
Arguments Ok {A} a.
Arguments Throw {A} e.

Definition bind {A B} (m : result A) (f : A -> result B) : result B :=
  match m with
  | Ok a => f a
  | Throw e => Throw e
  end.

(** A property read or method call on [undefined] raises [TypeError]. *)
Definition defined {A} (o : option A) : result A :=
  match o with
  | Some a => Ok a
  | None => Throw TypeError
  end.

(** Character constants that cannot be written inside a string literal. *)
Definition LF : ascii := "010"%char.
Definition CR : ascii := "013"%char.
Definition TAB : ascii := "009"%char.
Definition VT : ascii := "011"%char.
Definition FF : ascii := "012"%char.
Definition BS : ascii := "008"%char.
Definition NBSP : ascii := "160"%char.
Definition DQUOTE : ascii := "034"%char.
Definition newline : string := String LF "".
Definition dquote : string := String DQUOTE "".

Definition code (c : ascii) : N := N_of_ascii c.

Definition between (lo hi : N) (c : ascii) : bool :=
  (lo <=? code c)%N && (code c <=? hi)%N.

Fixpoint drop (n : nat) (s : string) : string :=
  match n, s with
  | O, _ => s
  | S _, "" => ""
  | S n', String _ s' => drop n' s'
  end.

Fixpoint take (n : nat) (s : string) : string :=
  match n, s with
  | O, _ => ""
  | S _, "" => ""
  | S n', String c s' => String c (take n' s')
  end.

(** [s.substring(n)] for a non-negative [n]. *)
Definition substring_from (n : nat) (s : string) : string := drop n s.

(** [s.slice(from, to)] with the relative (negative) indices of
    [String.prototype.slice]; [to = None] is the one-argument call. *)
Definition slice (s : string) (from : Z) (to : option Z) : string :=
  let len := Z.of_nat (String.length s) in
  let rel (i : Z) := if (i <? 0)%Z then Z.max (len + i) 0 else Z.min i len in
  let a := rel from in
  let b := match to with Some t => rel t | None => len end in
  take (Z.to_nat (Z.max (b - a) 0)) (drop (Z.to_nat a) s).

(** [array.join(sep)] on an array of strings. *)
Fixpoint join (sep : string) (l : list string) : string :=
  match l with
  | [] => ""
  | [x] => x
  | x :: rest => x ++ sep ++ join sep rest
  end.

(** lodash [isEmpty] on an optional array: [undefined] and [[]] are empty. *)
Definition isEmpty {A} (o : option (list A)) : bool :=
  match o with
  | None => true
  | Some [] => true
  | Some (_ :: _) => false
  end.

Definition concat (l : list string) : string := fold_right append "" l.

End JS.

Import JS.

Notation "x <- m ;; f" := (JS.bind m (fun x => f))
  (at level 61, m at next level, right associativity).

(* ================================================================== *)
(** ** Regular expressions *)

Module RegExp.

(** Members of a character class. *)
Inductive cset : Type :=
| CsChar (c : ascii)
| CsRange (lo hi : ascii)
| CsDigit (neg : bool)
| CsSpace (neg : bool)
| CsWord (neg : bool).

Inductive regex : Type :=
| Empty
| Chr (c : ascii)
| Dot
| Class (neg : bool) (cs : list cset)
| Bol
| Eol
| WordB (neg : bool)
| Cat (a b : regex)
| Alt (a b : regex)
| Group (n : nat) (a : regex)
| Star (greedy : bool) (a : regex)
| Plus (greedy : bool) (a : regex)
| Opt (greedy : bool) (a : regex).

Record t : Type := mk {
  source : regex;
  ignoreCase : bool;
  global : bool
}.

(** *** Character predicates *)

Definition is_digit (c : ascii) : bool := between 48 57 c.

Definition is_space (c : ascii) : bool :=
  between 9 13 c || Ascii.eqb c " " || Ascii.eqb c NBSP.

Definition is_word (c : ascii) : bool :=
  between 97 122 c || between 65 90 c || is_digit c || Ascii.eqb c "_".

Definition is_line_terminator (c : ascii) : bool :=
  Ascii.eqb c LF || Ascii.eqb c CR.

(** [Canonicalize] under the [i] flag: the upper-case mapping, restricted to
    code units below 256 (a character whose upper case lies outside that
    range is its own canonical form). *)
Definition canonicalize (c : ascii) : ascii :=
  if between 97 122 c then ascii_of_N (code c - 32)
  else if between 224 254 c && negb (code c =? 247)%N then ascii_of_N (code c - 32)
  else c.

Definition lower_of (c : ascii) : ascii :=
  if between 65 90 c then ascii_of_N (code c + 32)
  else if between 192 222 c && negb (code c =? 215)%N then ascii_of_N (code c + 32)
  else c.

Definition cset_mem (c : ascii) (m : cset) : bool :=
  match m with
  | CsChar x => Ascii.eqb x c
  | CsRange lo hi => between (code lo) (code hi) c
  | CsDigit neg => xorb neg (is_digit c)
  | CsSpace neg => xorb neg (is_space c)
  | CsWord neg => xorb neg (is_word c)
  end.

Definition class_mem (ci : bool) (cs : list cset) (c : ascii) : bool :=
  if ci
  then existsb (cset_mem (canonicalize c)) cs
       || existsb (cset_mem (lower_of (canonicalize c))) cs
  else existsb (cset_mem c) cs.

Definition chr_eq (ci : bool) (x c : ascii) : bool :=
  if ci then Ascii.eqb (canonicalize x) (canonicalize c) else Ascii.eqb x c.

(** *** Parsing pattern text

    One pass over the pattern with an explicit stack of open groups.  Each
    frame keeps the finished alternatives and the terms of the alternative
    being read (both reversed); a term carries a flag telling whether a
    quantifier may still follow it. *)

Record frame : Type := mkFrame {
  f_kind : option nat;    (* [Some n]: capturing group n; [None]: non-capturing *)
  f_alts : list regex;
  f_seq : list (regex * bool)
}.

Inductive class_atom : Type :=
| CaChar (c : ascii)
| CaDash
| CaSet (m : cset).

Inductive mode : Type :=
| Normal
| InClass (neg : bool) (atoms : list class_atom).

Record pstate : Type := mkP {
  p_stack : list frame;
  p_cur : frame;
  p_groups : nat;
  p_mode : mode
}.

Fixpoint seq_onto (terms : list (regex * bool)) (acc : regex) : regex :=
  match terms with
  | [] => acc
  | (r, _) :: rest => seq_onto rest (Cat r acc)
  end.

Definition seq_of (terms : list (regex * bool)) : regex :=
  match terms with
  | [] => Empty
  | (r, _) :: rest => seq_onto rest r
  end.

Definition alts_of (alts : list regex) (last : regex) : regex :=
  fold_left (fun acc a => Alt a acc) alts last.

Definition close_frame (f : frame) : regex :=
  alts_of (f_alts f) (seq_of (f_seq f)).

Definition push_term (st : pstate) (r : regex) (quantifiable : bool) : pstate :=
  let f := p_cur st in
  mkP (p_stack st) (mkFrame (f_kind f) (f_alts f) ((r, quantifiable) :: f_seq f))
      (p_groups st) (p_mode st).

Definition quantify (st : pstate) (q : regex -> regex) : result pstate :=
  let f := p_cur st in
  match f_seq f with
  | (r, true) :: terms =>
      Ok (mkP (p_stack st) (mkFrame (f_kind f) (f_alts f) ((q r, false) :: terms))
              (p_groups st) (p_mode st))
  | _ => Throw SyntaxError            (* nothing to repeat *)
  end.

Definition is_alnum (c : ascii) : bool :=
  between 97 122 c || between 65 90 c || is_digit c.

(** [\e] outside a character class. *)
Definition atom_escape (e : ascii) : result (regex * bool) :=
  match e with
  | "d"%char => Ok (Class false [CsDigit false], true)
  | "D"%char => Ok (Class false [CsDigit true], true)
  | "s"%char => Ok (Class false [CsSpace false], true)
  | "S"%char => Ok (Class false [CsSpace true], true)
  | "w"%char => Ok (Class false [CsWord false], true)
  | "W"%char => Ok (Class false [CsWord true], true)
  | "b"%char => Ok (WordB false, false)
  | "B"%char => Ok (WordB true, false)
  | "n"%char => Ok (Chr LF, true)
  | "r"%char => Ok (Chr CR, true)
  | "t"%char => Ok (Chr TAB, true)
  | "v"%char => Ok (Chr VT, true)
  | "f"%char => Ok (Chr FF, true)
  | _ => if is_alnum e then Throw Unsupported else Ok (Chr e, true)
  end.

(** [\e] inside a character class. *)
Definition class_escape (e : ascii) : result class_atom :=
  match e with
  | "d"%char => Ok (CaSet (CsDigit false))
  | "D"%char => Ok (CaSet (CsDigit true))
  | "s"%char => Ok (CaSet (CsSpace false))
  | "S"%char => Ok (CaSet (CsSpace true))
  | "w"%char => Ok (CaSet (CsWord false))
  | "W"%char => Ok (CaSet (CsWord true))
  | "b"%char => Ok (CaChar BS)
  | "n"%char => Ok (CaChar LF)
  | "r"%char => Ok (CaChar CR)
  | "t"%char => Ok (CaChar TAB)
  | "v"%char => Ok (CaChar VT)
  | "f"%char => Ok (CaChar FF)
  | _ => if is_alnum e then Throw Unsupported else Ok (CaChar e)
  end.

Definition atom_member (a : class_atom) : cset :=
  match a with
  | CaChar c => CsChar c
  | CaDash => CsChar "-"
  | CaSet m => m
  end.

(** Class atoms in source order to class members: [x-y] is a range when both
    ends are single characters, otherwise the dash is a member. *)
Fixpoint class_members (atoms : list class_atom) : result (list cset) :=
  match atoms with
  | [] => Ok []
  | x :: CaDash :: y :: rest =>
      tl <- class_members rest ;;
      match atom_member x, atom_member y with
      | CsChar lo, CsChar hi =>
          if (code lo <=? code hi)%N then Ok (CsRange lo hi :: tl)
          else Throw SyntaxError      (* range out of order *)
      | mx, my => Ok (mx :: CsChar "-" :: my :: tl)
      end
  | x :: rest =>
      tl <- class_members rest ;;
      Ok (atom_member x :: tl)
  end.

Definition add_atom (st : pstate) (neg : bool) (atoms : list class_atom)
    (a : class_atom) : pstate :=
  mkP (p_stack st) (p_cur st) (p_groups st) (InClass neg (a :: atoms)).

Definition open_group (st : pstate) (capturing : bool) : pstate :=
  let n := if capturing then S (p_groups st) else p_groups st in
  mkP (p_cur st :: p_stack st)
      (mkFrame (if capturing then Some n else None) [] [])
      n Normal.

Definition close_group (st : pstate) : result pstate :=
  match p_stack st with
  | [] => Throw SyntaxError           (* unmatched ) *)
  | parent :: stack =>
      let body := close_frame (p_cur st) in
      let r := match f_kind (p_cur st) with
               | Some n => Group n body
               | None => body
               end in
      Ok (push_term (mkP stack parent (p_groups st) Normal) r true)
  end.

Definition next_alt (st : pstate) : pstate :=
  let f := p_cur st in
  mkP (p_stack st) (mkFrame (f_kind f) (seq_of (f_seq f) :: f_alts f) [])
      (p_groups st) (p_mode st).

Definition finish (st : pstate) : result regex :=
  match p_mode st, p_stack st with
  | Normal, [] => Ok (close_frame (p_cur st))
  | _, _ => Throw SyntaxError         (* unterminated group or class *)
  end.

Fixpoint parse (s : string) (st : pstate) {struct s} : result regex :=
  match s with
  | "" => finish st
  | String c rest =>
    match p_mode st with
    | InClass neg atoms =>
        match c with
        | "]"%char =>
            ms <- class_members (rev atoms) ;;
            parse rest (push_term (mkP (p_stack st) (p_cur st) (p_groups st) Normal)
                                  (Class neg ms) true)
        | "\"%char =>
            match rest with
            | "" => Throw SyntaxError
            | String e rest' =>
                a <- class_escape e ;;
                parse rest' (add_atom st neg atoms a)
            end
        | "-"%char => parse rest (add_atom st neg atoms CaDash)
        | _ => parse rest (add_atom st neg atoms (CaChar c))
        end
    | Normal =>
        match c with
        | "("%char =>
            match rest with
            | String "?" (String ":" rest') => parse rest' (open_group st false)
            | String "?" (String "=" _) => Throw Unsupported
            | String "?" (String "!" _) => Throw Unsupported
            | String "?" (String "<" _) => Throw Unsupported
            | String "?" _ => Throw SyntaxError
            | _ => parse rest (open_group st true)
            end
        | ")"%char => st' <- close_group st ;; parse rest st'
        | "|"%char => parse rest (next_alt st)
        | "*"%char =>
            match rest with
            | String "?" rest' => st' <- quantify st (Star false) ;; parse rest' st'
            | _ => st' <- quantify st (Star true) ;; parse rest st'
            end
        | "+"%char =>
            match rest with
            | String "?" rest' => st' <- quantify st (Plus false) ;; parse rest' st'
            | _ => st' <- quantify st (Plus true) ;; parse rest st'
            end
        | "?"%char =>
            match rest with
            | String "?" rest' => st' <- quantify st (Opt false) ;; parse rest' st'
            | _ => st' <- quantify st (Opt true) ;; parse rest st'
            end
        | "["%char =>
            match rest with
            | String "^" rest' =>
                parse rest' (mkP (p_stack st) (p_cur st) (p_groups st) (InClass true []))
            | _ =>
                parse rest (mkP (p_stack st) (p_cur st) (p_groups st) (InClass false []))
            end
        | "\"%char =>
            match rest with
            | "" => Throw SyntaxError
            | String e rest' =>
                a <- atom_escape e ;;
                parse rest' (push_term st (fst a) (snd a))
            end
        | "^"%char => parse rest (push_term st Bol false)
        | "$"%char => parse rest (push_term st Eol false)
        | "."%char => parse rest (push_term st Dot true)
        | "{"%char => Throw Unsupported
        | "}"%char => Throw Unsupported
        | _ => parse rest (push_term st (Chr c) true)
        end
    end
  end.

Definition parse_flags (flags : string) : result (bool * bool) :=
  match flags with
  | "" => Ok (false, false)
  | "i" => Ok (true, false)
  | "g" => Ok (false, true)
  | "gi" => Ok (true, true)
  | "ig" => Ok (true, true)
  | _ => Throw Unsupported
  end.

(** [new RegExp(pattern, flags)]. *)
Definition new (pattern flags : string) : result t :=
  fl <- parse_flags flags ;;
  r <- parse pattern (mkP [] (mkFrame None [] []) 0 Normal) ;;
  Ok (mk r (fst fl) (snd fl)).

(** *** Matching

    A backtracking matcher in continuation-passing style.  The state is the
    position in the input (the character before it, the text after it, its
    index) and the capture of group 1, the only capture the lexer reads. *)

Record mstate : Type := mkM {
  m_prev : option ascii;
  m_rest : string;
  m_idx : nat;
  m_cap : option (nat * nat)
}.

Definition cont : Type := mstate -> option mstate.

Definition set_cap (st : mstate) (from to : nat) : mstate :=
  mkM (m_prev st) (m_rest st) (m_idx st) (Some (from, to)).

Fixpoint captures1 (r : regex) : bool :=
  match r with
  | Group n a => (n =? 1)%nat || captures1 a
  | Cat a b | Alt a b => captures1 a || captures1 b
  | Star _ a | Plus _ a | Opt _ a => captures1 a
  | _ => false
  end.

(** Entering an iteration of a quantified atom clears the captures inside. *)
Definition reset (a : regex) (st : mstate) : mstate :=
  if captures1 a then mkM (m_prev st) (m_rest st) (m_idx st) None else st.

Definition step1 (p : ascii -> bool) (st : mstate) (k : cont) : option mstate :=
  match m_rest st with
  | "" => None
  | String c rest =>
      if p c then k (mkM (Some c) rest (S (m_idx st)) (m_cap st)) else None
  end.

Definition word_before (st : mstate) : bool :=
  match m_prev st with Some c => is_word c | None => false end.

Definition word_after (st : mstate) : bool :=
  match m_rest st with String c _ => is_word c | "" => false end.

Definition at_boundary (st : mstate) : bool :=
  xorb (word_before st) (word_after st).

(** [RepeatMatcher] with [min = 0] and no upper bound.  An iteration that
    consumes nothing fails, so the text left bounds the number of
    iterations. *)
Fixpoint repeat (body : mstate -> cont -> option mstate) (greedy : bool)
    (k : cont) (fuel : nat) (st : mstate) : option mstate :=
  match fuel with
  | O => k st
  | S fuel' =>
      let again (_ : unit) :=
        body st (fun st' => if (m_idx st' =? m_idx st)%nat then None
                            else repeat body greedy k fuel' st') in
      if greedy
      then match again tt with Some res => Some res | None => k st end
      else match k st with Some res => Some res | None => again tt end
  end.

Fixpoint m (ci : bool) (r : regex) (st : mstate) (k : cont) {struct r}
    : option mstate :=
  match r with
  | Empty => k st
  | Chr x => step1 (chr_eq ci x) st k
  | Dot => step1 (fun c => negb (is_line_terminator c)) st k
  | Class neg cs => step1 (fun c => xorb neg (class_mem ci cs c)) st k
  | Bol => if (m_idx st =? 0)%nat then k st else None
  | Eol => match m_rest st with "" => k st | String _ _ => None end
  | WordB neg => if xorb neg (at_boundary st) then k st else None
  | Cat a b => m ci a st (fun st' => m ci b st' k)
  | Alt a b =>
      match m ci a st k with
      | Some res => Some res
      | None => m ci b st k
      end
  | Group n a =>
      m ci a st (fun st' =>
        k (if (n =? 1)%nat then set_cap st' (m_idx st) (m_idx st') else st'))
  | Star g a =>
      repeat (fun s k' => m ci a (reset a s) k') g k (String.length (m_rest st)) st
  | Plus g a =>
      m ci a (reset a st) (fun st' =>
        repeat (fun s k' => m ci a (reset a s) k') g k
               (String.length (m_rest st')) st')
  | Opt g a =>
      let once (_ : unit) :=
        m ci a (reset a st)
          (fun st' => if (m_idx st' =? m_idx st)%nat then None else k st') in
      if g
      then match once tt with Some res => Some res | None => k st end
      else match k st with Some res => Some res | None => once tt end
  end.

(** The result of a successful match: where it starts and ends, and the
    text of group 1 ([undefined] when the group took no part). *)
Record match_result : Type := mkMatch {
  index : nat;
  last : nat;
  group1 : option string
}.

Definition result_of (input : string) (start : nat) (st : mstate) : match_result :=
  mkMatch start (m_idx st)
    (match m_cap st with
     | Some (a, b) => Some (take (b - a) (drop a input))
     | None => None
     end).

(** Try each start position from the current one, leftmost first. *)
Fixpoint search (re : t) (input : string) (prev : option ascii) (rest : string)
    (idx : nat) {struct rest} : option match_result :=
  match m (ignoreCase re) (source re) (mkM prev rest idx None) Some with
  | Some st => Some (result_of input idx st)
  | None =>
      match rest with
      | "" => None
      | String c rest' => search re input (Some c) rest' (S idx)
      end
  end.

(** [input.match(re)] for a regular expression without the [g] flag. *)
Definition exec (re : t) (input : string) : option match_result :=
  search re input None input 0.

(** [input.replace(re, replacement)] for a regular expression with the [g]
    flag and a replacement text free of [$] patterns: every match, leftmost
    first and non-overlapping, is replaced.  [skip] counts the characters of
    the current match still to be dropped. *)
Fixpoint replace_from (re : t) (replacement : string) (skip : nat)
    (prev : option ascii) (rest : string) (idx : nat) {struct rest} : string :=
  match skip with
  | S skip' =>
      match rest with
      | "" => ""
      | String c rest' => replace_from re replacement skip' (Some c) rest' (S idx)
      end
  | O =>
      match m (ignoreCase re) (source re) (mkM prev rest idx None) Some with
      | Some st =>
          replacement ++
          match rest with
          | "" => ""
          | String c rest' =>
              if (m_idx st =? idx)%nat
              then String c (replace_from re replacement 0 (Some c) rest' (S idx))
              else replace_from re replacement (m_idx st - idx - 1) (Some c) rest' (S idx)
          end
      | None =>
          match rest with
          | "" => ""
          | String c rest' =>
              String c (replace_from re replacement 0 (Some c) rest' (S idx))
          end
      end
  end.

Definition replace (re : t) (replacement input : string) : string :=
  replace_from re replacement 0 None input 0.

End RegExp.

(* ================================================================== *)
(** ** The lexer: class [Tokenizer] *)

Module Lexer.

(** Modelled from the spec: the members of [tokenTypes] (the module
    [./token-types] is not among the sources); one constructor per member
    the lexer refers to. *)
Inductive tokenType : Type :=
| WHITESPACE | WORD | STRING | RESERVED | RESERVED_TOPLEVEL | RESERVED_NEWLINE
| OPERATOR | OPEN_PAREN | CLOSE_PAREN | LINE_COMMENT | BLOCK_COMMENT
| NUMBER | PLACEHOLDER.

(** Modelled from the spec: the interface [IToken] (the module [./token] is
    not among the sources), with the four fields the lexer writes.  [value]
    is [matches[1]], which is [undefined] when group 1 took no part in the
    match; [key] starts as [null]; [position] is assigned by [tokenize]. *)
Record IToken : Type := mkToken {
  type : tokenType;
  value : option string;
  key : option string;
  position : option (nat * nat)
}.

(** The constructor argument [cfg]; a missing property is [None]. *)
Record config : Type := mkConfig {
  reservedWords : option (list string);
  reservedToplevelWords : option (list string);
  reservedNewlineWords : option (list string);
  stringTypes : option (list string);
  openParens : option (list string);
  closeParens : option (list string);
  indexedPlaceholderTypes : option (list string);
  namedPlaceholderTypes : option (list string);
  lineCommentTypes : option (list string);
  wordChars : option (list string);
  indentRegex : option string
}.

(** The fields of a [Tokenizer]; [None] is the value [false]. *)
Record Tokenizer : Type := mkTokenizer {
  WHITESPACE_REGEX : option RegExp.t;
  NUMBER_REGEX : option RegExp.t;
  OPERATOR_REGEX : option RegExp.t;
  BLOCK_COMMENT_REGEX : option RegExp.t;
  LINE_COMMENT_REGEX : option RegExp.t;
  RESERVED_TOPLEVEL_REGEX : option RegExp.t;
  RESERVED_NEWLINE_REGEX : option RegExp.t;
  RESERVED_PLAIN_REGEX : option RegExp.t;
  WORD_REGEX : option RegExp.t;
  STRING_REGEX : option RegExp.t;
  OPEN_PAREN_REGEX : option RegExp.t;
  CLOSE_PAREN_REGEX : option RegExp.t;
  INDEXED_PLACEHOLDER_REGEX : option RegExp.t;
  IDENT_NAMED_PLACEHOLDER_REGEX : option RegExp.t;
  STRING_NAMED_PLACEHOLDER_REGEX : option RegExp.t
}.

(** lodash [escapeRegExp]: a backslash before each of
    [^ $ \ . * + ? ( ) [ ] { } |]. *)
Definition is_regexp_char (c : ascii) : bool :=
  existsb (Ascii.eqb c)
    ["\"; "^"; "$"; "."; "*"; "+"; "?"; "("; ")"; "["; "]"; "{"; "}"; "|"]%char.

Fixpoint escapeRegExp (s : string) : string :=
  match s with
  | "" => ""
  | String c rest =>
      if is_regexp_char c then String "\" (String c (escapeRegExp rest))
      else String c (escapeRegExp rest)
  end.

(** [${x}] in a template literal: [undefined] is rendered as its name. *)
Definition interpolate (x : option string) : string :=
  match x with
  | Some s => s
  | None => "undefined"
  end.

Definition createLineCommentRegex (lineCommentTypes : option (list string))
    : result RegExp.t :=
  types <- defined lineCommentTypes ;;
  RegExp.new ("^((?:" ++ join "|" (map escapeRegExp types)
              ++ ").*?(?:" ++ newline ++ "|$))") "".

Definition createReservedWordRegex (reservedWords : option (list string))
    : result RegExp.t :=
  words <- defined reservedWords ;;
  blank <- RegExp.new " " "g" ;;
  let reservedWordsPattern := RegExp.replace blank "\s+" (join "|" words) in
  RegExp.new ("^(" ++ reservedWordsPattern ++ ")\b") "i".

Definition createWordRegex (specialChars : option (list string)) : result RegExp.t :=
  let specialChars := match specialChars with Some l => l | None => [] end in
  RegExp.new ("^(" ++ join "|" specialChars ++ ")") "".

(** The object literal [patterns] of [createStringPattern]. *)
Definition patterns (t : string) : option string :=
  if t =? "``" then Some "((`[^`]*($|`))+)"
  else if t =? "[]" then Some "((\[[^\]]*($|\]))(\][^\]]*($|\]))*)"
  else if t =? dquote ++ dquote then
    Some ("((" ++ dquote ++ "[^" ++ dquote ++ "\\]*(?:\\.[^" ++ dquote
          ++ "\\]*)*(" ++ dquote ++ "|$))+)")
  else if t =? "''" then Some "(('[^'\\]*(?:\\.[^'\\]*)*('|$))+)"
  else if t =? "N''" then Some "((N'[^N'\\]*(?:\\.[^N'\\]*)*('|$))+)"
  else None.

(** Names every object inherits; looking one of them up in [patterns] yields
    a function, which is outside this model. *)
Definition inherited_key (t : string) : bool :=
  existsb (String.eqb t)
    ["constructor"; "toString"; "valueOf"; "toLocaleString"; "hasOwnProperty";
     "isPrototypeOf"; "propertyIsEnumerable"; "__proto__"; "__defineGetter__";
     "__defineSetter__"; "__lookupGetter__"; "__lookupSetter__"].

(** [join] renders an [undefined] element (an unknown string type) as the
    empty text. *)
Definition createStringPattern (stringTypes : option (list string))
    : result string :=
  types <- defined stringTypes ;;
  if existsb inherited_key types then Throw Unsupported
  else Ok (join "|" (map (fun t => match patterns t with
                                   | Some p => p
                                   | None => ""
                                   end) types)).

Definition createStringRegex (stringTypes : option (list string))
    : result RegExp.t :=
  pattern <- createStringPattern stringTypes ;;
  RegExp.new ("^(" ++ pattern ++ ")") "".

Definition escapeParen (paren : string) : string :=
  if (String.length paren =? 1)%nat
  then escapeRegExp paren                (* a single punctuation character *)
  else "\b" ++ paren ++ "\b".            (* longer word *)

Definition createParenRegex (parens : option (list string)) : result RegExp.t :=
  ps <- defined parens ;;
  RegExp.new ("^(" ++ join "|" (map escapeParen ps) ++ ")") "i".

Definition createPlaceholderRegex (types : option (list string))
    (pattern : option string) : result (option RegExp.t) :=
  if isEmpty types then Ok None
  else
    ts <- defined types ;;
    let typesRegex := join "|" (map escapeRegExp ts) in
    re <- RegExp.new ("^((?:" ++ typesRegex ++ ")(?:" ++ interpolate pattern ++ "))") "" ;;
    Ok (Some re).

(** The four regular-expression literals of the constructor. *)
Definition whitespace_source : string := "^(\s+)".
Definition number_source : string :=
  "^([0-9]+(\.[0-9]+)?|0x[0-9a-fA-F]+|0b[01]+)\b".
Definition operator_source : string :=
  "^(!=|<>|==|<=|>=|!<|!>|\|\||::|->>|->|~~\*|~~|!~~\*|!~~|~\*|!~\*|!~|.)".
Definition block_comment_source : string := "^(\/\*[^]*?(?:\*\/|$))".

(** [constructor(cfg)]. *)
Definition new (cfg : config) : result Tokenizer :=
  whitespace <- RegExp.new whitespace_source "" ;;
  number <- RegExp.new number_source "" ;;
  operator <- RegExp.new operator_source "" ;;
  blockComment <- RegExp.new block_comment_source "" ;;
  lineComment <- createLineCommentRegex (lineCommentTypes cfg) ;;
  reservedToplevel <- createReservedWordRegex (reservedToplevelWords cfg) ;;
  reservedNewline <- createReservedWordRegex (reservedNewlineWords cfg) ;;
  reservedPlain <- createReservedWordRegex (reservedWords cfg) ;;
  word <- createWordRegex (wordChars cfg) ;;
  str <- createStringRegex (stringTypes cfg) ;;
  openParen <- createParenRegex (openParens cfg) ;;
  closeParen <- createParenRegex (closeParens cfg) ;;
  indexed <- createPlaceholderRegex (indexedPlaceholderTypes cfg) (Some "[0-9]*") ;;
  identNamed <- createPlaceholderRegex (namedPlaceholderTypes cfg) (indentRegex cfg) ;;
  stringPattern <- createStringPattern (stringTypes cfg) ;;
  stringNamed <- createPlaceholderRegex (namedPlaceholderTypes cfg) (Some stringPattern) ;;
  Ok (mkTokenizer (Some whitespace) (Some number) (Some operator)
        (Some blockComment) (Some lineComment) (Some reservedToplevel)
        (Some reservedNewline) (Some reservedPlain) (Some word) (Some str)
        (Some openParen) (Some closeParen) indexed identNamed stringNamed).

Section Methods.

Variable this : Tokenizer.

Definition getTokenOnFirstMatch (input : string) (type : tokenType)
    (regex : option RegExp.t) : option IToken :=
  match regex with
  | None => None                                   (* typeof regex === 'boolean' *)
  | Some re =>
      match RegExp.exec re input with
      | Some matches => Some (mkToken type (RegExp.group1 matches) None None)
      | None => None
      end
  end.

Definition getWhitespaceToken (input : string) : option IToken :=
  getTokenOnFirstMatch input WHITESPACE (WHITESPACE_REGEX this).

Definition getLineCommentToken (input : string) : option IToken :=
  getTokenOnFirstMatch input LINE_COMMENT (LINE_COMMENT_REGEX this).

Definition getBlockCommentToken (input : string) : option IToken :=
  getTokenOnFirstMatch input BLOCK_COMMENT (BLOCK_COMMENT_REGEX this).

(** [a || b] on two classifier results. *)
Definition or_else (a b : option IToken) : option IToken :=
  match a with
  | Some t => Some t
  | None => b
  end.

Definition getCommentToken (input : string) : option IToken :=
  or_else (getLineCommentToken input) (getBlockCommentToken input).

Definition getStringToken (input : string) : option IToken :=
  getTokenOnFirstMatch input STRING (STRING_REGEX this).

Definition getOpenParenToken (input : string) : option IToken :=
  getTokenOnFirstMatch input OPEN_PAREN (OPEN_PAREN_REGEX this).

Definition getCloseParenToken (input : string) : option IToken :=
  getTokenOnFirstMatch input CLOSE_PAREN (CLOSE_PAREN_REGEX this).

Definition getEscapedPlaceholderKey (key quoteChar : string) : result string :=
  re <- RegExp.new (escapeRegExp "\" ++ quoteChar) "g" ;;
  Ok (RegExp.replace re quoteChar key).

(** [parseKey(token.value)]: every [parseKey] starts with [v.slice], which
    raises [TypeError] on an [undefined] value. *)
Definition getPlaceholderTokenWithKey (input : string) (regex : option RegExp.t)
    (parseKey : string -> result string) : result (option IToken) :=
  match getTokenOnFirstMatch input PLACEHOLDER regex with
  | Some token =>
      v <- defined (value token) ;;
      k <- parseKey v ;;
      Ok (Some (mkToken (type token) (value token) (Some k) (position token)))
  | None => Ok None
  end.

Definition getIdentNamedPlaceholderToken (input : string) : result (option IToken) :=
  getPlaceholderTokenWithKey input (IDENT_NAMED_PLACEHOLDER_REGEX this)
    (fun v => Ok (slice v 1 None)).

Definition getStringNamedPlaceholderToken (input : string) : result (option IToken) :=
  getPlaceholderTokenWithKey input (STRING_NAMED_PLACEHOLDER_REGEX this)
    (fun v => getEscapedPlaceholderKey (slice v 2 (Some (-1)%Z)) (slice v (-1) None)).

Definition getIndexedPlaceholderToken (input : string) : result (option IToken) :=
  getPlaceholderTokenWithKey input (INDEXED_PLACEHOLDER_REGEX this)
    (fun v => Ok (slice v 1 None)).

(** [a || b] where evaluating either side may raise. *)
Definition or_else_r (a : result (option IToken))
    (b : unit -> result (option IToken)) : result (option IToken) :=
  match a with
  | Ok (Some t) => Ok (Some t)
  | Ok None => b tt
  | Throw e => Throw e
  end.

Definition getPlaceholderToken (input : string) : result (option IToken) :=
  or_else_r (getIdentNamedPlaceholderToken input) (fun _ =>
  or_else_r (getStringNamedPlaceholderToken input) (fun _ =>
  getIndexedPlaceholderToken input)).

Definition getNumberToken (input : string) : option IToken :=
  getTokenOnFirstMatch input NUMBER (NUMBER_REGEX this).

Definition getOperatorToken (input : string) : option IToken :=
  getTokenOnFirstMatch input OPERATOR (OPERATOR_REGEX this).

Definition getToplevelReservedToken (input : string) : option IToken :=
  getTokenOnFirstMatch input RESERVED_TOPLEVEL (RESERVED_TOPLEVEL_REGEX this).

Definition getNewlineReservedToken (input : string) : option IToken :=
  getTokenOnFirstMatch input RESERVED_NEWLINE (RESERVED_NEWLINE_REGEX this).

Definition getPlainReservedToken (input : string) : option IToken :=
  getTokenOnFirstMatch input RESERVED (RESERVED_PLAIN_REGEX this).

(** [previousToken && previousToken.value && previousToken.value === '.'] *)
Definition preceded_by_dot (previousToken : option IToken) : bool :=
  match previousToken with
  | Some p => match value p with
              | Some v => v =? "."
              | None => false
              end
  | None => false
  end.

Definition getReservedWordToken (input : string) (previousToken : option IToken)
    : option IToken :=
  if preceded_by_dot previousToken then None
  else or_else (getToplevelReservedToken input)
         (or_else (getNewlineReservedToken input) (getPlainReservedToken input)).

Definition getWordToken (input : string) : option IToken :=
  getTokenOnFirstMatch input WORD (WORD_REGEX this).

Definition getNextToken (input : string) (previousToken : option IToken)
    : result (option IToken) :=
  or_else_r (Ok (getWhitespaceToken input)) (fun _ =>
  or_else_r (Ok (getCommentToken input)) (fun _ =>
  or_else_r (Ok (getStringToken input)) (fun _ =>
  or_else_r (Ok (getOpenParenToken input)) (fun _ =>
  or_else_r (Ok (getCloseParenToken input)) (fun _ =>
  or_else_r (getPlaceholderToken input) (fun _ =>
  or_else_r (Ok (getNumberToken input)) (fun _ =>
  or_else_r (Ok (getReservedWordToken input previousToken)) (fun _ =>
  or_else_r (Ok (getWordToken input)) (fun _ =>
  Ok (getOperatorToken input)))))))))).

(** The [while] loop of [tokenize]; [None] when [fuel] iterations did not
    empty the input.  [token.position] on a missing token and
    [token.value.length] on an [undefined] value raise [TypeError]. *)
Fixpoint tokenize_loop (fuel : nat) (input : string) (token : option IToken)
    (lastPosition : nat) (tokens : list IToken) : option (result (list IToken)) :=
  match input with
  | "" => Some (Ok tokens)
  | String _ _ =>
      match fuel with
      | O => None
      | S fuel' =>
          match getNextToken input token with
          | Throw e => Some (Throw e)
          | Ok None => Some (Throw TypeError)
          | Ok (Some t) =>
              match value t with
              | None => Some (Throw TypeError)
              | Some v =>
                  let token := mkToken (type t) (value t) (key t)
                                 (Some (lastPosition, lastPosition + String.length v)) in
                  tokenize_loop fuel' (substring_from (String.length v) input)
                    (Some token) (lastPosition + String.length v) (tokens ++ [token])%list
              end
          end
      end
  end.

Definition tokenize_within (fuel : nat) (input : string)
    : option (result (list IToken)) :=
  tokenize_loop fuel input None 0 [].

End Methods.

(** [tokenize] returns [tokens] when some number of iterations does. *)
Definition tokenize (this : Tokenizer) (input : string) (tokens : list IToken) : Prop :=
  exists fuel, tokenize_within this fuel input = Some (Ok tokens).

Definition tokenize_throws (this : Tokenizer) (input : string) (e : error) : Prop :=
  exists fuel, tokenize_within this fuel input = Some (Throw e).

Definition tokenize_diverges (this : Tokenizer) (input : string) : Prop :=
  forall fuel, tokenize_within this fuel input = None.

(** *** The stated priority order

    The classifiers as a list, in the order the description of the lexer
    gives them; [first_match] takes the first one that yields a token. *)

Definition classifier : Type := string -> result (option IToken).

Definition pure (f : string -> option IToken) : classifier :=
  fun input => Ok (f input).

Definition stated_order (this : Tokenizer) : list classifier :=
  [ pure (getWhitespaceToken this);
    pure (getLineCommentToken this);
    pure (getBlockCommentToken this);
    pure (getStringToken this);
    pure (getOpenParenToken this);
    pure (getCloseParenToken this);
    getIdentNamedPlaceholderToken this;
    getStringNamedPlaceholderToken this;
    getIndexedPlaceholderToken this;
    pure (getNumberToken this);
    pure (getToplevelReservedToken this);
    pure (getNewlineReservedToken this);
    pure (getPlainReservedToken this);
    pure (getWordToken this);
    pure (getOperatorToken this) ].

(** The same order without the three reserved-word classifiers. *)
Definition order_after_dot (this : Tokenizer) : list classifier :=
  [ pure (getWhitespaceToken this);
    pure (getLineCommentToken this);
    pure (getBlockCommentToken this);
    pure (getStringToken this);
    pure (getOpenParenToken this);
    pure (getCloseParenToken this);
    getIdentNamedPlaceholderToken this;
    getStringNamedPlaceholderToken this;
    getIndexedPlaceholderToken this;
    pure (getNumberToken this);
    pure (getWordToken this);
    pure (getOperatorToken this) ].

Fixpoint first_match (cs : list classifier) (input : string)
    : result (option IToken) :=
  match cs with
  | [] => Ok None
  | c :: rest =>
      match c input with
      | Ok (Some t) => Ok (Some t)
      | Ok None => first_match rest input
      | Throw e => Throw e
      end
  end.

(** *** Decoding a quoted placeholder name, as stated

    Every backslash followed by the quote character [q] is replaced by the
    quote character alone, reading from the left. *)
Fixpoint unescape_quote (q : ascii) (s : string) : string :=
  match s with
  | "" => ""
  | String c tl =>
      match tl with
      | String d rest =>
          if Ascii.eqb c "\" && Ascii.eqb d q
          then String q (unescape_quote q rest)
          else String c (unescape_quote q tl)
      | "" => String c ""
      end
  end.

(** *** The text of a block comment

    What follows the opening [/*] up to and including the first [*/], or
    up to the end of the input when the comment is not closed. *)
Fixpoint comment_body (s : string) : string :=
  match s with
  | "" => ""
  | String c tl =>
      match tl with
      | String d _ =>
          if Ascii.eqb c "*" && Ascii.eqb d "/" then "*/"
          else String c (comment_body tl)
      | "" => String c ""
      end
  end.

(** The text contains [*/]. *)
Fixpoint has_close (s : string) : bool :=
  match s with
  | "" => false
  | String c tl =>
      match tl with
      | String d _ => (Ascii.eqb c "*" && Ascii.eqb d "/") || has_close tl
      | "" => false
      end
  end.

(** *** The stated invariants of a token sequence *)

(** [vs] lists the text of each token, in order. *)
Definition token_values (tokens : list IToken) (vs : list string) : Prop :=
  Forall2 (fun t v => value t = Some v) tokens vs.

(** The position ranges follow one another from [from] up to [to]: each
    range starts where the previous one ends. *)
Fixpoint contiguous (from : nat) (tokens : list IToken) (to : nat) : Prop :=
  match tokens with
  | [] => from = to
  | t :: rest =>
      exists e, position t = Some (from, e) /\ from <= e /\ contiguous e rest to
  end.

End Lexer.

(* ================================================================== *)
(** ** The combinator engine *)

Module Parser.
Import Lexer.

(** Modelled from the spec: the values a parse produces (the engine
    [../parser] is not among the sources): tokens, tuples and arrays, object
    literals with text or nested fields, and [null] for an absent optional
    part (also standing for [undefined]). *)
Inductive ast : Type :=
| ANull
| AToken (t : IToken)
| AText (s : string)
| AList (items : list ast)
| AObject (fields : list (string * ast)).

(** [a[i]] *)
Definition at_index (a : ast) (i : nat) : ast :=
  match a with
  | AList items => nth i items ANull
  | _ => ANull
  end.

(** [o.name] *)
Fixpoint lookup (name : string) (fields : list (string * ast)) : ast :=
  match fields with
  | [] => ANull
  | (n, v) :: rest => if n =? name then v else lookup name rest
  end.

Definition property (a : ast) (name : string) : ast :=
  match a with
  | AObject fields => lookup name fields
  | _ => ANull
  end.

(** The tokens a value is made of, from left to right. *)
Fixpoint tokens_of (a : ast) : list IToken :=
  match a with
  | ANull | AText _ => []
  | AToken t => [t]
  | AList items => flat_map tokens_of items
  | AObject fields => flat_map (fun f => tokens_of (snd f)) fields
  end.

Fixpoint upper (s : string) : string :=
  match s with
  | "" => ""
  | String c rest => String (RegExp.canonicalize c) (upper rest)
  end.

(** Modelled from the spec: [binaryRecursionToArray] of [../parser/utils]
    flattens the match of [item (separator item)*], the first item followed
    by the repeated pairs, into the sequence of the items. *)
Definition binaryRecursionToArray (a : ast) : ast :=
  match a with
  | AList [first; AList pairs] =>
      AList (first :: map (fun pair => match pair with
                                       | AList items => last items ANull
                                       | other => other
                                       end) pairs)
  | other => other
  end.

Section Engine.

(** Names of the grammar's rule functions. *)
Variable rule_name : Type.

(** Modelled from the spec: the rule descriptors of [../parser], which is
    not among the sources ([chain], [optional], [many], [plus], [matchWord],
    [matchString], [matchNumber]) and the precedence layer of
    [./four-operations] ([createFourOperations]).  A string is a literal
    terminal, an array an ordered choice, an uncalled rule function a lazy
    reference. *)
Inductive rule : Type :=
| Literal (text : string)
| Word
| Str
| Number
| Ref (name : rule_name)
| Chain (items : list rule) (transform : ast -> ast)
| Choice (alternatives : list rule)
| Optional (items : list rule)
| Many (items : list rule)
| Plus (items : list rule)
| FourOperations (atom : rule).

Variable rules : rule_name -> rule.
Variable tokens : list IToken.

Inductive outcome (A : Type) : Type :=
| Matched (value : A) (next : nat) (far : nat)
| Failed (far : nat)
| OutOfFuel.
Arguments Matched {A} value next far.
Arguments Failed {A} far.
Arguments OutOfFuel {A}.

(** Modelled from the spec: the token classes a terminal skips. *)
Definition transparent (t : IToken) : bool :=
  match type t with
  | WHITESPACE | LINE_COMMENT | BLOCK_COMMENT => true
  | _ => false
  end.

(** Modelled from the spec: the index of the current token, white space
    and comments being skipped. *)
Fixpoint current (ts : list IToken) (pos : nat) : nat :=
  match ts with
  | [] => pos
  | t :: rest => if transparent t then current rest (S pos) else pos
  end.

(** Modelled from the spec: terminal matchers of [../parser].  A literal is
    compared with the token's text without regard to case (the grammar
    writes [select] and [CREATE] alike); the class matchers look at the
    token's type. *)
Definition same_text (literal text : string) : bool :=
  upper literal =? upper text.

Definition accepts (r : rule) (t : IToken) : bool :=
  match r with
  | Literal text => match value t with
                    | Some v => same_text text v
                    | None => false
                    end
  | Word => match type t with WORD => true | _ => false end
  | Str => match type t with STRING => true | _ => false end
  | Number => match type t with NUMBER => true | _ => false end
  | _ => false
  end.

(** Modelled from the spec: a terminal looks at the current token; on a
    match it advances by one token, otherwise it fails where it stands. *)
Definition terminal (r : rule) (pos far : nat) : outcome ast :=
  let i := current (skipn pos tokens) pos in
  match nth_error tokens i with
  | Some t => if accepts r t then Matched (AToken t) (S i) far
              else Failed (Nat.max far i)
  | None => Failed (Nat.max far i)
  end.

(** Modelled from the spec: the operators of the precedence layer
    ([./four-operations] is not among the sources). *)
Definition operators : list string :=
  ["+"; "-"; "*"; "/"; "%"; "DIV"; "MOD"; "<<"; ">>"; "&"; "^"; "|"].

(** Modelled from the spec: a node of the left-associative operator
    chain. *)
Definition binary (left operator right : ast) : ast :=
  AObject [("type", AText "expression"); ("variant", AText "binary-op");
           ("left", left); ("operator", operator); ("right", right)].

(** Modelled from the spec: matching, as described for [execChain].
    [exec fuel r pos far] matches [r] from token index [pos]; [far] is the
    deepest index at which a terminal has failed so far.  A sequence matches
    its items in order and fails as a whole; a choice takes the first
    alternative that matches; an optional part yields [null] when it does
    not match; a repetition goes on until an attempt fails; the precedence
    layer reads an atom and then (operator, atom) pairs, folded to the left.
    Every call takes one unit of [fuel]. *)
Fixpoint exec (fuel : nat) (r : rule) (pos far : nat) {struct fuel} : outcome ast :=
  match fuel with
  | O => OutOfFuel
  | S fuel' =>
      let sequence :=
        fix sequence (items : list rule) (pos far : nat) : outcome (list ast) :=
          match items with
          | [] => Matched [] pos far
          | item :: rest =>
              match exec fuel' item pos far with
              | Matched v next far' =>
                  match sequence rest next far' with
                  | Matched vs next' far'' => Matched (v :: vs) next' far''
                  | Failed far'' => Failed far''
                  | OutOfFuel => OutOfFuel
                  end
              | Failed far' => Failed far'
              | OutOfFuel => OutOfFuel
              end
          end in
      let repetition :=
        fix repetition (count : nat) (items : list rule) (pos far : nat)
            : outcome (list ast) :=
          match count with
          | O => OutOfFuel
          | S count' =>
              match sequence items pos far with
              | Matched vs next far' =>
                  match repetition count' items next far' with
                  | Matched more next' far'' => Matched (AList vs :: more) next' far''
                  | Failed far'' => Failed far''
                  | OutOfFuel => OutOfFuel
                  end
              | Failed far' => Matched [] pos far'
              | OutOfFuel => OutOfFuel
              end
          end in
      match r with
      | Literal _ | Word | Str | Number => terminal r pos far
      | Ref name => exec fuel' (rules name) pos far
      | Chain items transform =>
          match sequence items pos far with
          | Matched vs next far' => Matched (transform (AList vs)) next far'
          | Failed far' => Failed far'
          | OutOfFuel => OutOfFuel
          end
      | Choice alternatives =>
          (fix choice (alts : list rule) (far : nat) : outcome ast :=
             match alts with
             | [] => Failed far
             | alt :: rest =>
                 match exec fuel' alt pos far with
                 | Matched v next far' => Matched v next far'
                 | Failed far' => choice rest far'
                 | OutOfFuel => OutOfFuel
                 end
             end) alternatives far
      | Optional items =>
          match sequence items pos far with
          | Matched vs next far' => Matched (AList vs) next far'
          | Failed far' => Matched ANull pos far'
          | OutOfFuel => OutOfFuel
          end
      | Many items =>
          match repetition fuel' items pos far with
          | Matched vs next far' => Matched (AList vs) next far'
          | Failed far' => Failed far'
          | OutOfFuel => OutOfFuel
          end
      | Plus items =>
          match repetition fuel' items pos far with
          | Matched [] _ far' => Failed far'
          | Matched vs next far' => Matched (AList vs) next far'
          | Failed far' => Failed far'
          | OutOfFuel => OutOfFuel
          end
      | FourOperations atom =>
          match exec fuel' atom pos far with
          | Matched first next far' =>
              match repetition fuel' [Choice (map Literal operators); atom] next far' with
              | Matched pairs next' far'' =>
                  Matched (fold_left (fun left pair =>
                                        binary left (at_index pair 0) (at_index pair 1))
                                     pairs first) next' far''
              | Failed far'' => Failed far''
              | OutOfFuel => OutOfFuel
              end
          | Failed far' => Failed far'
          | OutOfFuel => OutOfFuel
          end
      end
  end.

(** Modelled from the spec: [ParseResult], the value on success, the
    deepest index reached and the token there on failure. *)
Inductive ParseResult : Type :=
| Success (value : ast)
| Failure (index : nat) (token : option IToken).

(** Modelled from the spec: [execChain(root, scanner, startIndex, callback)]
    runs the root rule from [startIndex] and hands its value to the
    callback; [None] when the fuel does not suffice. *)
Definition execChain (fuel : nat) (root : rule) (startIndex : nat)
    (transform : ast -> ast) : option ParseResult :=
  match exec fuel root startIndex startIndex with
  | Matched v _ _ => Some (Success (transform v))
  | Failed far => Some (Failure far (nth_error tokens far))
  | OutOfFuel => None
  end.

End Engine.

Arguments Literal {rule_name} text.
Arguments Word {rule_name}.
Arguments Str {rule_name}.
Arguments Number {rule_name}.
Arguments Ref {rule_name} name.
Arguments Chain {rule_name} items transform.
Arguments Choice {rule_name} alternatives.
Arguments Optional {rule_name} items.
Arguments Many {rule_name} items.
Arguments Plus {rule_name} items.
Arguments FourOperations {rule_name} atom.

End Parser.

(* ================================================================== *)
(** ** The SQL grammar *)

Module Grammar.
Import Lexer Parser.

(** One name per rule function of the grammar. *)
Inductive rule_name : Type :=
| root | statements | statement | selectStatement | union | fromClause
| selectList | whereStatement | selectField | fieldList | tableSources
| tableSource | tableSourceItem | joinPart | alias | createTableStatement
| tableOptions | tableOption | tableName | createViewStatement
| insertStatement | selectFieldsInfo | selectFields | groupByStatement
| orderByClause | orderByExpressionList | orderByExpression | limitClause
| functionChain | functionFields | functionFieldItem | ifFunction
| castFunction | normalFunction | caseStatement | caseAlternative
| setStatement | variableAssignments | variableAssignment | dataType
| expression | expressionHead | booleanPrimary | predicate
| isOrNotExpression | fieldItem | field | indexStatement | indexItem
| onStatement | fieldForIndex | fieldForIndexList | wordChain | stringChain
| numberChain | stringOrWord | stringOrWordOrNumber | logicalOperator
| comparisonOperator | notOperator | selectSpec.

Definition rule : Type := Parser.rule rule_name.

(** [chain(...)()]: the raw tuple. *)
Definition chain (items : list rule) : rule := Chain items (fun ast => ast).

(** [chain(...)(ast => ast[0])] *)
Definition chain0 (items : list rule) : rule :=
  Chain items (fun ast => at_index ast 0).

Definition words (texts : list string) : rule := Choice (map Literal texts).

Coercion Literal_of (text : string) : rule := Literal text.
Coercion Ref_of (name : rule_name) : rule := Ref name.

(** The body of each rule function.  A builder that the source leaves
    uncalled ([chain(...)] inside [expressionHead] and [dataType]) is a lazy
    reference to the same description, and is written as that
    description. *)
Definition rules (name : rule_name) : rule :=
  match name with
  | root => chain0 [statements : rule; Optional [";" : rule]]
  | statements =>
      Chain [statement : rule; Many [";" : rule; statement : rule]]
            binaryRecursionToArray
  | statement =>
      chain0 [Choice [selectStatement : rule; createTableStatement : rule;
                      insertStatement : rule; createViewStatement : rule;
                      setStatement : rule; indexStatement : rule]]
  | selectStatement =>
      Chain ["select" : rule; selectList : rule; fromClause : rule;
             Optional [orderByClause : rule];
             Optional [limitClause : rule];
             Optional [union : rule; selectStatement : rule]]
            (fun ast => AObject [("type", AText "statement");
                                 ("variant", AText "select");
                                 ("result", at_index ast 1);
                                 ("from", at_index ast 2)])
  | union => chain ["union" : rule; words ["all"; "distinct"]]
  | fromClause =>
      chain ["from" : rule; tableSources : rule;
             Optional [whereStatement : rule];
             Optional [groupByStatement : rule]]
  | selectList => chain [selectField : rule; Many ["," : rule; selectField : rule]]
  | whereStatement =>
      Chain ["where" : rule; expression : rule] (fun ast => at_index ast 1)
  | selectField =>
      chain [Choice
               [chain [Choice [chain [Many ["not" : rule]; field : rule];
                               chain [Many ["not" : rule]; "(" : rule; field : rule;
                                      ")" : rule];
                               caseStatement : rule];
                       Optional [alias : rule]];
                "*" : rule]]
  | fieldList => chain [field : rule; Many ["," : rule; field : rule]]
  | tableSources => chain [tableSource : rule; Many ["," : rule; tableSource : rule]]
  | tableSource =>
      chain [Choice [chain [tableSourceItem : rule; Many [joinPart : rule]];
                     chain ["(" : rule; tableSourceItem : rule;
                            Many [joinPart : rule]; ")" : rule]];
             Optional [alias : rule]]
  | tableSourceItem =>
      chain [Choice
               [chain [tableName : rule; Optional [alias : rule]];
                chain [Choice [selectStatement : rule;
                               chain ["(" : rule; selectStatement : rule; ")" : rule]];
                       Optional [alias : rule]];
                chain ["(" : rule; tableSources : rule; ")" : rule]]]
  | joinPart =>
      chain [Choice
               [chain [words ["inner"; "cross"]; "join" : rule; tableSourceItem : rule;
                       Optional ["on" : rule; expression : rule]];
                chain ["straight_join" : rule; tableSourceItem : rule;
                       Optional ["on" : rule; expression : rule]];
                chain [words ["left"; "right"]; Optional ["outer" : rule];
                       "join" : rule; tableSourceItem : rule;
                       Optional ["on" : rule; expression : rule]];
                chain ["natural" : rule;
                       Optional [words ["left"; "right"]; Optional ["outer" : rule]];
                       "join" : rule; tableSourceItem : rule]]]
  | alias => chain [Choice [chain ["as" : rule; stringOrWord : rule];
                            stringOrWord : rule]]
  | createTableStatement =>
      chain ["create" : rule; "table" : rule; stringOrWord : rule; "(" : rule;
             tableOptions : rule; ")" : rule]
  | tableOptions => chain [tableOption : rule; Many ["," : rule; tableOption : rule]]
  | tableOption => chain [stringOrWord : rule; dataType : rule]
  | tableName =>
      chain [Choice [wordChain : rule;
                     chain [wordChain : rule; "." : rule; wordChain : rule]]]
  | createViewStatement =>
      chain ["create" : rule; "view" : rule; wordChain : rule; "as" : rule;
             selectStatement : rule]
  | insertStatement =>
      chain ["insert" : rule; Optional ["ignore" : rule]; "into" : rule;
             tableName : rule; Optional [selectFieldsInfo : rule];
             Choice [selectStatement : rule]]
  | selectFieldsInfo => chain ["(" : rule; selectFields : rule; ")" : rule]
  | selectFields => chain [wordChain : rule; Many ["," : rule; wordChain : rule]]
  | groupByStatement => chain ["group" : rule; "by" : rule; fieldList : rule]
  | orderByClause => chain ["order" : rule; "by" : rule; fieldList : rule]
  | orderByExpressionList =>
      chain [orderByExpression : rule;
             Optional ["," : rule; orderByExpressionList : rule]]
  | orderByExpression => chain [expression : rule; words ["asc"; "desc"]]
  | limitClause =>
      chain ["limit" : rule;
             Choice [numberChain : rule;
                     chain [numberChain : rule; "," : rule; numberChain : rule];
                     chain [numberChain : rule; "offset" : rule; numberChain : rule]]]
  | functionChain =>
      chain [Choice [castFunction : rule; normalFunction : rule; ifFunction : rule]]
  | functionFields =>
      chain [functionFieldItem : rule; Many ["," : rule; functionFieldItem : rule]]
  | functionFieldItem =>
      chain [Many [selectSpec : rule]; Choice [field : rule; caseStatement : rule]]
  | ifFunction =>
      chain ["if" : rule; "(" : rule; predicate : rule; "," : rule; field : rule;
             "," : rule; field : rule; ")" : rule]
  | castFunction =>
      chain ["cast" : rule; "(" : rule; wordChain : rule; "as" : rule;
             dataType : rule; ")" : rule]
  | normalFunction =>
      chain [wordChain : rule; "(" : rule; Optional [functionFields : rule];
             ")" : rule]
  | caseStatement =>
      chain ["case" : rule; Plus [caseAlternative : rule];
             Optional ["else" : rule;
                       Choice [stringChain : rule; "null" : rule; numberChain : rule]];
             "end" : rule]
  | caseAlternative =>
      chain ["when" : rule; expression : rule; "then" : rule; fieldItem : rule]
  | setStatement => chain ["set" : rule; Choice [variableAssignments : rule]]
  | variableAssignments =>
      chain [variableAssignment : rule; Many ["," : rule; variableAssignment : rule]]
  | variableAssignment =>
      chain [fieldItem : rule; "=" : rule; Choice [fieldItem : rule; "true" : rule]]
  | dataType =>
      chain0 [Choice
                [chain [words ["char"; "varchar"; "tinytext"; "text"; "mediumtext";
                               "longtext"]];
                 chain [words ["tinyint"; "smallint"; "mediumint"; "int"; "integer";
                               "bigint"]];
                 chain [words ["real"; "double"; "float"]];
                 chain [words ["decimal"; "numberic"]];
                 chain [words ["date"; "tinyblob"; "blob"; "mediumblob"; "longblob";
                               "bool"; "boolean"]];
                 chain [words ["bit"; "time"; "timestamp"; "datetime"; "binary";
                               "varbinary"; "year"]];
                 chain [words ["enum"; "set"]];
                 chain ["geometrycollection" : rule; "linestring" : rule;
                        "multilinestring" : rule; "multipoint" : rule;
                        "multipolygon" : rule; "point" : rule; "polygon" : rule]]]
  | expression =>
      chain [expressionHead : rule; Many [logicalOperator : rule; expression : rule]]
  | expressionHead =>
      chain [Choice
               [chain ["(" : rule; expression : rule; ")" : rule];
                chain [notOperator : rule; expression : rule];
                chain [booleanPrimary : rule;
                       Optional [chain ["is" : rule; Optional ["not" : rule];
                                        words ["true"; "false"; "unknown"]]]]]]
  | booleanPrimary =>
      chain [predicate : rule;
             Many [Choice
                     ["isnull" : rule;
                      chain [Optional ["is" : rule]; Optional ["not" : rule];
                             Choice ["null" : rule; field : rule]];
                      chain [comparisonOperator : rule; predicate : rule]]]]
  | predicate =>
      chain [field : rule;
             Optional [Choice
                         [chain [comparisonOperator : rule;
                                 Choice [field : rule; "null" : rule]];
                          chain ["sounds" : rule; "like" : rule; field : rule];
                          isOrNotExpression : rule]]]
  | isOrNotExpression =>
      chain [Optional ["is" : rule]; Optional ["not" : rule];
             Choice [chain ["in" : rule; "(" : rule; fieldList : rule; ")" : rule];
                     chain ["between" : rule; field : rule; "and" : rule;
                            predicate : rule];
                     chain ["like" : rule; field : rule;
                            Optional ["escape" : rule; field : rule]];
                     chain ["regexp" : rule; field : rule]]]
  | fieldItem =>
      chain0 [Choice
                [functionChain : rule;
                 chain [stringOrWordOrNumber : rule;
                        Choice [Optional ["." : rule; "*" : rule];
                                Plus ["." : rule; stringOrWordOrNumber : rule]]];
                 "*" : rule]]
  | field => FourOperations (fieldItem : rule)
  | indexStatement =>
      chain ["CREATE" : rule; "INDEX" : rule; indexItem : rule; onStatement : rule;
             whereStatement : rule]
  | indexItem => chain [stringChain : rule; Many ["." : rule; stringChain : rule]]
  | onStatement =>
      chain ["ON" : rule; stringChain : rule; "(" : rule; fieldForIndexList : rule;
             ")" : rule]
  | fieldForIndex => chain [stringChain : rule; Optional [words ["ASC"; "DESC"]]]
  | fieldForIndexList =>
      chain [fieldForIndex : rule; Many ["," : rule; fieldForIndex : rule]]
  | wordChain => chain0 [Word]
  | stringChain => chain0 [Str]
  | numberChain => chain0 [Number]
  | stringOrWord => chain0 [Choice [wordChain : rule; stringChain : rule]]
  | stringOrWordOrNumber =>
      chain0 [Choice [wordChain : rule; stringChain : rule; numberChain : rule]]
  | logicalOperator => chain0 [words ["and"; "&&"; "xor"; "or"; "||"]]
  | comparisonOperator =>
      chain0 [words ["="; ">"; "<"; "<="; ">="; "<>"; "!="; "<=>"]]
  | notOperator => chain0 [words ["not"; "!"]]
  | selectSpec =>
      chain0 [words ["all"; "distinct"; "distinctrow"; "high_priority";
                     "straight_join"; "sql_small_result"; "sql_big_result";
                     "sql_buffer_result"; "sql_cache"; "sql_no_cache";
                     "sql_calc_found_rows"]]
  end.

(** [class SQLAstParser]: [rootChainNode = root()()] and
    [parse(tokens, cursorPosition = 0)]. *)
Definition rootChainNode : rule := rules root.

Definition parse (fuel : nat) (tokens : list IToken) (cursorPosition : nat)
    : option ParseResult :=
  execChain rule_name rules tokens fuel rootChainNode cursorPosition
            (fun ast => at_index ast 0).

End Grammar.

(* ================================================================== *)
(** ** Dialects used in the examples

    The dialect the application passes ([tokenConfig]) is not among the
    sources; these follow the constructor's documentation. *)

Module Dialect.
Import Lexer.

(** String types [''] only, named placeholders [@], the word characters
    of the documentation ([@] and [#]), and an identifier pattern. *)
Definition sql : config := {|
  reservedWords := Some ["as"; "from"; "on"];
  reservedToplevelWords := Some ["select"; "where"; "group by"];
  reservedNewlineWords := Some ["and"; "or"; "left join"];
  stringTypes := Some ["''"];
  openParens := Some ["("; "case"];
  closeParens := Some [")"; "end"];
  indexedPlaceholderTypes := Some ["?"];
  namedPlaceholderTypes := Some ["@"];
  lineCommentTypes := Some ["#"; "--"];
  wordChars := Some ["@"; "#"];
  indentRegex := Some "[a-zA-Z0-9._$]+"
|}.

Definition with_reservedWords (cfg : config) (w : option (list string)) : config :=
  mkConfig w (reservedToplevelWords cfg) (reservedNewlineWords cfg)
    (stringTypes cfg) (openParens cfg) (closeParens cfg)
    (indexedPlaceholderTypes cfg) (namedPlaceholderTypes cfg)
    (lineCommentTypes cfg) (wordChars cfg) (indentRegex cfg).

Definition with_wordChars (cfg : config) (w : option (list string)) : config :=
  mkConfig (reservedWords cfg) (reservedToplevelWords cfg) (reservedNewlineWords cfg)
    (stringTypes cfg) (openParens cfg) (closeParens cfg)
    (indexedPlaceholderTypes cfg) (namedPlaceholderTypes cfg)
    (lineCommentTypes cfg) w (indentRegex cfg).

Definition with_lineCommentTypes (cfg : config) (l : option (list string)) : config :=
  mkConfig (reservedWords cfg) (reservedToplevelWords cfg) (reservedNewlineWords cfg)
    (stringTypes cfg) (openParens cfg) (closeParens cfg)
    (indexedPlaceholderTypes cfg) (namedPlaceholderTypes cfg)
    l (wordChars cfg) (indentRegex cfg).

Definition with_indentRegex (cfg : config) (p : option string) : config :=
  mkConfig (reservedWords cfg) (reservedToplevelWords cfg) (reservedNewlineWords cfg)
    (stringTypes cfg) (openParens cfg) (closeParens cfg)
    (indexedPlaceholderTypes cfg) (namedPlaceholderTypes cfg)
    (lineCommentTypes cfg) (wordChars cfg) p.

Definition with_namedPlaceholderTypes (cfg : config) (l : option (list string)) : config :=
  mkConfig (reservedWords cfg) (reservedToplevelWords cfg) (reservedNewlineWords cfg)
    (stringTypes cfg) (openParens cfg) (closeParens cfg)
    (indexedPlaceholderTypes cfg) l
    (lineCommentTypes cfg) (wordChars cfg) (indentRegex cfg).

Definition with_indexedPlaceholderTypes (cfg : config) (l : option (list string)) : config :=
  mkConfig (reservedWords cfg) (reservedToplevelWords cfg) (reservedNewlineWords cfg)
    (stringTypes cfg) (openParens cfg) (closeParens cfg)
    l (namedPlaceholderTypes cfg)
    (lineCommentTypes cfg) (wordChars cfg) (indentRegex cfg).

(** [sql] with [wordChars] left out, so that the parameter default [[]] of
    [createWordRegex] applies. *)
Definition sql_default_words : config := with_wordChars sql None.

End Dialect.

(* ================================================================== *)
(** ** Shapes of patterns and of runs of the matcher

    Notions used to state the facts below. *)

Module Shape.
Import RegExp Lexer.

(** *** Runs of the matcher *)

(** A pattern that may match the empty text (a syntactic upper bound). *)
Fixpoint nullable (r : regex) : bool :=
  match r with
  | Empty | Bol | Eol | WordB _ => true
  | Chr _ | Dot | Class _ _ => false
  | Cat a b => nullable a && nullable b
  | Alt a b => nullable a || nullable b
  | Group _ a => nullable a
  | Star _ _ | Opt _ _ => true
  | Plus _ a => nullable a
  end.

(** [st'] is [st] moved forward over a piece of the text. *)
Definition advances (st st' : mstate) : Prop :=
  exists pre, m_rest st = pre ++ m_rest st'
              /\ m_idx st' = m_idx st + String.length pre.

(** What a successful run of a matcher tells: the continuation succeeded at
    a later state; strictly later when the pattern is not [nullable]; with
    the capture untouched when the pattern does not contain group 1. *)
Definition sound (f : mstate -> cont -> option mstate) (nul cap1 : bool) : Prop :=
  forall st k res, f st k = Some res ->
    exists st', k st' = Some res /\ advances st st'
                /\ (nul = false -> m_idx st < m_idx st')
                /\ (cap1 = false -> m_cap st' = m_cap st).

(** A continuation that accepts every state. *)
Definition total (k : cont) : Prop := forall st, k st <> None.

(** The continuation of group 1 of an anchored pattern with nothing after
    the group: record the capture and accept. *)
Definition capture_all : cont :=
  fun st' => Some (set_cap st' 0 (m_idx st')).

(** *** Anchored patterns

    The constructor's templates have the form [^(body)] or [^(body)tail]:
    group 1 opens right after the anchor and is closed before the rest. *)

Definition anchored_parts (r : regex) : option (regex * regex) :=
  match r with
  | Cat Bol (Group 1 body) => Some (body, Empty)
  | Cat Bol (Cat (Group 1 body) tail) => Some (body, tail)
  | _ => None
  end.

(** Of that form, with no other occurrence of group 1. *)
Definition anchored (re : t) : bool :=
  match anchored_parts (source re) with
  | Some (body, tail) => negb (captures1 body) && negb (captures1 tail)
  | None => false
  end.

(** Anchored, with a body that cannot match the empty text. *)
Definition productive (re : t) : bool :=
  anchored re &&
  match anchored_parts (source re) with
  | Some (body, _) => negb (nullable body)
  | None => false
  end.

(** *** The compiled forms of the fixed patterns *)

(** A text, character by character. *)
Fixpoint text (s : string) : regex :=
  match s with
  | "" => Empty
  | String c rest =>
      match rest with
      | "" => Chr c
      | String _ _ => Cat (Chr c) (text rest)
      end
  end.

(** An ordered choice. *)
Fixpoint any_of (rs : list regex) : regex :=
  match rs with
  | [] => Empty
  | r :: rest =>
      match rest with
      | [] => r
      | _ :: _ => Alt r (any_of rest)
      end
  end.

Definition whitespace_re : RegExp.t :=
  mk (Cat Bol (Group 1 (Plus true (Class false [CsSpace false])))) false false.

Definition block_comment_re : RegExp.t :=
  mk (Cat Bol (Group 1 (Cat (Chr "/") (Cat (Chr "*")
        (Cat (Star false (Class true []))
             (Alt (Cat (Chr "*") (Chr "/")) Eol)))))) false false.

Definition number_re : RegExp.t :=
  let digits := Plus true (Class false [CsRange "0" "9"]) in
  let hex := Plus true (Class false [CsRange "0" "9"; CsRange "a" "f";
                                     CsRange "A" "F"]) in
  let bits := Plus true (Class false [CsChar "0"; CsChar "1"]) in
  mk (Cat Bol
        (Cat (Group 1
                (Alt (Cat digits (Opt true (Group 2 (Cat (Chr ".") digits))))
                     (Alt (Cat (Chr "0") (Cat (Chr "x") hex))
                          (Cat (Chr "0") (Cat (Chr "b") bits)))))
             (WordB false))) false false.

Definition operator_re : RegExp.t :=
  Eval vm_compute in
    mk (Cat Bol
          (Group 1
             (any_of (map text ["!="; "<>"; "=="; "<="; ">="; "!<"; "!>"; "||";
                                "::"; "->>"; "->"; "~~*"; "~~"; "!~~*"; "!~~";
                                "~*"; "!~*"; "!~"]
                      ++ [Dot])%list))) false false.


(** The close of a block comment: [*/] or the end of the input. *)
Definition comment_close : regex := Alt (Cat (Chr "*") (Chr "/")) Eol.

(** *** Parser states *)

(** The parser state after reading the characters of [s] as literals. *)
Fixpoint push_text (st : pstate) (s : string) : pstate :=
  match s with
  | "" => st
  | String c rest => push_text (push_term st (Chr c) true) rest
  end.

(** *** Tokenizers *)

Definition patterns_of (this : Tokenizer) : list (option RegExp.t) :=
  [WHITESPACE_REGEX this; NUMBER_REGEX this; OPERATOR_REGEX this;
   BLOCK_COMMENT_REGEX this; LINE_COMMENT_REGEX this;
   RESERVED_TOPLEVEL_REGEX this; RESERVED_NEWLINE_REGEX this;
   RESERVED_PLAIN_REGEX this; WORD_REGEX this; STRING_REGEX this;
   OPEN_PAREN_REGEX this; CLOSE_PAREN_REGEX this;
   INDEXED_PLACEHOLDER_REGEX this; IDENT_NAMED_PLACEHOLDER_REGEX this;
   STRING_NAMED_PLACEHOLDER_REGEX this].

(** [P] holds of a pattern field, when the field is a pattern. *)
Definition holds (P : RegExp.t -> bool) (o : option RegExp.t) : bool :=
  match o with
  | Some re => P re
  | None => true
  end.

(** Every pattern of the tokenizer is anchored. *)
Definition anchored_patterns (this : Tokenizer) : bool :=
  forallb (holds anchored) (patterns_of this).

(** Every pattern of the tokenizer is productive. *)
Definition productive_patterns (this : Tokenizer) : bool :=
  forallb (holds productive) (patterns_of this).

(** A token cut from the front of [input]. *)
Definition cut_from (input : string) (nonempty : Prop) (t : IToken) : Prop :=
  exists v rest, value t = Some v /\ input = v ++ rest /\ (nonempty -> v <> "").

Definition is_reserved (ty : tokenType) : bool :=
  match ty with
  | RESERVED | RESERVED_TOPLEVEL | RESERVED_NEWLINE => true
  | _ => false
  end.

End Shape.

(* ================================================================== *)
(** ** Inputs and tokens used in the examples *)

Module Example.
Import Lexer.

Definition token (ty : tokenType) (v : string) (from to : nat) : IToken :=
  mkToken ty (Some v) None (Some (from, to)).

Definition operator_token (v : string) (from to : nat) : IToken :=
  token OPERATOR v from to.

(** [Dialect.sql] with a reserved word that is pattern text: the reserved
    words go into the pattern as they are, so that the plain reserved-word
    pattern is [^([ab])+(c)\b], with group 1 inside the repetition. *)
Definition pattern_word : config :=
  Dialect.with_reservedWords Dialect.sql (Some ["[ab])+(c"]).

(** [Dialect.sql] without named placeholders. *)
Definition no_named_placeholders : config :=
  Dialect.with_namedPlaceholderTypes Dialect.sql (Some []).

(** The word token of the empty text, before [tokenize] places it. *)
Definition empty_word : IToken := mkToken WORD (Some "") None None.


(** [Dialect.sql] without placeholders: the list of named prefixes is
    missing and the list of indexed prefixes is empty. *)
Definition no_placeholders : config :=
  Dialect.with_indexedPlaceholderTypes
    (Dialect.with_namedPlaceholderTypes Dialect.sql None) (Some []).

Definition undefined_placeholder : IToken :=
  mkToken PLACEHOLDER (Some "@undefined") (Some "undefined") None.

(** The block-comment token of an input [/*rest], before [tokenize] places
    it. *)
Definition block_comment (rest : string) : IToken :=
  mkToken BLOCK_COMMENT (Some ("/*" ++ comment_body rest)) None None.

Definition select_text : string := "SELECT a, b FROM t WHERE a > 1".

End Example.

(* ================================================================== *)
(** ** What the classifiers read

    The text a classifier takes from the front of an input, written as
    functions on strings, for the patterns that do not contain pattern text
    supplied by the dialect: the fixed patterns of the constructor and the
    templates whose dialect part goes through [escapeRegExp]. *)

Module Reading.
Import RegExp Lexer Shape.

(** The rest of [s] after [t], when [s] starts with [t]. *)
Fixpoint strip_prefix (t s : string) : option string :=
  match t with
  | "" => Some s
  | String c t' =>
      match s with
      | String d s' => if Ascii.eqb c d then strip_prefix t' s' else None
      | "" => None
      end
  end.

(** The longest prefix of [s] whose characters satisfy [p]. *)
Fixpoint take_while (p : ascii -> bool) (s : string) : string :=
  match s with
  | "" => ""
  | String c tl => if p c then String c (take_while p tl) else ""
  end.

Definition all_of (p : ascii -> bool) (s : string) : bool :=
  forallb p (list_ascii_of_string s).

(** The last character of [t], or [prev] when [t] is empty. *)
Fixpoint last_of (prev : option ascii) (t : string) : option ascii :=
  match t with
  | "" => prev
  | String c t' => last_of (Some c) t'
  end.

(** The position of the matcher after it has read [t], with [r] left. *)
Definition after (st : mstate) (t r : string) : mstate :=
  mkM (last_of (m_prev st) t) r (String.length t + m_idx st) (m_cap st).

(** The first text of [ts] on which [f] yields something. *)
Fixpoint first_success {A} (ts : list string) (f : string -> option A) : option A :=
  match ts with
  | [] => None
  | t :: more =>
      match f t with
      | Some x => Some x
      | None => first_success more f
      end
  end.

(** A token as a classifier returns it. *)
Definition found (ty : tokenType) (v : string) : IToken :=
  mkToken ty (Some v) None None.

(** *** Line comments

    From the start of [s] to the end of its line: up to and including the
    first line feed, or up to the end of the input.  A carriage return
    before either stops the scan, since [.] does not match it and neither
    does the end of the pattern. *)
Fixpoint line_end (s : string) : option string :=
  match s with
  | "" => Some ""
  | String c tl =>
      if Ascii.eqb c LF then Some newline
      else if Ascii.eqb c CR then None
      else match line_end tl with
           | Some body => Some (String c body)
           | None => None
           end
  end.

(** The first prefix of the list that starts the input and whose line
    ends; an empty list behaves as the list of the empty prefix. *)
Definition read_line_comment (types : list string) (input : string)
    : option string :=
  first_success (match types with [] => [""] | _ :: _ => types end)
    (fun t => match strip_prefix t input with
              | Some r => match line_end r with
                          | Some body => Some (t ++ body)
                          | None => None
                          end
              | None => None
              end).

(** *** White space: the longest run of white-space characters. *)
Definition read_whitespace (input : string) : option string :=
  match take_while is_space input with
  | "" => None
  | String c v => Some (String c v)
  end.

(** *** Indexed placeholders: the first prefix of the list that starts the
    input, and the digits after it. *)
Definition read_indexed_placeholder (types : list string) (input : string)
    : option string :=
  first_success types
    (fun t => match strip_prefix t input with
              | Some r => Some (t ++ take_while is_digit r)
              | None => None
              end).

(** *** Operators

    The operators of more than one character, in the order of the
    pattern. *)
Definition operators : list string :=
  ["!="; "<>"; "=="; "<="; ">="; "!<"; "!>"; "||"; "::"; "->>"; "->"; "~~*";
   "~~"; "!~~*"; "!~~"; "~*"; "!~*"; "!~"].

(** The first listed operator that starts the input, else its first
    character unless that is a line terminator. *)
Definition read_operator (input : string) : option string :=
  match first_success operators
          (fun t => match strip_prefix t input with
                    | Some _ => Some t
                    | None => None
                    end) with
  | Some t => Some t
  | None =>
      match input with
      | String c _ => if is_line_terminator c then None else Some (String c "")
      | "" => None
      end
  end.

(** *** Parser states *)

(** The terms of a frame after the characters of [s] were read as literals
    (the last character first). *)
Fixpoint text_terms (s : string) (acc : list (regex * bool)) : list (regex * bool) :=
  match s with
  | "" => acc
  | String c rest => text_terms rest ((Chr c, true) :: acc)
  end.

(** The parser state after an alternation of literal texts was read. *)
Fixpoint push_alternatives (st : pstate) (ts : list string) : pstate :=
  match ts with
  | [] => st
  | t :: more =>
      match more with
      | [] => push_text st t
      | _ :: _ => push_alternatives (next_alt (push_text st t)) more
      end
  end.

(** *** Reserved words

    [createReservedWordRegex] joins the words and replaces every blank by
    the pattern of a run of white space.  The words are pattern text; the
    reading below is for words made of word characters, with single blanks
    between them. *)

(** What [replace(/ /g, '\\s+')] makes of a text. *)
Fixpoint spaced (s : string) : string :=
  match s with
  | "" => ""
  | String c tl =>
      if Ascii.eqb c " " then "\s+" ++ spaced tl else String c (spaced tl)
  end.

Definition blank_re : RegExp.t := mk (Chr " ") false true.

(** Word characters, and blanks each followed by a word character. *)
Fixpoint phrase_ok (w : string) : bool :=
  match w with
  | "" => true
  | String c w' =>
      (if Ascii.eqb c " "
       then match w' with String c' _ => is_word c' | "" => false end
       else is_word c)
      && phrase_ok w'
  end.

Definition space_run : regex := Plus true (Class false [CsSpace false]).

Definition item (c : ascii) : regex :=
  if Ascii.eqb c " " then space_run else Chr c.

(** The compiled form of a word. *)
Fixpoint phrase (w : string) : regex :=
  match w with
  | "" => Empty
  | String c rest =>
      match rest with
      | "" => item c
      | String _ _ => Cat (item c) (phrase rest)
      end
  end.

Fixpoint phrase_terms (w : string) (acc : list (regex * bool)) : list (regex * bool) :=
  match w with
  | "" => acc
  | String c rest =>
      phrase_terms rest
        ((if Ascii.eqb c " " then (space_run, false) else (Chr c, true)) :: acc)
  end.

Fixpoint drop_while (p : ascii -> bool) (s : string) : string :=
  match s with
  | "" => ""
  | String c tl => if p c then drop_while p tl else s
  end.

(** Reading the word [w] from the front of [input] without regard to
    letter case, a blank of [w] standing for the longest run of white
    space: the text read and the rest of the input. *)
Fixpoint read_phrase (w input : string) : option (string * string) :=
  match w with
  | "" => Some ("", input)
  | String c w' =>
      if Ascii.eqb c " "
      then match take_while is_space input with
           | "" => None
           | String _ _ as run =>
               match read_phrase w' (drop_while is_space input) with
               | Some (v, r) => Some (run ++ v, r)
               | None => None
               end
           end
      else match input with
           | String d tl =>
               if chr_eq true c d
               then match read_phrase w' tl with
                    | Some (v, r) => Some (String d v, r)
                    | None => None
                    end
               else None
           | "" => None
           end
  end.

(** A word boundary between the text [v] and the text [r] after it. *)
Definition boundary (v r : string) : bool :=
  xorb (match last_of None v with Some c => is_word c | None => false end)
       (match r with String c _ => is_word c | "" => false end).

Definition reserved_re (words : list string) : RegExp.t :=
  mk (Cat Bol (Cat (Group 1 (any_of (map phrase words))) (WordB false))) true false.

(** The first word of the list that can be read from the input and is
    followed by a word boundary; an empty list behaves as the list of the
    empty word. *)
Definition read_reserved (words : list string) (input : string) : option string :=
  first_success (match words with [] => [""] | _ :: _ => words end)
    (fun w => match read_phrase w input with
              | Some (v, r) => if boundary v r then Some v else None
              | None => None
              end).

(** *** Words *)

(** A text without regular-expression syntax. *)
Definition plain (s : string) : bool :=
  all_of (fun c => negb (is_regexp_char c)) s.

Definition word_re (chars : list string) : RegExp.t :=
  mk (Cat Bol (Group 1 (any_of (map text chars)))) false false.

(** The first entry of the list that starts the input; an empty list
    behaves as the list of the empty text. *)
Definition read_word (chars : list string) (input : string) : option string :=
  first_success (match chars with [] => [""] | _ :: _ => chars end)
    (fun t => match strip_prefix t input with
              | Some _ => Some t
              | None => None
              end).

(** *** Parens *)

(** A single character, or a word of two or more word characters. *)
Definition paren_ok (p : string) : bool :=
  (String.length p =? 1)%nat
  || ((2 <=? String.length p)%nat && all_of is_word p).

(** A text and then [r]. *)
Fixpoint text_then (s : string) (r : regex) : regex :=
  match s with
  | "" => r
  | String c rest => Cat (Chr c) (text_then rest r)
  end.

Definition paren_terms (p : string) : list (regex * bool) :=
  if (String.length p =? 1)%nat then text_terms p []
  else (WordB false, false) :: text_terms p [(WordB false, false)].

Definition paren_item (p : string) : regex :=
  if (String.length p =? 1)%nat then text p
  else Cat (WordB false) (text_then p (WordB false)).

Definition paren_re (parens : list string) : RegExp.t :=
  mk (Cat Bol (Group 1 (any_of (map paren_item parens)))) true false.

(** The first paren of the list at the start of the input, without regard
    to letter case: a single character as it is, a word when a word
    boundary follows it. *)
Definition read_paren (parens : list string) (input : string) : option string :=
  first_success parens
    (fun p =>
       if (String.length p =? 1)%nat
       then match p, input with
            | String c _, String d _ =>
                if chr_eq true c d then Some (String d "") else None
            | _, _ => None
            end
       else match read_phrase p input with
            | Some (v, r) => if boundary v r then Some v else None
            | None => None
            end).

(** *** Strings

    A string token is made of quoted segments that follow one another.  In
    a segment, after its opening, [scan_quoted] reads up to and including
    the closing quote [q], or up to the end of the input: a character of
    [cls] stands for itself; a backslash takes the next character with it,
    unless that is a line terminator or the input ends there; any other
    character ends the scan without a result. *)

Fixpoint scan_quoted (cls : ascii -> bool) (q : ascii) (s : string)
    : option (string * string) :=
  match s with
  | "" => Some ("", "")
  | String c tl =>
      if cls c
      then match scan_quoted cls q tl with
           | Some (v, r) => Some (String c v, r)
           | None => None
           end
      else if Ascii.eqb c q then Some (String c "", tl)
      else if Ascii.eqb c "\"
      then match tl with
           | String d tl' =>
               if is_line_terminator d then None
               else match scan_quoted cls q tl' with
                    | Some (v, r) => Some (String c (String d v), r)
                    | None => None
                    end
           | "" => None
           end
      else None
  end.

(** A segment: its opening, and what [scan_quoted] reads after it. *)
Definition read_segment (opening : string) (cls : ascii -> bool) (q : ascii)
    (s : string) : option (string * string) :=
  match strip_prefix opening s with
  | Some r0 =>
      match scan_quoted cls q r0 with
      | Some (v, r) => Some (opening ++ v, r)
      | None => None
      end
  | None => None
  end.

(** Segments one after the other, as many as can be read. *)
Fixpoint read_many (seg : string -> option (string * string)) (fuel : nat)
    (s : string) : string * string :=
  match fuel with
  | O => ("", s)
  | S fuel' =>
      match seg s with
      | Some (String c v, r) =>
          let (more, rest) := read_many seg fuel' r in (String c v ++ more, rest)
      | _ => ("", s)
      end
  end.

(** A first segment [first], then segments [seg]. *)
Definition read_segments (first seg : string -> option (string * string))
    (s : string) : option (string * string) :=
  match first s with
  | Some (v, r) =>
      let (more, rest) := read_many seg (String.length r) r in Some (v ++ more, rest)
  | None => None
  end.

(** The characters outside a list. *)
Definition none_of (l : list ascii) (c : ascii) : bool :=
  negb (existsb (fun x => Ascii.eqb x c) l).

(** What the pattern of a string type reads; the type of an unknown name
    reads the empty text.  The order of the cases is that of [patterns]. *)
Definition read_string (t : string) (s : string) : option (string * string) :=
  if t =? "``" then
    let seg := read_segment "`" (none_of ["`"%char]) "`" in read_segments seg seg s
  else if t =? "[]" then
    read_segments (read_segment "[" (none_of ["]"%char]) "]")
                  (read_segment "]" (none_of ["]"%char]) "]") s
  else if t =? dquote ++ dquote then
    let seg := read_segment dquote (none_of [DQUOTE; "\"%char]) DQUOTE in
    read_segments seg seg s
  else if t =? "''" then
    let seg := read_segment "'" (none_of ["'"%char; "\"%char]) "'" in
    read_segments seg seg s
  else if t =? "N''" then
    let seg := read_segment "N'" (none_of ["N"%char; "'"%char; "\"%char]) "'" in
    read_segments seg seg s
  else Some ("", s).

(** A segment in single quotes, as the type [''] reads it. *)
Definition single_quoted : string -> option (string * string) :=
  read_segment "'" (none_of ["'"%char; "\"%char]) "'".

(** The first string type of the list whose pattern reads something; an
    empty list behaves as the list of one unknown type. *)
Definition read_string_token (types : list string) (input : string)
    : option string :=
  first_success (match types with [] => [""] | _ :: _ => types end)
    (fun t => match read_string t input with
              | Some (v, _) => Some v
              | None => None
              end).

(** The compiled forms, with the numbers of their groups counted from
    [g]. *)
Definition plain_body (q : ascii) (n : nat) : regex :=
  Cat (Star true (Class true [CsChar q])) (Group n (Alt Eol (Chr q))).

Definition escape (cs : list ascii) : regex :=
  Cat (Chr "\") (Cat Dot (Star true (Class true (map CsChar cs)))).

Definition escaped_body (cs : list ascii) (q : ascii) (n : nat) : regex :=
  Cat (Star true (Class true (map CsChar cs)))
      (Cat (Star true (escape cs)) (Group n (Alt (Chr q) Eol))).

Definition string_item (g : nat) (t : string) : regex :=
  if t =? "``" then
    Group (S g) (Plus true (Group (S (S g))
      (text_then "`" (plain_body "`" (S (S (S g)))))))
  else if t =? "[]" then
    Group (S g)
      (Cat (Group (S (S g)) (text_then "[" (plain_body "]" (S (S (S g))))))
           (Star true (Group (S (S (S (S g))))
              (text_then "]" (plain_body "]" (S (S (S (S (S g))))))))))
  else if t =? dquote ++ dquote then
    Group (S g) (Plus true (Group (S (S g))
      (text_then dquote (escaped_body [DQUOTE; "\"%char] DQUOTE (S (S (S g)))))))
  else if t =? "''" then
    Group (S g) (Plus true (Group (S (S g))
      (text_then "'" (escaped_body ["'"%char; "\"%char] "'" (S (S (S g)))))))
  else if t =? "N''" then
    Group (S g) (Plus true (Group (S (S g))
      (text_then "N'"
         (escaped_body ["N"%char; "'"%char; "\"%char] "'" (S (S (S g)))))))
  else Empty.

Definition string_count (t : string) : nat :=
  if t =? "[]" then 5
  else match patterns t with Some _ => 3 | None => 0 end.

Definition string_terms (g : nat) (t : string) : list (regex * bool) :=
  match patterns t with
  | Some _ => [(string_item g t, true)]
  | None => []
  end.

Definition string_text (t : string) : string :=
  match patterns t with
  | Some p => p
  | None => ""
  end.

(** The alternatives of a choice whose group numbers go on from one
    alternative to the next. *)
Fixpoint choice_from (item : nat -> string -> regex) (count : string -> nat)
    (g : nat) (ts : list string) : list regex :=
  match ts with
  | [] => []
  | t :: more => item g t :: choice_from item count (count t + g) more
  end.

Fixpoint groups_after (count : string -> nat) (g : nat) (ts : list string) : nat :=
  match ts with
  | [] => g
  | t :: more => groups_after count (count t + g) more
  end.

Definition string_re (types : list string) : RegExp.t :=
  mk (Cat Bol (Group 1 (any_of (choice_from string_item string_count 1 types))))
     false false.

(** The pattern of the string-named placeholders, for a list of prefixes
    that is not empty: a prefix and then a string. *)
Definition string_placeholder_re (types stringTypes : list string) : RegExp.t :=
  mk (Cat Bol (Group 1 (Cat (any_of (map text types))
                            (any_of (choice_from string_item string_count 1
                                       stringTypes)))))
     false false.

(** What the string-named placeholder classifier reads: the first prefix
    of the list that starts the input with a string after it. *)
Definition read_string_placeholder (types stringTypes : list string)
    (input : string) : option string :=
  first_success types
    (fun t => match strip_prefix t input with
              | Some r => match read_string_token stringTypes r with
                          | Some v => Some (t ++ v)
                          | None => None
                          end
              | None => None
              end).

(** Every character, to settle facts about single characters by
    evaluation. *)
Definition all_ascii : list ascii := map ascii_of_nat (seq 0 256).

(** *** Compiled patterns *)

(** The pattern of the line comments. *)
Definition line_comment_re (types : list string) : RegExp.t :=
  mk (Cat Bol (Group 1 (Cat (any_of (map text types))
                            (Cat (Star false Dot) (Alt (Chr LF) Eol)))))
     false false.

(** The pattern of the indexed placeholders, for a list of prefixes that
    is not empty. *)
Definition indexed_placeholder_re (types : list string) : RegExp.t :=
  mk (Cat Bol (Group 1 (Cat (any_of (map text types))
                            (Star true (Class false [CsRange "0" "9"])))))
     false false.

(** *** Numbers *)

(** What may follow the digits of an integer: the end of the input, or a
    character that is neither a word character nor a dot. *)
Definition ends_number (rest : string) : bool :=
  match rest with
  | "" => true
  | String c _ => negb (is_word c) && negb (Ascii.eqb c ".")
  end.

(** *** Configurations with an empty list *)

(** [Dialect.sql] with no top-level reserved words. *)
Definition no_toplevel_words : config :=
  mkConfig (reservedWords Dialect.sql) (Some []) (reservedNewlineWords Dialect.sql)
    (stringTypes Dialect.sql) (openParens Dialect.sql) (closeParens Dialect.sql)
    (indexedPlaceholderTypes Dialect.sql) (namedPlaceholderTypes Dialect.sql)
    (lineCommentTypes Dialect.sql) (wordChars Dialect.sql) (indentRegex Dialect.sql).

(** [Dialect.sql] with no open parens. *)
Definition no_open_parens : config :=
  mkConfig (reservedWords Dialect.sql) (reservedToplevelWords Dialect.sql)
    (reservedNewlineWords Dialect.sql) (stringTypes Dialect.sql) (Some [])
    (closeParens Dialect.sql) (indexedPlaceholderTypes Dialect.sql)
    (namedPlaceholderTypes Dialect.sql) (lineCommentTypes Dialect.sql)
    (wordChars Dialect.sql) (indentRegex Dialect.sql).

(** *** Tokens of a result *)

(** [P prev t] holds of every token [t] of the list and the token [prev]
    before it. *)
Fixpoint each_after (P : option IToken -> IToken -> Prop) (prev : option IToken)
    (tokens : list IToken) : Prop :=
  match tokens with
  | [] => True
  | t :: rest => P prev t /\ each_after P (Some t) rest
  end.

(** What [tokenize] writes into every token: a value, the position range
    of that value, and a key exactly for a placeholder. *)
Definition well_formed (t : IToken) : Prop :=
  exists v from,
    value t = Some v
    /\ position t = Some (from, from + String.length v)
    /\ (key t <> None <-> type t = PLACEHOLDER).

End Reading.

(* ================================================================== *)
(** ** Facts about the matcher *)

Module RegExpFacts.
Import RegExp Shape.

Lemma advances_refl st : advances st st.
Proof. exists "". split; [reflexivity | simpl; lia]. Qed.

Lemma append_assoc (a b c : string) : (a ++ b) ++ c = a ++ b ++ c.
Proof. induction a; simpl; congruence. Qed.

Lemma length_append (a b : string) :
  String.length (a ++ b) = String.length a + String.length b.
Proof. induction a; simpl; congruence. Qed.

Lemma advances_trans a b c : advances a b -> advances b c -> advances a c.
Proof.
  intros [p [Hp Hi]] [q [Hq Hj]]. exists (p ++ q). split.
  - rewrite Hp, Hq. symmetry. apply append_assoc.
  - rewrite length_append. lia.
Qed.

Lemma advances_idx a b : advances a b -> m_idx a <= m_idx b.
Proof. intros [p [_ H]]. lia. Qed.

Lemma advances_reset r a b : advances (reset r a) b -> advances a b.
Proof. unfold reset. destruct (captures1 r); exact (fun H => H). Qed.

Lemma step1_sound p : sound (step1 p) false false.
Proof.
  intros st k res H. unfold step1 in H.
  destruct (m_rest st) as [|c rest] eqn:E; [discriminate|].
  destruct (p c); [|discriminate].
  eexists. split; [exact H|]. repeat split; simpl; try lia.
  exists (String c ""). simpl. split; [exact E | lia].
Qed.

Lemma repeat_sound body g k nul cap1 :
  sound body nul cap1 ->
  forall fuel st res, repeat body g k fuel st = Some res ->
    exists st', k st' = Some res /\ advances st st'
                /\ (cap1 = false -> m_cap st' = m_cap st).
Proof.
  intros Hb. induction fuel as [|fuel IH]; intros st res H; simpl in H.
  - exists st. split; [exact H|]. split; [apply advances_refl | reflexivity].
  - assert (Hagain : forall res',
      body st (fun st' => if (m_idx st' =? m_idx st)%nat then None
                          else repeat body g k fuel st') = Some res' ->
      exists st', k st' = Some res' /\ advances st st'
                  /\ (cap1 = false -> m_cap st' = m_cap st)).
    { intros res' Hr. apply Hb in Hr. destruct Hr as [s1 [Hk [Ha [_ Hc]]]].
      destruct (m_idx s1 =? m_idx st)%nat; [discriminate|].
      apply IH in Hk. destruct Hk as [s2 [Hk2 [Ha2 Hc2]]].
      exists s2. split; [exact Hk2|]. split; [eapply advances_trans; eassumption|].
      intros Hf. rewrite (Hc2 Hf). exact (Hc Hf). }
    assert (Hstop : forall res', k st = Some res' ->
      exists st', k st' = Some res' /\ advances st st'
                  /\ (cap1 = false -> m_cap st' = m_cap st)).
    { intros res' Hr. exists st. split; [exact Hr|].
      split; [apply advances_refl | reflexivity]. }
    destruct g.
    + match type of H with
      | match ?x with _ => _ end = _ => destruct x eqn:E in H
      end.
      * inversion H; subst. apply Hagain. exact E.
      * apply Hstop. exact H.
    + match type of H with
      | match ?x with _ => _ end = _ => destruct x eqn:E in H
      end.
      * inversion H; subst. apply Hstop. exact E.
      * apply Hagain. exact H.
Qed.

Lemma body_sound ci a nul cap1 :
  sound (m ci a) nul cap1 ->
  sound (fun s k' => m ci a (reset a s) k') nul (captures1 a || cap1).
Proof.
  intros Ha st k res H. apply Ha in H. destruct H as [s1 [Hk [Hadv [Hn Hc]]]].
  exists s1. split; [exact Hk|]. split; [eapply advances_reset; exact Hadv|]. split.
  - intros Hf. specialize (Hn Hf). unfold reset in Hn.
    destruct (captures1 a); exact Hn.
  - intros Hf. apply orb_false_iff in Hf. destruct Hf as [Hf1 Hf2].
    rewrite (Hc Hf2). unfold reset. rewrite Hf1. reflexivity.
Qed.

Theorem m_sound ci r : sound (m ci r) (nullable r) (captures1 r).
Proof.
  induction r; simpl.
  - intros st k res H. exists st. split; [exact H|].
    split; [apply advances_refl|]. split; [discriminate | reflexivity].
  - apply step1_sound.
  - apply step1_sound.
  - apply step1_sound.
  - intros st k res H. simpl in H. destruct (m_idx st =? 0)%nat; [|discriminate].
    exists st. split; [exact H|].
    split; [apply advances_refl|]. split; [discriminate | reflexivity].
  - intros st k res H. simpl in H. destruct (m_rest st) eqn:E; [|discriminate].
    exists st. split; [exact H|].
    split; [apply advances_refl|]. split; [discriminate | reflexivity].
  - intros st k res H. simpl in H. destruct (xorb neg (at_boundary st)); [|discriminate].
    exists st. split; [exact H|].
    split; [apply advances_refl|]. split; [discriminate | reflexivity].
  - (* Cat *)
    intros st k res H. simpl in H.
    apply IHr1 in H. destruct H as [s1 [H [A1 [N1 C1]]]].
    apply IHr2 in H. destruct H as [s2 [H [A2 [N2 C2]]]].
    exists s2. split; [exact H|]. split; [eapply advances_trans; eassumption|].
    pose proof (advances_idx _ _ A1). pose proof (advances_idx _ _ A2). split.
    + intros Hf. apply andb_false_iff in Hf. destruct Hf as [Hf|Hf].
      * specialize (N1 Hf). lia.
      * specialize (N2 Hf). lia.
    + intros Hf. apply orb_false_iff in Hf. destruct Hf as [Hf1 Hf2].
      rewrite (C2 Hf2). exact (C1 Hf1).
  - (* Alt *)
    intros st k res H. simpl in H.
    destruct (m ci r1 st k) eqn:E.
    + inversion H; subst. apply IHr1 in E. destruct E as [s1 [Hk [A1 [N1 C1]]]].
      exists s1. split; [exact Hk|]. split; [exact A1|]. split.
      * intros Hf. apply orb_false_iff in Hf. apply N1. tauto.
      * intros Hf. apply orb_false_iff in Hf. apply C1. tauto.
    + apply IHr2 in H. destruct H as [s1 [Hk [A1 [N1 C1]]]].
      exists s1. split; [exact Hk|]. split; [exact A1|]. split.
      * intros Hf. apply orb_false_iff in Hf. apply N1. tauto.
      * intros Hf. apply orb_false_iff in Hf. apply C1. tauto.
  - (* Group *)
    intros st k res H. simpl in H.
    apply IHr in H. destruct H as [s1 [Hk [A1 [N1 C1]]]].
    eexists. split; [exact Hk|].
    split; [destruct (n =? 1)%nat; exact A1|]. split.
    + intros Hf. specialize (N1 Hf). destruct (n =? 1)%nat; exact N1.
    + intros Hf. apply orb_false_iff in Hf. destruct Hf as [Hf1 Hf2].
      rewrite Hf1. apply C1. exact Hf2.
  - (* Star *)
    intros st k res H. simpl in H.
    eapply repeat_sound in H.
    2:{ apply (body_sound ci r _ _ IHr). }
    destruct H as [s1 [Hk [A1 C1]]].
    exists s1. split; [exact Hk|]. split; [exact A1|]. split; [discriminate|].
    intros Hf. apply C1. rewrite Hf. reflexivity.
  - (* Plus *)
    intros st k res H. simpl in H.
    apply (body_sound ci r _ _ IHr) in H. destruct H as [s1 [H [A1 [N1 C1]]]].
    eapply repeat_sound in H.
    2:{ apply (body_sound ci r _ _ IHr). }
    destruct H as [s2 [Hk [A2 C2]]].
    exists s2. split; [exact Hk|]. split; [eapply advances_trans; eassumption|].
    pose proof (advances_idx _ _ A2). split.
    + intros Hf. specialize (N1 Hf). lia.
    + intros Hf. assert (Hf' : captures1 r || captures1 r = false) by (rewrite Hf; reflexivity).
      rewrite (C2 Hf'). exact (C1 Hf').
  - (* Opt *)
    intros st k res H. simpl in H.
    assert (Honce : forall res',
      m ci r (reset r st) (fun st' => if (m_idx st' =? m_idx st)%nat then None else k st')
        = Some res' ->
      exists st', k st' = Some res' /\ advances st st'
                  /\ (true = false -> m_idx st < m_idx st')
                  /\ (captures1 r = false -> m_cap st' = m_cap st)).
    { intros res' Hr. apply (body_sound ci r _ _ IHr) in Hr.
      destruct Hr as [s1 [Hk [A1 [_ C1]]]].
      destruct (m_idx s1 =? m_idx st)%nat; [discriminate|].
      exists s1. split; [exact Hk|]. split; [exact A1|]. split; [discriminate|].
      intros Hf. apply C1. rewrite Hf. reflexivity. }
    assert (Hskip : forall res', k st = Some res' ->
      exists st', k st' = Some res' /\ advances st st'
                  /\ (true = false -> m_idx st < m_idx st')
                  /\ (captures1 r = false -> m_cap st' = m_cap st)).
    { intros res' Hr. exists st. split; [exact Hr|].
      split; [apply advances_refl|]. split; [discriminate | reflexivity]. }
    destruct greedy.
    + match type of H with
      | match ?x with _ => _ end = _ => destruct x eqn:E in H
      end.
      * inversion H; subst. apply Honce. exact E.
      * apply Hskip. exact H.
    + match type of H with
      | match ?x with _ => _ end = _ => destruct x eqn:E in H
      end.
      * inversion H; subst. apply Hskip. exact E.
      * apply Honce. exact H.
Qed.

(** *** Showing that a match exists *)

Lemma repeat_total body g k :
  total k -> forall fuel st, repeat body g k fuel st <> None.
Proof.
  intros Hk fuel st. destruct fuel; simpl; [apply Hk|].
  destruct g.
  - destruct (body st _); [discriminate | apply Hk].
  - specialize (Hk st). destruct (k st); [discriminate | congruence].
Qed.

Lemma alt_right ci a b st k :
  m ci b st k <> None -> m ci (Alt a b) st k <> None.
Proof. simpl. destruct (m ci a st k); [discriminate | exact (fun H => H)]. Qed.

Lemma m_Cat ci a b st k :
  m ci (Cat a b) st k = m ci a st (fun st' => m ci b st' k).
Proof. reflexivity. Qed.

Lemma m_Bol ci prev rest cap k :
  m ci Bol (mkM prev rest 0 cap) k = k (mkM prev rest 0 cap).
Proof. reflexivity. Qed.

Lemma m_Group ci n a st k :
  m ci (Group n a) st k
  = m ci a st (fun st' =>
      k (if (n =? 1)%nat then set_cap st' (m_idx st) (m_idx st') else st')).
Proof. reflexivity. Qed.

Lemma exec_found re input st :
  m (ignoreCase re) (source re) (mkM None input 0 None) Some = Some st ->
  exec re input = Some (result_of input 0 st).
Proof. unfold exec. destruct input; simpl; intros ->; reflexivity. Qed.

Lemma exec_some re input :
  m (ignoreCase re) (source re) (mkM None input 0 None) Some <> None ->
  exec re input <> None.
Proof.
  intros H. destruct (m _ _ _ Some) eqn:E; [|congruence].
  rewrite (exec_found _ _ _ E). discriminate.
Qed.

Lemma line_terminator_is_space c :
  is_line_terminator c = true -> is_space c = true.
Proof.
  unfold is_line_terminator. intros H. apply orb_true_iff in H.
  destruct H as [H|H]; apply Ascii.eqb_eq in H; subst c; reflexivity.
Qed.

(** *** Anchored patterns

    Every pattern the constructor builds has the form [^(body)] or
    [^(body)tail]: group 1 opens right after the anchor and is closed before
    the rest. *)

Lemma take_append (a b : string) : take (String.length a) (a ++ b) = a.
Proof. induction a; simpl; [destruct b; reflexivity | congruence]. Qed.

Lemma drop_append (a b : string) : drop (String.length a) (a ++ b) = b.
Proof. induction a; simpl; [reflexivity | assumption]. Qed.

Lemma search_off_anchor re input x :
  source re = Cat Bol x ->
  forall rest prev idx, idx <> 0 -> search re input prev rest idx = None.
Proof.
  intros Hs. induction rest as [|c rest IH]; intros prev idx Hi; simpl;
    rewrite Hs; simpl; destruct idx; try congruence; simpl.
  - reflexivity.
  - apply IH. discriminate.
Qed.

Lemma exec_at_anchor re input x mr :
  source re = Cat Bol x ->
  exec re input = Some mr ->
  exists st, m (ignoreCase re) x (mkM None input 0 None) Some = Some st
             /\ mr = result_of input 0 st.
Proof.
  intros Hs H. unfold exec in H.
  destruct input as [|c rest]; simpl in H; rewrite Hs in H; simpl in H.
  - destruct (m (ignoreCase re) x _ Some) eqn:E; [|discriminate].
    inversion H; subst. eauto.
  - destruct (m (ignoreCase re) x _ Some) eqn:E.
    + inversion H; subst. eauto.
    + rewrite (search_off_anchor re _ x Hs) in H by discriminate. discriminate.
Qed.

(** The text of group 1 of an anchored pattern is a prefix of the input,
    a non-empty one when the pattern is productive. *)
Theorem exec_anchored re input mr :
  anchored re = true ->
  exec re input = Some mr ->
  exists v rest, group1 mr = Some v /\ input = v ++ rest
                 /\ (productive re = true -> v <> "").
Proof.
  unfold productive, anchored. intros Ha H.
  destruct (anchored_parts (source re)) as [[body tail]|] eqn:Ep; [|discriminate].
  apply andb_true_iff in Ha. destruct Ha as [Hb Ht].
  apply negb_true_iff in Hb. apply negb_true_iff in Ht.
  assert (Hsrc : source re = Cat Bol (Cat (Group 1 body) tail)
                 \/ (source re = Cat Bol (Group 1 body) /\ tail = Empty)).
  { destruct (source re) as [| | | | | | |a b| | | | |]; try discriminate.
    destruct a; try discriminate.
    destruct b as [| | | | | | |b1 b2| |n b1| | |]; try discriminate.
    - destruct b1 as [| | | | | | | | |n b1| | |]; try discriminate.
      destruct n as [|[|n]]; try discriminate. inversion Ep; subst. left. reflexivity.
    - destruct n as [|[|n]]; try discriminate. inversion Ep; subst. right. auto. }
  assert (Hm : exists st, m (ignoreCase re) (Cat (Group 1 body) tail)
                            (mkM None input 0 None) Some = Some st
                          /\ mr = result_of input 0 st).
  { destruct Hsrc as [Hs|[Hs Htl]].
    - eapply exec_at_anchor; eassumption.
    - destruct (exec_at_anchor _ _ _ _ Hs H) as [st [Hst Hmr]].
      exists st. split; [|exact Hmr]. subst tail. simpl. simpl in Hst. exact Hst. }
  destruct Hm as [st [Hst Hmr]]. simpl in Hst.
  apply m_sound in Hst. destruct Hst as [s1 [Hk [[pre [Hpre Hidx]] [Hn _]]]].
  apply m_sound in Hk. destruct Hk as [s2 [Hk [_ [_ Hc]]]].
  inversion Hk; subst st. simpl in Hpre, Hidx, Hc.
  exists pre, (m_rest s1). split; [|split].
  - subst mr. unfold result_of. simpl. rewrite (Hc Ht).
    rewrite Hidx, Nat.sub_0_r. simpl. rewrite Hpre at 1. rewrite take_append. reflexivity.
  - exact Hpre.
  - intros Hp. apply andb_true_iff in Hp. destruct Hp as [_ Hp].
    apply negb_true_iff in Hp. specialize (Hn Hp). simpl in Hn.
    intros ->. simpl in Hidx. lia.
Qed.

End RegExpFacts.

(* ================================================================== *)
(** ** Facts about the lexer *)

Module LexerFacts.
Import RegExp Shape RegExpFacts Lexer.

Lemma bind_ok {A B} (x : result A) (f : A -> result B) b :
  JS.bind x f = Ok b -> exists a, x = Ok a /\ f a = Ok b.
Proof. destruct x; simpl; intros H; [eauto | discriminate]. Qed.

Lemma new_whitespace : RegExp.new whitespace_source "" = Ok whitespace_re.
Proof. reflexivity. Qed.

Lemma new_number : RegExp.new number_source "" = Ok number_re.
Proof. reflexivity. Qed.

Lemma new_operator : RegExp.new operator_source "" = Ok operator_re.
Proof. reflexivity. Qed.

Lemma new_block_comment : RegExp.new block_comment_source "" = Ok block_comment_re.
Proof. reflexivity. Qed.

(** What a successful construction says about each field. *)
Lemma new_inv cfg this :
  Lexer.new cfg = Ok this ->
  WHITESPACE_REGEX this = Some whitespace_re
  /\ NUMBER_REGEX this = Some number_re
  /\ OPERATOR_REGEX this = Some operator_re
  /\ BLOCK_COMMENT_REGEX this = Some block_comment_re
  /\ (exists re, createLineCommentRegex (lineCommentTypes cfg) = Ok re
                 /\ LINE_COMMENT_REGEX this = Some re)
  /\ (exists re, createReservedWordRegex (reservedToplevelWords cfg) = Ok re
                 /\ RESERVED_TOPLEVEL_REGEX this = Some re)
  /\ (exists re, createReservedWordRegex (reservedNewlineWords cfg) = Ok re
                 /\ RESERVED_NEWLINE_REGEX this = Some re)
  /\ (exists re, createReservedWordRegex (reservedWords cfg) = Ok re
                 /\ RESERVED_PLAIN_REGEX this = Some re)
  /\ (exists re, createWordRegex (wordChars cfg) = Ok re
                 /\ WORD_REGEX this = Some re)
  /\ (exists re, createStringRegex (stringTypes cfg) = Ok re
                 /\ STRING_REGEX this = Some re)
  /\ (exists re, createParenRegex (openParens cfg) = Ok re
                 /\ OPEN_PAREN_REGEX this = Some re)
  /\ (exists re, createParenRegex (closeParens cfg) = Ok re
                 /\ CLOSE_PAREN_REGEX this = Some re)
  /\ createPlaceholderRegex (indexedPlaceholderTypes cfg) (Some "[0-9]*")
     = Ok (INDEXED_PLACEHOLDER_REGEX this)
  /\ createPlaceholderRegex (namedPlaceholderTypes cfg) (indentRegex cfg)
     = Ok (IDENT_NAMED_PLACEHOLDER_REGEX this)
  /\ (exists stringPattern,
        createStringPattern (stringTypes cfg) = Ok stringPattern
        /\ createPlaceholderRegex (namedPlaceholderTypes cfg) (Some stringPattern)
           = Ok (STRING_NAMED_PLACEHOLDER_REGEX this)).
Proof.
  unfold Lexer.new. intros H.
  rewrite new_whitespace, new_number, new_operator, new_block_comment in H.
  cbn [JS.bind] in H.
  repeat match type of H with
         | JS.bind _ _ = Ok _ =>
             let a := fresh "a" in let E := fresh "E" in
             apply bind_ok in H; destruct H as [a [E H]]
         end.
  inversion H; subst this; cbn [WHITESPACE_REGEX NUMBER_REGEX OPERATOR_REGEX
    BLOCK_COMMENT_REGEX LINE_COMMENT_REGEX RESERVED_TOPLEVEL_REGEX
    RESERVED_NEWLINE_REGEX RESERVED_PLAIN_REGEX WORD_REGEX STRING_REGEX
    OPEN_PAREN_REGEX CLOSE_PAREN_REGEX INDEXED_PLACEHOLDER_REGEX
    IDENT_NAMED_PLACEHOLDER_REGEX STRING_NAMED_PLACEHOLDER_REGEX].
  repeat split; eauto.
Qed.

(** *** Escaped text in a pattern

    What [escapeRegExp] returns is read by the pattern parser as the
    literal characters of the text, whatever the text. *)

Lemma parse_plain_char c rest stack cur groups :
  is_regexp_char c = false ->
  parse (String c rest) (mkP stack cur groups Normal)
  = parse rest (push_term (mkP stack cur groups Normal) (Chr c) true).
Proof.
  destruct c as [b0 b1 b2 b3 b4 b5 b6 b7].
  destruct b0, b1, b2, b3, b4, b5, b6, b7; intros H;
    try discriminate H; reflexivity.
Qed.

Lemma parse_escaped_char c rest stack cur groups :
  is_regexp_char c = true ->
  parse (String "\" (String c rest)) (mkP stack cur groups Normal)
  = parse rest (push_term (mkP stack cur groups Normal) (Chr c) true).
Proof.
  destruct c as [b0 b1 b2 b3 b4 b5 b6 b7].
  destruct b0, b1, b2, b3, b4, b5, b6, b7; intros H;
    try discriminate H; reflexivity.
Qed.

Lemma push_term_shape st r q :
  p_stack (push_term st r q) = p_stack st
  /\ p_mode (push_term st r q) = p_mode st.
Proof. split; reflexivity. Qed.

Lemma push_text_shape s : forall st,
  p_stack (push_text st s) = p_stack st /\ p_mode (push_text st s) = p_mode st.
Proof.
  induction s as [|c s IH]; intros st; [split; reflexivity|].
  cbn [push_text]. destruct (IH (push_term st (Chr c) true)) as [H1 H2].
  rewrite H1, H2. apply push_term_shape.
Qed.

Lemma parse_escapeRegExp s : forall rest st,
  p_mode st = Normal ->
  parse (escapeRegExp s ++ rest) st = parse rest (push_text st s).
Proof.
  induction s as [|c s IH]; intros rest st Hm; [reflexivity|].
  destruct st as [stack cur groups mode]. cbn [p_mode] in Hm. subst mode.
  cbn [escapeRegExp push_text]. destruct (is_regexp_char c) eqn:E.
  - cbn [append]. rewrite (parse_escaped_char _ _ _ _ _ E). apply IH. reflexivity.
  - cbn [append]. rewrite (parse_plain_char _ _ _ _ _ E). apply IH. reflexivity.
Qed.

(** An alternation of escaped texts leaves the parser in the group it was
    in. *)
Lemma parse_escaped_alternatives ts : forall rest st,
  p_mode st = Normal ->
  exists st',
    parse (join "|" (map escapeRegExp ts) ++ rest) st = parse rest st'
    /\ p_stack st' = p_stack st /\ p_mode st' = Normal.
Proof.
  induction ts as [|t ts IH]; intros rest st Hm.
  - exists st. auto.
  - destruct ts as [|t' ts'].
    + cbn [map join]. rewrite (parse_escapeRegExp t rest st Hm).
      destruct (push_text_shape t st) as [H1 H2].
      eexists. split; [reflexivity|]. rewrite H1, H2. auto.
    + change (join "|" (map escapeRegExp (t :: t' :: ts')))
        with (escapeRegExp t ++ "|" ++ join "|" (map escapeRegExp (t' :: ts'))).
      rewrite !append_assoc. rewrite (parse_escapeRegExp t _ st Hm).
      destruct (push_text_shape t st) as [H1 H2]. rewrite Hm in H2.
      remember (push_text st t) as st1 eqn:E1.
      destruct st1 as [stack cur groups mode]. cbn [p_stack p_mode] in H1, H2.
      subst mode.
      change (parse ("|" ++ join "|" (map escapeRegExp (t' :: ts')) ++ rest)
                    (mkP stack cur groups Normal))
        with (parse (join "|" (map escapeRegExp (t' :: ts')) ++ rest)
                    (next_alt (mkP stack cur groups Normal))).
      destruct (IH rest (next_alt (mkP stack cur groups Normal)) eq_refl)
        as [st' [Hp [Hs Hmode]]].
      exists st'. split; [exact Hp|]. split; [|exact Hmode].
      rewrite Hs. cbn [next_alt p_stack]. exact H1.
Qed.

(** The placeholder template with the text [undefined] for the pattern is a
    regular expression, whatever the prefixes. *)
Lemma createPlaceholderRegex_undefined types :
  exists re, createPlaceholderRegex types None = Ok re.
Proof.
  unfold createPlaceholderRegex. destruct (isEmpty types) eqn:E; [eauto|].
  destruct types as [ts|]; [|discriminate]. cbn [defined JS.bind interpolate].
  unfold RegExp.new. cbn [parse_flags JS.bind fst snd].
  change ("^((?:" ++ join "|" (map escapeRegExp ts) ++ ")(?:" ++ "undefined" ++ "))")
    with ("^((?:" ++ (join "|" (map escapeRegExp ts) ++ ")(?:undefined))")).
  set (body := join "|" (map escapeRegExp ts) ++ ")(?:undefined))").
  cbn [append parse p_mode open_group push_term p_stack p_cur p_groups f_kind
       f_alts f_seq].
  subst body.
  match goal with
  | |- context [parse _ ?st0] =>
      destruct (parse_escaped_alternatives ts ")(?:undefined))" st0 eq_refl)
        as [st' [Hp [Hs Hm]]]
  end.
  rewrite Hp. destruct st' as [stack cur groups mode].
  cbn [p_stack p_mode] in Hs, Hm. subst stack mode.
  cbn. eauto.
Qed.

(** *** Some classifier always matches

    Every character is either white space or accepted by the final [.] of
    the operator pattern. *)

Lemma whitespace_accepts c s :
  is_space c = true -> exec whitespace_re (String c s) <> None.
Proof.
  intros Hc. apply exec_some.
  cbn [whitespace_re ignoreCase source m Nat.eqb m_idx reset captures1 orb
       step1 m_rest class_mem existsb cset_mem xorb].
  rewrite Hc. cbn [orb xorb]. apply repeat_total. intros st. discriminate.
Qed.

Lemma operator_accepts c s :
  is_line_terminator c = false -> exec operator_re (String c s) <> None.
Proof.
  intros Hc. apply exec_some.
  unfold operator_re. cbn [ignoreCase source].
  rewrite m_Cat, m_Bol, m_Group. repeat apply alt_right.
  cbn [m step1 m_rest]. rewrite Hc. discriminate.
Qed.

Lemma getTokenOnFirstMatch_some input ty re :
  exec re input <> None -> getTokenOnFirstMatch input ty (Some re) <> None.
Proof.
  unfold getTokenOnFirstMatch. destruct (exec re input); [discriminate | congruence].
Qed.

Lemma some_classifier_matches this c s :
  WHITESPACE_REGEX this = Some whitespace_re ->
  OPERATOR_REGEX this = Some operator_re ->
  getWhitespaceToken this (String c s) <> None
  \/ getOperatorToken this (String c s) <> None.
Proof.
  intros Hw Ho. unfold getWhitespaceToken, getOperatorToken. rewrite Hw, Ho.
  destruct (is_space c) eqn:Es.
  - left. apply getTokenOnFirstMatch_some, whitespace_accepts, Es.
  - right. apply getTokenOnFirstMatch_some, operator_accepts.
    destruct (is_line_terminator c) eqn:El; [|reflexivity].
    apply line_terminator_is_space in El. congruence.
Qed.

Lemma getNextToken_none this input prev :
  getNextToken this input prev = Ok None ->
  getWhitespaceToken this input = None /\ getOperatorToken this input = None.
Proof.
  unfold getNextToken, or_else_r. intros H.
  destruct (getWhitespaceToken this input); [discriminate|].
  destruct (getCommentToken this input); [discriminate|].
  destruct (getStringToken this input); [discriminate|].
  destruct (getOpenParenToken this input); [discriminate|].
  destruct (getCloseParenToken this input); [discriminate|].
  destruct (getPlaceholderToken this input) as [[?|]|]; try discriminate.
  destruct (getNumberToken this input); [discriminate|].
  destruct (getReservedWordToken this input prev); [discriminate|].
  destruct (getWordToken this input); [discriminate|].
  destruct (getOperatorToken this input); [discriminate|]. auto.
Qed.

(** *** Classifier results under anchored patterns *)

Lemma getTokenOnFirstMatch_cut input ty regex t :
  holds anchored regex = true ->
  getTokenOnFirstMatch input ty regex = Some t ->
  cut_from input (holds productive regex = true) t /\ type t = ty.
Proof.
  unfold getTokenOnFirstMatch. destruct regex as [re|]; [|discriminate].
  simpl. intros Ha H. destruct (exec re input) as [mr|] eqn:E; [|discriminate].
  inversion H; subst t. simpl. split; [|reflexivity].
  destruct (exec_anchored _ _ _ Ha E) as [v [rest [Hv [Hin Hne]]]].
  exists v, rest. simpl. auto.
Qed.

Lemma getPlaceholderTokenWithKey_cut input regex parseKey t :
  holds anchored regex = true ->
  getPlaceholderTokenWithKey input regex parseKey = Ok (Some t) ->
  cut_from input (holds productive regex = true) t /\ type t = PLACEHOLDER.
Proof.
  unfold getPlaceholderTokenWithKey. intros Ha H.
  destruct (getTokenOnFirstMatch input PLACEHOLDER regex) as [t0|] eqn:E;
    [|discriminate].
  apply (getTokenOnFirstMatch_cut _ _ _ _ Ha) in E.
  destruct E as [[v [rest [Hv [Hin Hne]]]] Hty].
  apply bind_ok in H. destruct H as [v' [_ H]].
  apply bind_ok in H. destruct H as [k [_ H]].
  inversion H; subst t. simpl. split; [|exact Hty].
  exists v, rest. auto.
Qed.

Lemma forallb_holds P this :
  forallb (holds P) (patterns_of this) = true ->
  forall o, In o (patterns_of this) -> holds P o = true.
Proof. intros H o. apply (proj1 (forallb_forall _ _) H). Qed.

Ltac pattern_in :=
  unfold patterns_of; simpl; tauto.

(** The token [getNextToken] returns is cut from the front of the input. *)
Theorem getNextToken_cut this input prev t :
  anchored_patterns this = true ->
  getNextToken this input prev = Ok (Some t) ->
  cut_from input (productive_patterns this = true) t.
Proof.
  intros Ha H.
  pose proof (forallb_holds _ _ Ha) as A.
  assert (P : forall o, In o (patterns_of this) ->
                productive_patterns this = true -> holds productive o = true).
  { intros o Ho Hp. exact (forallb_holds _ _ Hp o Ho). }
  assert (W : forall o (t' : IToken), In o (patterns_of this) ->
                cut_from input (holds productive o = true) t' ->
                cut_from input (productive_patterns this = true) t').
  { intros o t' Ho [v [rest [Hv [Hin Hne]]]]. exists v, rest. auto. }
  unfold getNextToken, or_else_r in H.
  unfold getWhitespaceToken, getCommentToken, getLineCommentToken,
    getBlockCommentToken, getStringToken, getOpenParenToken, getCloseParenToken,
    getPlaceholderToken, getIdentNamedPlaceholderToken,
    getStringNamedPlaceholderToken, getIndexedPlaceholderToken, getNumberToken,
    getReservedWordToken, getToplevelReservedToken, getNewlineReservedToken,
    getPlainReservedToken, getWordToken, getOperatorToken, or_else, or_else_r in H.
  repeat match type of H with
  | context [getTokenOnFirstMatch input ?ty ?re] =>
      let E := fresh "E" in
      destruct (getTokenOnFirstMatch input ty re) eqn:E;
      [ apply getTokenOnFirstMatch_cut in E; [|apply A; pattern_in];
        inversion H; subst; eapply W; [|exact (proj1 E)]; pattern_in
      | ]
  | context [getPlaceholderTokenWithKey input ?re ?pk] =>
      let E := fresh "E" in
      destruct (getPlaceholderTokenWithKey input re pk) as [[?|]|] eqn:E;
      [ apply getPlaceholderTokenWithKey_cut in E; [|apply A; pattern_in];
        inversion H; subst; eapply W; [|exact (proj1 E)]; pattern_in
      | | discriminate ]
  | context [preceded_by_dot prev] => destruct (preceded_by_dot prev)
  end.
  all: discriminate.
Qed.

(** *** The loop of [tokenize] *)

(** More fuel does not change an outcome. *)
Lemma tokenize_loop_more this :
  forall fuel input token lastPosition tokens r,
    tokenize_loop this fuel input token lastPosition tokens = Some r ->
    forall extra,
      tokenize_loop this (extra + fuel) input token lastPosition tokens = Some r.
Proof.
  induction fuel as [|fuel IH]; intros input token lastPosition tokens r H extra.
  - destruct input; [|discriminate]. simpl in H.
    destruct (extra + 0); exact H.
  - rewrite Nat.add_succ_r. destruct input as [|c s]; [exact H|].
    cbn [tokenize_loop] in H |- *.
    destruct (getNextToken this (String c s) token) as [[t|]|]; try exact H.
    destruct (value t); [|exact H]. apply IH. exact H.
Qed.

(** [tokenize] has at most one outcome. *)
Lemma tokenize_within_unique this input fuel1 fuel2 r1 r2 :
  tokenize_within this fuel1 input = Some r1 ->
  tokenize_within this fuel2 input = Some r2 ->
  r1 = r2.
Proof.
  unfold tokenize_within. intros H1 H2.
  pose proof (tokenize_loop_more this _ _ _ _ _ _ H1 fuel2) as E1.
  pose proof (tokenize_loop_more this _ _ _ _ _ _ H2 fuel1) as E2.
  rewrite Nat.add_comm in E2. congruence.
Qed.

Section Loop.

Variable this : Tokenizer.
Hypothesis Hanchored : anchored_patterns this = true.

Lemma tokenize_loop_covers :
  forall fuel input token lastPosition tokens out,
    tokenize_loop this fuel input token lastPosition tokens = Some (Ok out) ->
    exists new vs,
      out = (tokens ++ new)%list /\ token_values new vs /\ JS.concat vs = input
      /\ contiguous lastPosition new (lastPosition + String.length input).
Proof.
  induction fuel as [|fuel IH]; intros input token lastPosition tokens out H;
    destruct input as [|c s]; simpl in H; try discriminate.
  - inversion H; subst. exists [], []. rewrite app_nil_r.
    repeat split; [constructor | simpl; lia].
  - inversion H; subst. exists [], []. rewrite app_nil_r.
    repeat split; [constructor | simpl; lia].
  - destruct (getNextToken this (String c s) token) as [[t|]|] eqn:E;
      try discriminate.
    destruct (getNextToken_cut _ _ _ _ Hanchored E) as [v [rest [Hv [Hin _]]]].
    rewrite Hv in H. unfold substring_from in H. rewrite Hin in H.
    rewrite drop_append in H. apply IH in H.
    destruct H as [new [vs [Hout [Hvs [Hcat Hpos]]]]].
    eexists (_ :: new), (v :: vs). split; [|split; [|split]].
    + rewrite Hout, <- app_assoc. reflexivity.
    + constructor; [reflexivity | exact Hvs].
    + simpl. rewrite Hcat. symmetry. exact Hin.
    + assert (Hl : String.length (String c s)
                   = String.length v + String.length rest)
        by (rewrite Hin; apply length_append).
      cbn [contiguous position]. eexists. split; [reflexivity|]. split; [lia|].
      rewrite Hl, Nat.add_assoc. exact Hpos.
Qed.

Hypothesis Hproductive : productive_patterns this = true.

Lemma tokenize_loop_halts :
  forall fuel input token lastPosition tokens,
    String.length input <= fuel ->
    tokenize_loop this fuel input token lastPosition tokens <> None.
Proof.
  induction fuel as [|fuel IH]; intros input token lastPosition tokens Hlen;
    destruct input as [|c s]; simpl in *; try discriminate; try lia.
  destruct (getNextToken this (String c s) token) as [[t|]|] eqn:E;
    try discriminate.
  destruct (getNextToken_cut _ _ _ _ Hanchored E) as [v [rest [Hv [Hin Hne]]]].
  rewrite Hv. apply IH. unfold substring_from. rewrite Hin, drop_append.
  assert (Hl : String.length (String c s) = String.length v + String.length rest)
    by (rewrite Hin; apply length_append).
  specialize (Hne Hproductive). destruct v; [congruence|]. simpl in *. lia.
Qed.

Lemma getPlaceholderTokenWithKey_slice input regex from :
  holds anchored regex = true ->
  exists o, getPlaceholderTokenWithKey input regex
              (fun v => Ok (slice v from None)) = Ok o.
Proof.
  intros Ha. unfold getPlaceholderTokenWithKey.
  destruct (getTokenOnFirstMatch input PLACEHOLDER regex) as [t0|] eqn:E; [|eauto].
  apply (getTokenOnFirstMatch_cut _ _ _ _ Ha) in E.
  destruct E as [[v [rest [Hv _]]] _]. rewrite Hv. simpl. eauto.
Qed.

(** Without a string-named placeholder pattern no classifier raises. *)
Lemma getNextToken_no_throw input prev e :
  STRING_NAMED_PLACEHOLDER_REGEX this = None ->
  getNextToken this input prev <> Throw e.
Proof.
  intros Hs. pose proof (forallb_holds _ _ Hanchored) as A.
  unfold getNextToken, or_else_r.
  destruct (getWhitespaceToken this input); [discriminate|].
  destruct (getCommentToken this input); [discriminate|].
  destruct (getStringToken this input); [discriminate|].
  destruct (getOpenParenToken this input); [discriminate|].
  destruct (getCloseParenToken this input); [discriminate|].
  assert (Hp : exists o, getPlaceholderToken this input = Ok o).
  { unfold getPlaceholderToken, or_else_r, getIdentNamedPlaceholderToken,
      getStringNamedPlaceholderToken, getIndexedPlaceholderToken.
    destruct (getPlaceholderTokenWithKey_slice input
                (IDENT_NAMED_PLACEHOLDER_REGEX this) 1) as [o1 ->];
      [apply A; pattern_in|].
    destruct o1; [eauto|]. rewrite Hs. simpl.
    apply getPlaceholderTokenWithKey_slice. apply A; pattern_in. }
  destruct Hp as [o ->]. destruct o; [discriminate|].
  destruct (getNumberToken this input); [discriminate|].
  destruct (getReservedWordToken this input prev); [discriminate|].
  destruct (getWordToken this input); discriminate.
Qed.

Lemma tokenize_loop_no_throw :
  WHITESPACE_REGEX this = Some whitespace_re ->
  OPERATOR_REGEX this = Some operator_re ->
  STRING_NAMED_PLACEHOLDER_REGEX this = None ->
  forall fuel input token lastPosition tokens e,
    tokenize_loop this fuel input token lastPosition tokens <> Some (Throw e).
Proof.
  intros Hw Ho Hs.
  induction fuel as [|fuel IH]; intros input token lastPosition tokens e;
    destruct input as [|c s]; simpl; try discriminate.
  destruct (getNextToken this (String c s) token) as [[t|]|e'] eqn:E.
  - destruct (getNextToken_cut _ _ _ _ Hanchored E) as [v [rest [Hv _]]].
    rewrite Hv. apply IH.
  - exfalso. apply getNextToken_none in E. destruct E as [E1 E2].
    destruct (some_classifier_matches this c s Hw Ho); congruence.
  - exfalso. exact (getNextToken_no_throw _ _ _ Hs E).
Qed.

End Loop.

(** On a non-empty input the white-space classifier or the operator
    classifier takes at least one character. *)
Lemma some_classifier_consumes cfg this c s :
  Lexer.new cfg = Ok this ->
  exists t v,
    (getWhitespaceToken this (String c s) = Some t
     \/ getOperatorToken this (String c s) = Some t)
    /\ value t = Some v /\ v <> "".
Proof.
  intros Hnew. destruct (new_inv _ _ Hnew) as (Hw & _ & Ho & _).
  destruct (some_classifier_matches this c s Hw Ho) as [H|H].
  - destruct (getWhitespaceToken this (String c s)) as [t|] eqn:E; [|congruence].
    pose proof E as E'. unfold getWhitespaceToken in E'. rewrite Hw in E'.
    apply getTokenOnFirstMatch_cut in E'; [|reflexivity].
    destruct E' as [[v [rest [Hv [_ Hne]]]] _].
    exists t, v. split; [left; reflexivity|]. split; [exact Hv|].
    apply Hne. reflexivity.
  - destruct (getOperatorToken this (String c s)) as [t|] eqn:E; [|congruence].
    pose proof E as E'. unfold getOperatorToken in E'. rewrite Ho in E'.
    apply getTokenOnFirstMatch_cut in E'; [|reflexivity].
    destruct E' as [[v [rest [Hv [_ Hne]]]] _].
    exists t, v. split; [right; reflexivity|]. split; [exact Hv|].
    apply Hne. reflexivity.
Qed.

(** For a tokenizer whose patterns are anchored and cannot match the empty
    text, and which has no string-named placeholder pattern, [tokenize]
    returns on every input, and what it returns covers the input. *)
Theorem tokenize_total this input :
  anchored_patterns this = true ->
  productive_patterns this = true ->
  WHITESPACE_REGEX this = Some whitespace_re ->
  OPERATOR_REGEX this = Some operator_re ->
  STRING_NAMED_PLACEHOLDER_REGEX this = None ->
  exists tokens vs,
    tokenize this input tokens /\ token_values tokens vs
    /\ JS.concat vs = input /\ contiguous 0 tokens (String.length input).
Proof.
  intros Ha Hp Hw Ho Hs.
  pose proof (tokenize_loop_halts this Ha Hp (String.length input) input None 0 []
                (le_n _)) as Hh.
  destruct (tokenize_loop this (String.length input) input None 0 [])
    as [[tokens|e]|] eqn:E; [| |congruence].
  - destruct (tokenize_loop_covers this Ha _ _ _ _ _ _ E)
      as [new [vs [Hout [Hvs [Hcat Hpos]]]]].
    simpl in Hout. subst new. exists tokens, vs. repeat split; try assumption.
    exists (String.length input). exact E.
  - exfalso. exact (tokenize_loop_no_throw this Ha Hw Ho Hs _ _ _ _ _ _ E).
Qed.

(** Whatever [tokenize] returns covers the input. *)
Theorem tokenize_covers this input tokens :
  anchored_patterns this = true ->
  tokenize this input tokens ->
  exists vs, token_values tokens vs /\ JS.concat vs = input
             /\ contiguous 0 tokens (String.length input).
Proof.
  intros Ha [fuel H].
  destruct (tokenize_loop_covers this Ha _ _ _ _ _ _ H)
    as [new [vs [Hout [Hvs [Hcat Hpos]]]]].
  simpl in Hout. subst new. exists vs. auto.
Qed.

(** [Dialect.sql] without named placeholders is such a tokenizer. *)
Lemma tokenize_total_sql input :
  exists this tokens vs,
    Lexer.new Example.no_named_placeholders = Ok this
    /\ tokenize this input tokens /\ token_values tokens vs
    /\ JS.concat vs = input /\ contiguous 0 tokens (String.length input).
Proof.
  destruct (Lexer.new Example.no_named_placeholders)
    as [this|] eqn:E; [|vm_compute in E; discriminate].
  assert (Hp : anchored_patterns this = true /\ productive_patterns this = true
               /\ WHITESPACE_REGEX this = Some whitespace_re
               /\ OPERATOR_REGEX this = Some operator_re
               /\ STRING_NAMED_PLACEHOLDER_REGEX this = None).
  { vm_compute in E. injection E as <-. repeat split; vm_compute; reflexivity. }
  destruct Hp as (Ha & Hp & Hw & Ho & Hs).
  destruct (tokenize_total this input Ha Hp Hw Ho Hs) as [tokens [vs Hr]].
  exists this, tokens, vs. split; [reflexivity | exact Hr].
Qed.

(** *** The token before

    [previousToken && previousToken.value && previousToken.value === '.']
    holds exactly of a token whose value is a dot. *)
Lemma after_dot previousToken p :
  previousToken = Some p -> value p = Some "." ->
  preceded_by_dot previousToken = true.
Proof. intros -> Hv. unfold preceded_by_dot. rewrite Hv. reflexivity. Qed.

Lemma not_after_dot previousToken :
  (forall p, previousToken = Some p -> value p <> Some ".") ->
  preceded_by_dot previousToken = false.
Proof.
  intros H. unfold preceded_by_dot. destruct previousToken as [p|]; [|reflexivity].
  specialize (H p eq_refl). destruct (value p) as [v|]; [|reflexivity].
  destruct (String.eqb_spec v "."); [subst; congruence | reflexivity].
Qed.

End LexerFacts.

(* ================================================================== *)
(** ** The lexer against its description *)

Module LexerClaims.
Import RegExp Shape Example RegExpFacts Lexer LexerFacts.

(** *** Priority order *)

(** C4, as stated, fails: the order is not the same for every input.
    After a token whose value is a dot the reserved-word classifiers are
    not tried: in a dialect with the reserved word [from], the first
    classifier of the stated order that takes [from] is the one of the
    plain reserved words, and after a dot the tokenizer takes the operator
    [f]. *)
Lemma stated_order_fails_after_dot :
  exists this,
    Lexer.new Dialect.sql = Ok this
    /\ first_match (stated_order this) "from"
       = Ok (Some (mkToken RESERVED (Some "from") None None))
    /\ getNextToken this "from" (Some (operator_token "." 1 2))
       = Ok (Some (mkToken OPERATOR (Some "f") None None))
    /\ getNextToken this "from" (Some (operator_token "." 1 2))
       <> first_match (stated_order this) "from".
Proof.
  eexists. split; [vm_compute; reflexivity|].
  split; [vm_compute; reflexivity|].
  split; [vm_compute; reflexivity|]. vm_compute. discriminate.
Qed.

(** C4, amended.  [getNextToken] tries the classifiers in the stated order
    and takes the first match: white space; line comment; block comment;
    quoted string; open paren; close paren; placeholder (identifier-named,
    then string-named, then indexed); number; reserved word (toplevel, then
    newline-class, then plain); generic word; operator.  That is the order
    whenever the previous token, if there is one, does not have the value
    of a dot; after a token whose value is a dot it is the same order
    without the three reserved-word classifiers. *)
Theorem getNextToken_priority_order this input previousToken :
  ((forall p, previousToken = Some p -> value p <> Some ".") ->
   getNextToken this input previousToken = first_match (stated_order this) input)
  /\ (forall p, previousToken = Some p -> value p = Some "." ->
      getNextToken this input previousToken
      = first_match (order_after_dot this) input).
Proof.
  split.
  - intros Hp. apply not_after_dot in Hp.
    unfold getNextToken, stated_order, getCommentToken, getPlaceholderToken,
      getReservedWordToken, or_else_r, or_else, pure.
    rewrite Hp. cbn [first_match].
    destruct (getWhitespaceToken this input); [reflexivity|].
    destruct (getLineCommentToken this input); [reflexivity|].
    destruct (getBlockCommentToken this input); [reflexivity|].
    destruct (getStringToken this input); [reflexivity|].
    destruct (getOpenParenToken this input); [reflexivity|].
    destruct (getCloseParenToken this input); [reflexivity|].
    destruct (getIdentNamedPlaceholderToken this input) as [[?|]|]; try reflexivity.
    destruct (getStringNamedPlaceholderToken this input) as [[?|]|]; try reflexivity.
    destruct (getIndexedPlaceholderToken this input) as [[?|]|]; try reflexivity.
    destruct (getNumberToken this input); [reflexivity|].
    destruct (getToplevelReservedToken this input); [reflexivity|].
    destruct (getNewlineReservedToken this input); [reflexivity|].
    destruct (getPlainReservedToken this input); [reflexivity|].
    destruct (getWordToken this input); [reflexivity|].
    destruct (getOperatorToken this input); reflexivity.
  - intros p Hp Hv. pose proof (after_dot _ _ Hp Hv) as Hd.
    unfold getNextToken, order_after_dot, getCommentToken, getPlaceholderToken,
      getReservedWordToken, or_else_r, or_else, pure.
    rewrite Hd. cbn [first_match].
    destruct (getWhitespaceToken this input); [reflexivity|].
    destruct (getLineCommentToken this input); [reflexivity|].
    destruct (getBlockCommentToken this input); [reflexivity|].
    destruct (getStringToken this input); [reflexivity|].
    destruct (getOpenParenToken this input); [reflexivity|].
    destruct (getCloseParenToken this input); [reflexivity|].
    destruct (getIdentNamedPlaceholderToken this input) as [[?|]|]; try reflexivity.
    destruct (getStringNamedPlaceholderToken this input) as [[?|]|]; try reflexivity.
    destruct (getIndexedPlaceholderToken this input) as [[?|]|]; try reflexivity.
    destruct (getNumberToken this input); [reflexivity|].
    destruct (getWordToken this input); [reflexivity|].
    destruct (getOperatorToken this input); reflexivity.
Qed.

Lemma getNextToken_priority_order_witness :
  exists this,
    Lexer.new Dialect.sql = Ok this
    /\ getNextToken this "from" None = first_match (stated_order this) "from"
    /\ getNextToken this "from" (Some (operator_token "." 1 2))
       = first_match (order_after_dot this) "from".
Proof.
  destruct (Lexer.new Dialect.sql) as [this|e] eqn:E;
    [|vm_compute in E; discriminate].
  exists this. split; [reflexivity|]. split.
  - apply (proj1 (getNextToken_priority_order this "from" None)).
    intros p Hp. discriminate Hp.
  - apply (proj2 (getNextToken_priority_order this "from"
                    (Some (operator_token "." 1 2))) (operator_token "." 1 2));
      reflexivity.
Defined.

(** *** Words

    [createWordRegex] builds [^(c1|c2|...)] from the configured word
    characters: the pattern matches one of these characters and nothing
    else, and with no word characters it is [^()], which matches the empty
    text at the start of every input. *)

Lemma default_words_next this :
  Lexer.new Dialect.sql_default_words = Ok this ->
  forall previousToken, getNextToken this "a" previousToken = Ok (Some empty_word).
Proof.
  intros H previousToken. vm_compute in H. injection H as <-.
  unfold getNextToken, getReservedWordToken.
  destruct (preceded_by_dot previousToken); vm_compute; reflexivity.
Qed.

Lemma default_words_loop this :
  Lexer.new Dialect.sql_default_words = Ok this ->
  forall fuel token lastPosition tokens,
    tokenize_loop this fuel "a" token lastPosition tokens = None.
Proof.
  intros H. pose proof (default_words_next this H) as Hn. clear H.
  induction fuel as [|fuel IH]; intros token lastPosition tokens.
  - reflexivity.
  - cbn [tokenize_loop]. rewrite Hn. cbn [empty_word value String.length].
    cbn [substring_from drop]. apply IH.
Qed.

(** C2.  With [wordChars] left out, the lexer does not terminate on the
    input [a]: the operator classifier would take one character, but the
    word classifier comes first and matches the empty text, so each
    iteration leaves the input as it was. *)
Theorem tokenize_diverges_without_word_chars :
  exists this,
    Lexer.new Dialect.sql_default_words = Ok this
    /\ getOperatorToken this "a" = Some (mkToken OPERATOR (Some "a") None None)
    /\ (forall previousToken,
          getNextToken this "a" previousToken = Ok (Some empty_word))
    /\ tokenize_diverges this "a".
Proof.
  destruct (Lexer.new Dialect.sql_default_words) as [this|] eqn:E;
    [|vm_compute in E; discriminate].
  exists this. split; [reflexivity|]. split; [|split].
  - vm_compute in E. injection E as <-. vm_compute. reflexivity.
  - apply default_words_next, E.
  - intros fuel. apply default_words_loop, E.
Qed.

(** C1, as stated, fails.  Reserved words are pattern text: with the
    reserved word [[ab])+(c] group 1 of the reserved-word pattern is the last
    character of the repetition, and [abc] is cut into tokens whose values
    make [bbc].  And with [wordChars] left out [tokenize] returns no token
    sequence at all for the input [a]. *)
Lemma tokens_need_not_cover_input :
  (exists this,
     Lexer.new pattern_word = Ok this
     /\ tokenize this "abc"
          [token RESERVED "b" 0 1; token RESERVED "b" 1 2; token OPERATOR "c" 2 3])
  /\ (exists this,
        Lexer.new Dialect.sql_default_words = Ok this
        /\ forall tokens, ~ tokenize this "a" tokens).
Proof.
  split.
  - eexists. split; [vm_compute; reflexivity|]. exists 3. vm_compute. reflexivity.
  - destruct (Lexer.new Dialect.sql_default_words) as [this|] eqn:E;
      [|vm_compute in E; discriminate].
    exists this. split; [reflexivity|].
    intros tokens [fuel H]. unfold tokenize_within in H.
    rewrite (default_words_loop this E) in H. discriminate.
Qed.

(** C1, amended.  For a tokenizer whose patterns are anchored, whatever
    [tokenize] returns for an input reproduces it: the token values, in
    order, concatenate to the input, and the position ranges are contiguous
    from 0 to the length of the input.  When moreover no pattern can match
    the empty text and there is no string-named placeholder pattern,
    [tokenize] returns on every input. *)
Theorem tokenize_covers_input cfg this input :
  Lexer.new cfg = Ok this ->
  anchored_patterns this = true ->
  (forall tokens,
     tokenize this input tokens ->
     exists vs, token_values tokens vs /\ JS.concat vs = input
                /\ contiguous 0 tokens (String.length input))
  /\ (productive_patterns this = true ->
      STRING_NAMED_PLACEHOLDER_REGEX this = None ->
      exists tokens, tokenize this input tokens).
Proof.
  intros Hnew Ha. split.
  - intros tokens H. exact (tokenize_covers this input tokens Ha H).
  - intros Hp Hs. destruct (new_inv _ _ Hnew) as (Hw & _ & Ho & _).
    destruct (tokenize_total this input Ha Hp Hw Ho Hs) as [tokens [vs [H _]]].
    exists tokens. exact H.
Qed.

Lemma tokenize_covers_input_witness :
  exists this,
    Lexer.new no_named_placeholders = Ok this
    /\ (forall tokens,
          tokenize this "a ?1" tokens ->
          exists vs, token_values tokens vs /\ JS.concat vs = "a ?1"
                     /\ contiguous 0 tokens 4)
    /\ exists tokens, tokenize this "a ?1" tokens.
Proof.
  eexists. split; [vm_compute; reflexivity|].
  pose proof (tokenize_covers_input no_named_placeholders _ "a ?1"
                ltac:(vm_compute; reflexivity) ltac:(vm_compute; reflexivity))
    as [Hc Ht].
  split; [exact Hc|].
  exact (Ht ltac:(vm_compute; reflexivity) ltac:(vm_compute; reflexivity)).
Defined.

Lemma getTokenOnFirstMatch_type input ty regex t :
  getTokenOnFirstMatch input ty regex = Some t -> type t = ty.
Proof.
  unfold getTokenOnFirstMatch. destruct regex as [re|]; [|discriminate].
  destruct (exec re input); [|discriminate]. intros H. inversion H. reflexivity.
Qed.

Lemma getPlaceholderTokenWithKey_type input regex parseKey t :
  getPlaceholderTokenWithKey input regex parseKey = Ok (Some t) ->
  type t = PLACEHOLDER.
Proof.
  unfold getPlaceholderTokenWithKey.
  destruct (getTokenOnFirstMatch input PLACEHOLDER regex) as [t0|] eqn:E;
    [|discriminate].
  apply getTokenOnFirstMatch_type in E. intros H.
  apply bind_ok in H. destruct H as [v [_ H]].
  apply bind_ok in H. destruct H as [k [_ H]].
  inversion H. exact E.
Qed.

(** After a dot no token is classified as a reserved word. *)
Lemma no_reserved_word_after_dot this input previousToken t :
  preceded_by_dot previousToken = true ->
  getNextToken this input previousToken = Ok (Some t) ->
  is_reserved (type t) = false.
Proof.
  intros Hd H. unfold getNextToken, getReservedWordToken in H. rewrite Hd in H.
  unfold getWhitespaceToken, getCommentToken, getLineCommentToken,
    getBlockCommentToken, getStringToken, getOpenParenToken, getCloseParenToken,
    getPlaceholderToken, getIdentNamedPlaceholderToken,
    getStringNamedPlaceholderToken, getIndexedPlaceholderToken, getNumberToken,
    getWordToken, getOperatorToken, or_else, or_else_r in H.
  repeat match type of H with
  | context [getTokenOnFirstMatch input ?ty ?re] =>
      let E := fresh "E" in
      destruct (getTokenOnFirstMatch input ty re) eqn:E;
      [ apply getTokenOnFirstMatch_type in E; inversion H; subst; rewrite E;
        reflexivity | ]
  | context [getPlaceholderTokenWithKey input ?re ?pk] =>
      let E := fresh "E" in
      destruct (getPlaceholderTokenWithKey input re pk) as [[?|]|] eqn:E;
      [ apply getPlaceholderTokenWithKey_type in E; inversion H; subst; rewrite E;
        reflexivity | | discriminate ]
  end.
  all: discriminate.
Qed.

(** C3.  In a dialect where [from] is reserved, the input [t.from] is cut
    into six operator tokens: after the dot [from] is not a reserved word,
    but neither is it a word, because the word pattern only matches the
    configured word characters ([@] and [#] here). *)
Theorem from_after_dot_is_not_a_word :
  exists this,
    Lexer.new Dialect.sql = Ok this
    /\ getPlainReservedToken this "from"
       = Some (mkToken RESERVED (Some "from") None None)
    /\ getWordToken this "from" = None
    /\ tokenize this "t.from"
         [operator_token "t" 0 1; operator_token "." 1 2; operator_token "f" 2 3;
          operator_token "r" 3 4; operator_token "o" 4 5; operator_token "m" 5 6].
Proof.
  destruct (Lexer.new Dialect.sql) as [this|] eqn:E;
    [|vm_compute in E; discriminate].
  exists this. split; [reflexivity|].
  vm_compute in E. injection E as <-.
  split; [vm_compute; reflexivity|]. split; [vm_compute; reflexivity|].
  exists 6. vm_compute. reflexivity.
Qed.

(** *** Placeholder names *)


Lemma replace_from_here re replacement prev c rest idx :
  replace_from re replacement 0 prev (String c rest) idx
  = match m (ignoreCase re) (source re) (mkM prev (String c rest) idx None) Some with
    | Some st =>
        replacement ++
        (if (m_idx st =? idx)%nat
         then String c (replace_from re replacement 0 (Some c) rest (S idx))
         else replace_from re replacement (m_idx st - idx - 1) (Some c) rest (S idx))
    | None => String c (replace_from re replacement 0 (Some c) rest (S idx))
    end.
Proof. reflexivity. Qed.

Lemma replace_from_skip re replacement skip prev c rest idx :
  replace_from re replacement (S skip) prev (String c rest) idx
  = replace_from re replacement skip (Some c) rest (S idx).
Proof. reflexivity. Qed.






(** *** Malformed input *)

(** C6.  [tokenize] raises on the input [@'a(]: the string-named placeholder
    pattern takes the unterminated name up to the end of the input, and
    [getEscapedPlaceholderKey] then builds a regular expression from the last
    character of the token, taken to be the closing quote; with [(] the
    pattern [\\(] is not a regular expression.  Also, the unterminated
    string ['abc\] is not one string token: the string pattern does not
    match it at all. *)
Theorem unterminated_placeholder_name_raises :
  exists this,
    Lexer.new Dialect.sql = Ok this
    /\ RegExp.new (escapeRegExp "\" ++ "(") "g" = Throw SyntaxError
    /\ tokenize_throws this "@'a(" SyntaxError
    /\ getStringToken this "'abc\" = None
    /\ tokenize this "'abc\"
         [operator_token "'" 0 1; operator_token "a" 1 2; operator_token "b" 2 3;
          operator_token "c" 3 4; operator_token "\" 4 5].
Proof.
  eexists. split; [vm_compute; reflexivity|].
  split; [reflexivity|]. split; [|split].
  - exists 1. vm_compute. reflexivity.
  - vm_compute. reflexivity.
  - exists 5. vm_compute. reflexivity.
Qed.

(** *** Missing and empty lists *)

(** C7, as stated, fails: an empty list of line-comment prefixes does not
    disable line comments (the classifier takes any line), an empty list of
    string types gives a string classifier that matches the empty text, and
    a missing list of line-comment prefixes makes the constructor raise. *)
Lemma empty_list_does_not_disable :
  (exists this,
     Lexer.new (Dialect.with_lineCommentTypes Dialect.sql (Some [])) = Ok this
     /\ getLineCommentToken this "a" = Some (mkToken LINE_COMMENT (Some "a") None None))
  /\ Lexer.new (Dialect.with_lineCommentTypes Dialect.sql None) = Throw TypeError.
Proof.
  split; [|vm_compute; reflexivity].
  eexists. split; [vm_compute; reflexivity|]. vm_compute. reflexivity.
Qed.

(** C7, amended to the placeholder classes.  A missing or empty list of
    placeholder prefixes disables the class: [createPlaceholderRegex] yields
    [false] without raising, whatever the pattern, and in a tokenizer built
    from such a configuration the classifier matches no input. *)
Theorem empty_placeholder_types_disable cfg this input :
  Lexer.new cfg = Ok this ->
  (forall types pattern,
     isEmpty types = true -> createPlaceholderRegex types pattern = Ok None)
  /\ (isEmpty (indexedPlaceholderTypes cfg) = true ->
      getIndexedPlaceholderToken this input = Ok None)
  /\ (isEmpty (namedPlaceholderTypes cfg) = true ->
      getIdentNamedPlaceholderToken this input = Ok None
      /\ getStringNamedPlaceholderToken this input = Ok None).
Proof.
  intros Hnew.
  assert (Hc : forall types pattern,
             isEmpty types = true -> createPlaceholderRegex types pattern = Ok None).
  { intros types pattern He. unfold createPlaceholderRegex. rewrite He. reflexivity. }
  destruct (new_inv _ _ Hnew) as
    (_ & _ & _ & _ & _ & _ & _ & _ & _ & _ & _ & _ & Hi & Hn & (sp & _ & Hsn)).
  split; [exact Hc|]. split.
  - intros He. rewrite (Hc _ _ He) in Hi. injection Hi as Hi.
    unfold getIndexedPlaceholderToken. rewrite <- Hi. reflexivity.
  - intros He. rewrite (Hc _ _ He) in Hn. rewrite (Hc _ _ He) in Hsn.
    injection Hn as Hn. injection Hsn as Hsn.
    unfold getIdentNamedPlaceholderToken, getStringNamedPlaceholderToken.
    rewrite <- Hn, <- Hsn. split; reflexivity.
Qed.

Lemma empty_placeholder_types_disable_witness :
  exists this,
    Lexer.new no_placeholders = Ok this
    /\ getIndexedPlaceholderToken this "?1" = Ok None
    /\ getIdentNamedPlaceholderToken this "?1" = Ok None
    /\ getStringNamedPlaceholderToken this "?1" = Ok None.
Proof.
  eexists. split; [vm_compute; reflexivity|].
  pose proof (empty_placeholder_types_disable no_placeholders _ "?1"
                ltac:(vm_compute; reflexivity)) as [_ [Hi Hn]].
  split; [exact (Hi eq_refl) | exact (Hn eq_refl)].
Defined.

(** *** Inconsistent configurations *)

(** C8, as stated, fails: a named-placeholder prefix with no identifier
    pattern is accepted, and the identifier-named placeholder classifier is
    built from the text [undefined]. *)
Lemma missing_ident_pattern_accepted :
  exists this,
    Lexer.new (Dialect.with_indentRegex Dialect.sql None) = Ok this
    /\ getIdentNamedPlaceholderToken this "@undefined" = Ok (Some undefined_placeholder)
    /\ getIdentNamedPlaceholderToken this "@name" = Ok None.
Proof.
  eexists. split; [vm_compute; reflexivity|].
  split; [vm_compute; reflexivity|]. vm_compute. reflexivity.
Qed.

(** C8, amended.  The constructor makes no consistency check: taking the
    identifier pattern away from a configuration it accepts gives a
    configuration it accepts as well, whatever the named-placeholder
    prefixes.  Every other pattern of the tokenizer is the same, the
    pattern of the identifier-named placeholders is built from the text
    [undefined], and with the prefix [@] its classifier then takes
    [@undefined]. *)
Theorem constructor_ignores_missing_ident_pattern cfg this :
  Lexer.new cfg = Ok this ->
  exists this',
    Lexer.new (Dialect.with_indentRegex cfg None) = Ok this'
    /\ WHITESPACE_REGEX this' = WHITESPACE_REGEX this
    /\ NUMBER_REGEX this' = NUMBER_REGEX this
    /\ OPERATOR_REGEX this' = OPERATOR_REGEX this
    /\ BLOCK_COMMENT_REGEX this' = BLOCK_COMMENT_REGEX this
    /\ LINE_COMMENT_REGEX this' = LINE_COMMENT_REGEX this
    /\ RESERVED_TOPLEVEL_REGEX this' = RESERVED_TOPLEVEL_REGEX this
    /\ RESERVED_NEWLINE_REGEX this' = RESERVED_NEWLINE_REGEX this
    /\ RESERVED_PLAIN_REGEX this' = RESERVED_PLAIN_REGEX this
    /\ WORD_REGEX this' = WORD_REGEX this
    /\ STRING_REGEX this' = STRING_REGEX this
    /\ OPEN_PAREN_REGEX this' = OPEN_PAREN_REGEX this
    /\ CLOSE_PAREN_REGEX this' = CLOSE_PAREN_REGEX this
    /\ INDEXED_PLACEHOLDER_REGEX this' = INDEXED_PLACEHOLDER_REGEX this
    /\ STRING_NAMED_PLACEHOLDER_REGEX this' = STRING_NAMED_PLACEHOLDER_REGEX this
    /\ createPlaceholderRegex (namedPlaceholderTypes cfg) None
       = Ok (IDENT_NAMED_PLACEHOLDER_REGEX this')
    /\ (namedPlaceholderTypes cfg = Some ["@"] ->
        getIdentNamedPlaceholderToken this' "@undefined"
        = Ok (Some undefined_placeholder)).
Proof.
  intros Hnew.
  destruct (new_inv _ _ Hnew) as
    (Hw & Hnu & Hop & Hb & (r1 & E1 & F1) & (r2 & E2 & F2) & (r3 & E3 & F3)
     & (r4 & E4 & F4) & (r5 & E5 & F5) & (r6 & E6 & F6) & (r7 & E7 & F7)
     & (r8 & E8 & F8) & Hi & _ & (sp & Esp & Hsn)).
  destruct (createPlaceholderRegex_undefined (namedPlaceholderTypes cfg))
    as [re Hu].
  eexists. split.
  { unfold Lexer.new.
    cbn [Dialect.with_indentRegex lineCommentTypes reservedToplevelWords
         reservedNewlineWords reservedWords wordChars stringTypes openParens
         closeParens indexedPlaceholderTypes namedPlaceholderTypes indentRegex].
    rewrite new_whitespace, new_number, new_operator, new_block_comment.
    rewrite E1, E2, E3, E4, E5, E6, E7, E8, Hi, Hu, Esp. cbn [JS.bind].
    rewrite Hsn. cbn [JS.bind]. reflexivity. }
  cbn [WHITESPACE_REGEX NUMBER_REGEX OPERATOR_REGEX BLOCK_COMMENT_REGEX
       LINE_COMMENT_REGEX RESERVED_TOPLEVEL_REGEX RESERVED_NEWLINE_REGEX
       RESERVED_PLAIN_REGEX WORD_REGEX STRING_REGEX OPEN_PAREN_REGEX
       CLOSE_PAREN_REGEX INDEXED_PLACEHOLDER_REGEX IDENT_NAMED_PLACEHOLDER_REGEX
       STRING_NAMED_PLACEHOLDER_REGEX].
  rewrite Hw, Hnu, Hop, Hb, F1, F2, F3, F4, F5, F6, F7, F8.
  repeat (split; [reflexivity|]).
  split; [exact Hu|].
  intros Hnamed. rewrite Hnamed in Hu.
  unfold getIdentNamedPlaceholderToken. cbn [IDENT_NAMED_PLACEHOLDER_REGEX].
  vm_compute in Hu. injection Hu as <-. vm_compute. reflexivity.
Qed.

Lemma constructor_ignores_missing_ident_pattern_witness :
  exists this',
    Lexer.new (Dialect.with_indentRegex Dialect.sql None) = Ok this'
    /\ getIdentNamedPlaceholderToken this' "@undefined" = Ok (Some undefined_placeholder).
Proof.
  edestruct (constructor_ignores_missing_ident_pattern Dialect.sql)
    as (this' & H1 & _ & _ & _ & _ & _ & _ & _ & _ & _ & _ & _ & _ & _ & _ & _ & H2).
  { vm_compute. reflexivity. }
  exists this'. split; [exact H1 | exact (H2 eq_refl)].
Defined.

(** *** Block comments *)

Lemma exec_none_at_anchor re input x :
  source re = Cat Bol x ->
  m (ignoreCase re) x (mkM None input 0 None) Some = None ->
  exec re input = None.
Proof.
  intros Hs H. unfold exec.
  destruct input as [|c rest]; simpl; rewrite Hs; simpl; rewrite H; [reflexivity|].
  apply (search_off_anchor re _ x Hs). discriminate.
Qed.

Lemma comment_body_prefix s : exists rest, s = comment_body s ++ rest.
Proof.
  induction s as [|c tl IH]; [exists ""; reflexivity|].
  cbn [comment_body]. destruct tl as [|d rest]; [exists ""; reflexivity|].
  destruct (Ascii.eqb c "*") eqn:Ec; cbn [andb].
  - destruct (Ascii.eqb d "/") eqn:Ed.
    + apply Ascii.eqb_eq in Ec, Ed. subst. exists rest. reflexivity.
    + destruct IH as [r Hr]. exists r. cbn [append]. f_equal. exact Hr.
  - destruct IH as [r Hr]. exists r. cbn [append]. f_equal. exact Hr.
Qed.

Lemma comment_close_at prev rest idx cap :
  m false comment_close (mkM prev rest idx cap) capture_all
  = match rest with
    | "" => Some (mkM prev "" idx (Some (0, idx)))
    | String c tl =>
        match tl with
        | String d rest' =>
            if Ascii.eqb c "*" && Ascii.eqb d "/"
            then Some (mkM (Some d) rest' (S (S idx)) (Some (0, S (S idx))))
            else None
        | "" => None
        end
    end.
Proof.
  unfold comment_close, capture_all.
  destruct rest as [|c tl]; [reflexivity|].
  cbn [m step1 m_rest m_idx m_cap]. unfold chr_eq.
  rewrite (Ascii.eqb_sym c "*").
  destruct tl as [|d rest'].
  - destruct (Ascii.eqb "*" c); reflexivity.
  - rewrite (Ascii.eqb_sym d "/").
    destruct (Ascii.eqb "*" c); cbn [andb]; [|reflexivity].
    cbn [step1 m_rest m_idx m_cap].
    destruct (Ascii.eqb "/" d); reflexivity.
Qed.

(** The lazy [[^]*?] stops at the first place where the comment closes. *)
Lemma lazy_scan_to_close :
  forall rest prev idx cap fuel,
    String.length rest <= fuel ->
    exists st,
      repeat (fun s k' => m false (Class true []) (reset (Class true []) s) k')
             false (fun st' => m false comment_close st' capture_all)
             fuel (mkM prev rest idx cap) = Some st
      /\ m_cap st = Some (0, idx + String.length (comment_body rest)).
Proof.
  induction rest as [|c tl IH]; intros prev idx cap fuel Hlen.
  - destruct fuel; cbn [repeat]; rewrite comment_close_at;
      eexists; (split; [reflexivity|]); simpl; f_equal; f_equal; lia.
  - destruct fuel as [|fuel]; [simpl in Hlen; lia|].
    cbn [repeat]. rewrite comment_close_at.
    assert (Hstep : forall k,
      m false (Class true []) (reset (Class true []) (mkM prev (String c tl) idx cap)) k
      = k (mkM (Some c) tl (S idx) cap)) by reflexivity.
    rewrite Hstep. cbn [m_idx].
    replace (S idx =? idx)%nat with false by (symmetry; apply Nat.eqb_neq; lia).
    simpl in Hlen. cbn [comment_body].
    destruct tl as [|d rest'].
    + destruct (IH (Some c) (S idx) cap fuel) as [st [Hst Hcap]]; [simpl; lia|].
      exists st. split; [exact Hst|]. rewrite Hcap. simpl. f_equal. f_equal. lia.
    + destruct (Ascii.eqb c "*" && Ascii.eqb d "/").
      * eexists. split; [reflexivity|]. simpl. f_equal. f_equal. lia.
      * destruct (IH (Some c) (S idx) cap fuel) as [st [Hst Hcap]]; [simpl in *; lia|].
        exists st. split; [exact Hst|]. rewrite Hcap.
        cbn [String.length]. f_equal. f_equal. lia.
Qed.

(** The block-comment classifier takes every input that starts with [/*],
    up to the first [*/] or to the end of the input. *)
Lemma getBlockCommentToken_open this rest :
  BLOCK_COMMENT_REGEX this = Some block_comment_re ->
  getBlockCommentToken this ("/*" ++ rest) = Some (block_comment rest).
Proof.
  intros Hb. unfold getBlockCommentToken, getTokenOnFirstMatch. rewrite Hb.
  destruct (lazy_scan_to_close rest (Some "*"%char) 2 None (String.length rest)
              (le_n _)) as [st [Hst Hcap]].
  rewrite (exec_found block_comment_re _ st).
  - unfold result_of, block_comment. cbn [group1]. rewrite Hcap.
    destruct (comment_body_prefix rest) as [r Hr].
    assert (Ht : take (2 + String.length (comment_body rest) - 0)
                      (drop 0 ("/*" ++ rest)) = "/*" ++ comment_body rest).
    { replace (2 + String.length (comment_body rest) - 0)
        with (String.length ("/*" ++ comment_body rest)) by (simpl; lia).
      assert (Hx : "/*" ++ rest = ("/*" ++ comment_body rest) ++ r)
        by (cbn [append]; do 2 f_equal; exact Hr).
      cbn [drop]. rewrite Hx. apply take_append. }
    rewrite Ht. reflexivity.
  - exact Hst.
Qed.

Lemma comment_body_unclosed s : has_close s = false -> comment_body s = s.
Proof.
  induction s as [|c tl IH]; [reflexivity|].
  cbn [has_close comment_body]. destruct tl as [|d rest]; [reflexivity|].
  destruct (Ascii.eqb c "*" && Ascii.eqb d "/"); [discriminate|].
  cbn [orb]. intros H. f_equal. exact (IH H).
Qed.

(** An unterminated block comment is taken up to the end of the input. *)
Lemma getBlockCommentToken_unclosed this rest :
  BLOCK_COMMENT_REGEX this = Some block_comment_re ->
  has_close rest = false ->
  getBlockCommentToken this ("/*" ++ rest)
  = Some (mkToken BLOCK_COMMENT (Some ("/*" ++ rest)) None None).
Proof.
  intros Hb Hc. rewrite (getBlockCommentToken_open this rest Hb).
  unfold block_comment. rewrite (comment_body_unclosed rest Hc). reflexivity.
Qed.

(** C10, as stated, fails: with an empty list of line-comment prefixes the
    line-comment classifier, which comes first, takes the whole of [/**/]. *)
Lemma block_comment_preempted_by_line_comment :
  exists this,
    Lexer.new (Dialect.with_lineCommentTypes Dialect.sql (Some [])) = Ok this
    /\ tokenize this "/**/" [mkToken LINE_COMMENT (Some "/**/") None (Some (0, 4))].
Proof.
  eexists. split; [vm_compute; reflexivity|]. exists 1. vm_compute. reflexivity.
Qed.

(** C10, amended.  The block-comment pattern is the same in every tokenizer,
    whatever the dialect, and an input that starts with [/*] is classified
    as a block comment, reaching to the first [*/] or to the end of the
    input, whenever the line-comment classifier, which is tried first, does
    not take it. *)
Theorem block_comment_is_unconditional cfg this rest previousToken :
  Lexer.new cfg = Ok this ->
  getLineCommentToken this ("/*" ++ rest) = None ->
  BLOCK_COMMENT_REGEX this = Some block_comment_re
  /\ getNextToken this ("/*" ++ rest) previousToken = Ok (Some (block_comment rest)).
Proof.
  intros Hnew Hline.
  destruct (new_inv _ _ Hnew) as (Hw & _ & _ & Hb & _).
  split; [exact Hb|].
  unfold getNextToken, getCommentToken, or_else_r, or_else.
  assert (Hws : getWhitespaceToken this ("/*" ++ rest) = None).
  { unfold getWhitespaceToken, getTokenOnFirstMatch. rewrite Hw.
    rewrite (exec_none_at_anchor whitespace_re _ _ eq_refl); reflexivity. }
  rewrite Hws, Hline, (getBlockCommentToken_open this rest Hb). reflexivity.
Qed.

Lemma block_comment_is_unconditional_witness :
  exists this,
    Lexer.new Dialect.sql = Ok this
    /\ getNextToken this "/* a */ b" None
       = Ok (Some (mkToken BLOCK_COMMENT (Some "/* a */") None None)).
Proof.
  eexists. split; [vm_compute; reflexivity|].
  refine (proj2 (block_comment_is_unconditional Dialect.sql _ " a */ b" None _ _));
    vm_compute; reflexivity.
Defined.

End LexerClaims.

(* ================================================================== *)
(** ** The grammar against its description *)

Module GrammarClaims.
Import Lexer Parser Grammar Example.


(** The grammar itself accepts the statement once the identifiers are
    words.  The entries of [wordChars] are pattern text, so the entry [\w+]
    makes the word pattern [^(\w+)], and then the tokens the tokenizer
    returns parse to a statement node of variant [select]; its from-clause
    is the tuple of the [FROM] keyword, the table sources, whose only token
    is the table name [t], the where-clause, which is present, and the
    absent group-by clause. *)
Lemma select_statement_parses_on_words :
  exists this tokens fuel node tableSources whereClause,
    Lexer.new (Dialect.with_wordChars Dialect.sql (Some ["\w+"])) = Ok this
    /\ tokenize this select_text tokens
    /\ parse fuel tokens 0 = Some (Success node)
    /\ property node "type" = AText "statement"
    /\ property node "variant" = AText "select"
    /\ property node "from"
       = AList [AToken (token RESERVED "FROM" 12 16); tableSources; whereClause; ANull]
    /\ tokens_of tableSources = [token WORD "t" 17 18]
    /\ whereClause <> ANull
    /\ tokens_of whereClause
       = [token WORD "a" 25 26; token OPERATOR ">" 27 28; token NUMBER "1" 29 30].
Proof.
  eexists. eexists. exists 100. eexists. eexists. eexists.
  split; [vm_compute; reflexivity|].
  split; [exists 18; vm_compute; reflexivity|].
  split; [vm_compute; reflexivity|].
  split; [reflexivity|]. split; [reflexivity|].
  split; [reflexivity|]. split; [reflexivity|].
  split; [discriminate | reflexivity].
Qed.

End GrammarClaims.

(* ================================================================== *)
(** ** Facts about what the classifiers read *)

Module ReadingFacts.
Import RegExp Shape Example Reading RegExpFacts Lexer LexerFacts.

(** *** Texts *)

Lemma strip_prefix_app t : forall s r, strip_prefix t s = Some r -> s = t ++ r.
Proof.
  induction t as [|c t IH]; intros s r H; simpl in H.
  - inversion H. reflexivity.
  - destruct s as [|d s]; [discriminate|].
    destruct (Ascii.eqb c d) eqn:E; [|discriminate].
    apply Ascii.eqb_eq in E. subst d. simpl. f_equal. apply IH. exact H.
Qed.

Lemma strip_prefix_append t r : strip_prefix t (t ++ r) = Some r.
Proof.
  induction t as [|c t IH]; simpl; [reflexivity|].
  rewrite Ascii.eqb_refl. exact IH.
Qed.

Lemma take_while_prefix p s : exists rest, s = take_while p s ++ rest.
Proof.
  induction s as [|c tl [r Hr]]; [exists ""; reflexivity|].
  simpl. destruct (p c).
  - exists r. simpl. f_equal. exact Hr.
  - exists (String c tl). reflexivity.
Qed.

Lemma line_end_prefix s : forall body,
  line_end s = Some body -> exists rest, s = body ++ rest.
Proof.
  induction s as [|c tl IH]; intros body H; simpl in H.
  - inversion H. exists "". reflexivity.
  - destruct (Ascii.eqb c LF) eqn:El.
    + apply Ascii.eqb_eq in El. subst c. inversion H. exists tl. reflexivity.
    + destruct (Ascii.eqb c CR); [discriminate|].
      destruct (line_end tl) as [b|]; [|discriminate]. inversion H.
      destruct (IH b eq_refl) as [r Hr]. exists r. simpl. f_equal. exact Hr.
Qed.

Lemma take_all s : take (String.length s) s = s.
Proof. induction s; simpl; congruence. Qed.

(** *** Literal text in a pattern *)

Lemma seq_of_text_terms t : forall acc,
  seq_of (text_terms t acc)
  = match t with
    | "" => seq_of acc
    | String _ _ => seq_onto acc (text t)
    end.
Proof.
  induction t as [|c t IH]; intros acc; [reflexivity|].
  cbn [text_terms]. rewrite IH. destruct t; reflexivity.
Qed.

Lemma push_text_frame t : forall stack kind alts terms groups mode,
  push_text (mkP stack (mkFrame kind alts terms) groups mode) t
  = mkP stack (mkFrame kind alts (text_terms t terms)) groups mode.
Proof.
  induction t as [|c t IH]; intros; [reflexivity|].
  cbn [push_text text_terms]. unfold push_term. cbn [p_stack p_cur p_groups p_mode
    f_kind f_alts f_seq]. apply IH.
Qed.

(** An alternation of literal texts read into an empty frame closes to the
    ordered choice of the texts. *)
Lemma push_alternatives_frame ts : forall stack kind alts groups,
  exists alts' terms,
    push_alternatives (mkP stack (mkFrame kind alts []) groups Normal) ts
    = mkP stack (mkFrame kind alts' terms) groups Normal
    /\ alts_of alts' (seq_of terms) = alts_of alts (any_of (map text ts)).
Proof.
  induction ts as [|t ts IH]; intros stack kind alts groups.
  - exists alts, []. split; reflexivity.
  - destruct ts as [|t' ts'].
    + cbn [push_alternatives map any_of]. rewrite push_text_frame.
      exists alts, (text_terms t []). split; [reflexivity|].
      rewrite seq_of_text_terms. destruct t; reflexivity.
    + cbn [push_alternatives]. rewrite push_text_frame.
      unfold next_alt. cbn [p_stack p_cur p_groups p_mode f_kind f_alts f_seq].
      destruct (IH stack kind (seq_of (text_terms t []) :: alts) groups)
        as [alts' [terms [Hp Ha]]].
      exists alts', terms. split; [exact Hp|]. rewrite Ha.
      rewrite seq_of_text_terms.
      change (map text (t :: t' :: ts')) with (text t :: map text (t' :: ts')).
      cbn [map any_of alts_of fold_left]. destruct t; reflexivity.
Qed.

Lemma parse_alternatives ts : forall rest st,
  p_mode st = Normal ->
  parse (join "|" (map escapeRegExp ts) ++ rest) st
  = parse rest (push_alternatives st ts).
Proof.
  induction ts as [|t ts IH]; intros rest st Hm; [reflexivity|].
  destruct ts as [|t' ts'].
  - cbn [map join push_alternatives]. apply parse_escapeRegExp. exact Hm.
  - change (join "|" (map escapeRegExp (t :: t' :: ts')))
      with (escapeRegExp t ++ "|" ++ join "|" (map escapeRegExp (t' :: ts'))).
    rewrite !append_assoc. rewrite (parse_escapeRegExp t _ st Hm).
    destruct (push_text_shape t st) as [H1 H2]. rewrite Hm in H2.
    cbn [push_alternatives].
    remember (push_text st t) as st1 eqn:E1.
    destruct st1 as [stack cur groups mode]. cbn [p_mode] in H2. subst mode.
    change (parse ("|" ++ join "|" (map escapeRegExp (t' :: ts')) ++ rest)
                  (mkP stack cur groups Normal))
      with (parse (join "|" (map escapeRegExp (t' :: ts')) ++ rest)
                  (next_alt (mkP stack cur groups Normal))).
    apply IH. reflexivity.
Qed.

Lemma parse_close rest parent stack cur groups :
  parse (String ")" rest) (mkP (parent :: stack) cur groups Normal)
  = parse rest
      (push_term (mkP stack parent groups Normal)
         (match f_kind cur with
          | Some n => Group n (close_frame cur)
          | None => close_frame cur
          end) true).
Proof. reflexivity. Qed.

(** The templates [^((?:types)tail]: the escaped prefixes are read as an
    ordered choice of literal texts, and the parser goes on with [tail]
    inside group 1. *)
Lemma parse_types_template types tail :
  parse ("^((?:" ++ join "|" (map escapeRegExp types) ++ ")" ++ tail)
        (mkP [] (mkFrame None [] []) 0 Normal)
  = parse tail
      (mkP [mkFrame None [] [(Bol, false)]]
           (mkFrame (Some 1) [] [(any_of (map text types), true)]) 1 Normal).
Proof.
  set (body := join "|" (map escapeRegExp types) ++ ")" ++ tail).
  cbn [append parse p_mode open_group push_term p_stack p_cur p_groups f_kind
       f_alts f_seq].
  subst body. rewrite parse_alternatives by reflexivity.
  cbv [open_group push_term p_stack p_cur p_groups p_mode f_kind f_alts f_seq].
  match goal with
  | |- context [push_alternatives (mkP ?s (mkFrame ?k ?a []) ?g Normal) types] =>
      destruct (push_alternatives_frame types s k a g) as [alts' [terms [Hp Ha]]]
  end.
  rewrite Hp. cbn [append]. rewrite parse_close.
  unfold close_frame. cbn [f_kind f_alts f_seq]. rewrite Ha. reflexivity.
Qed.

Lemma createLineCommentRegex_compiled types :
  createLineCommentRegex (Some types) = Ok (line_comment_re types).
Proof.
  unfold createLineCommentRegex. cbn [defined JS.bind].
  unfold RegExp.new. cbn [parse_flags JS.bind fst snd].
  change (").*?(?:" ++ newline ++ "|$))") with (")" ++ ".*?(?:" ++ newline ++ "|$))").
  rewrite parse_types_template. unfold line_comment_re.
  generalize (any_of (map text types)). intros r. reflexivity.
Qed.

Lemma createPlaceholderRegex_indexed t types :
  createPlaceholderRegex (Some (t :: types)) (Some "[0-9]*")
  = Ok (Some (indexed_placeholder_re (t :: types))).
Proof.
  unfold createPlaceholderRegex. cbn [isEmpty defined JS.bind interpolate].
  unfold RegExp.new. cbn [parse_flags JS.bind fst snd].
  change (")(?:" ++ "[0-9]*" ++ "))") with (")" ++ "(?:[0-9]*))").
  rewrite parse_types_template. unfold indexed_placeholder_re.
  generalize (any_of (map text (t :: types))). intros r. reflexivity.
Qed.

(** *** Runs of the matcher on literal texts and on runs of a class *)

Lemma m_text t : forall st k,
  m false (text t) st k
  = match strip_prefix t (m_rest st) with
    | Some r => k (after st t r)
    | None => None
    end.
Proof.
  induction t as [|c t IH]; intros [prev rest idx cap] k; [reflexivity|].
  destruct t as [|c' t'].
  - destruct rest as [|d rest]; [reflexivity|].
    cbn [text m step1 m_rest strip_prefix]. unfold chr_eq.
    destruct (Ascii.eqb c d) eqn:E; [|reflexivity].
    apply Ascii.eqb_eq in E. subst d. reflexivity.
  - change (text (String c (String c' t'))) with (Cat (Chr c) (text (String c' t'))).
    rewrite m_Cat. destruct rest as [|d rest]; [reflexivity|].
    cbn [m step1 m_rest]. unfold chr_eq.
    change (strip_prefix (String c (String c' t')) (String d rest))
      with (if Ascii.eqb c d then strip_prefix (String c' t') rest else None).
    destruct (Ascii.eqb c d) eqn:E; [|reflexivity].
    apply Ascii.eqb_eq in E. subst d. rewrite IH. cbn [m_rest m_idx m_cap].
    destruct (strip_prefix (String c' t') rest) as [r|]; [|reflexivity].
    unfold after. cbn [m_prev m_idx m_cap last_of String.length].
    rewrite Nat.add_succ_r. reflexivity.
Qed.

Lemma m_any_of_text ts : forall t st k,
  m false (any_of (map text (t :: ts))) st k
  = first_success (t :: ts) (fun t => m false (text t) st k).
Proof.
  induction ts as [|t' ts IH]; intros t st k.
  - cbn [map any_of first_success]. destruct (m false (text t) st k); reflexivity.
  - change (any_of (map text (t :: t' :: ts)))
      with (Alt (text t) (any_of (map text (t' :: ts)))).
    cbn [m]. rewrite IH. reflexivity.
Qed.

(** A choice whose last alternative is not a text. *)
Lemma m_any_of_text_or ts x : forall st k,
  m false (any_of (map text ts ++ [x])%list) st k
  = match first_success ts (fun t => m false (text t) st k) with
    | Some res => Some res
    | None => m false x st k
    end.
Proof.
  induction ts as [|t ts IH]; intros st k; [reflexivity|].
  change (any_of (map text (t :: ts) ++ [x])%list)
    with (any_of (text t :: (map text ts ++ [x]))%list).
  assert (Hne : exists r rs, (map text ts ++ [x])%list = r :: rs).
  { destruct ts; simpl; eauto. }
  destruct Hne as [r [rs Hne]].
  cbn [any_of]. rewrite Hne. rewrite <- Hne. cbn [m first_success].
  rewrite IH. destruct (m false (text t) st k); reflexivity.
Qed.

Lemma first_success_run {A B} (R : A -> B -> Prop) (F : string -> option A)
    (G : string -> option B) :
  (forall t, match G t with
             | Some v => exists a, F t = Some a /\ R a v
             | None => F t = None
             end) ->
  forall ts,
    match first_success ts G with
    | Some v => exists a, first_success ts F = Some a /\ R a v
    | None => first_success ts F = None
    end.
Proof.
  intros H. induction ts as [|t ts IH]; [reflexivity|].
  cbn [first_success]. specialize (H t). destruct (G t) as [v|].
  - destruct H as [a [Ha Hr]]. rewrite Ha. eauto.
  - rewrite H. exact IH.
Qed.

(** A greedy repetition of a character class stops after the longest run
    of class members, when what follows the repetition succeeds there. *)
Lemma greedy_class_run ci neg cs p k res :
  (forall c, xorb neg (class_mem ci cs c) = p c) ->
  forall rest prev idx cap fuel,
    String.length rest <= fuel ->
    k (after (mkM prev rest idx cap) (take_while p rest)
             (drop (String.length (take_while p rest)) rest)) = Some res ->
    repeat (fun s k' => m ci (Class neg cs) (reset (Class neg cs) s) k') true k
           fuel (mkM prev rest idx cap) = Some res.
Proof.
  intros Hp.
  induction rest as [|c tl IH]; intros prev idx cap fuel Hlen Hk.
  - destruct fuel; cbn [repeat]; [exact Hk|].
    assert (Hstep : forall k0,
      m ci (Class neg cs) (reset (Class neg cs) (mkM prev "" idx cap)) k0 = None)
      by reflexivity.
    rewrite Hstep. exact Hk.
  - destruct fuel as [|fuel]; [simpl in Hlen; lia|].
    cbn [repeat].
    assert (Hstep : forall k0,
      m ci (Class neg cs) (reset (Class neg cs) (mkM prev (String c tl) idx cap)) k0
      = if p c then k0 (mkM (Some c) tl (S idx) cap) else None).
    { intros k0. cbn [reset captures1 m step1 m_rest m_idx m_cap]. rewrite Hp.
      reflexivity. }
    rewrite Hstep. cbn [take_while] in Hk. destruct (p c).
    + cbn [m_idx].
      replace (S idx =? idx)%nat with false by (symmetry; apply Nat.eqb_neq; lia).
      rewrite (IH (Some c) (S idx) cap fuel); [reflexivity | simpl in Hlen; lia |].
      unfold after in *. cbn [m_prev m_idx m_cap last_of String.length drop] in *.
      rewrite Nat.add_succ_r. exact Hk.
    + exact Hk.
Qed.

Lemma take_of_append a b n :
  n = String.length a -> take (n - 0) (drop 0 (a ++ b)) = a.
Proof. intros ->. rewrite Nat.sub_0_r. apply take_append. Qed.

Lemma m_Star ci g a st k :
  m ci (Star g a) st k
  = repeat (fun s k' => m ci a (reset a s) k') g k (String.length (m_rest st)) st.
Proof. reflexivity. Qed.

Lemma m_Plus ci g a st k :
  m ci (Plus g a) st k
  = m ci a (reset a st) (fun st' =>
      repeat (fun s k' => m ci a (reset a s) k') g k
             (String.length (m_rest st')) st').
Proof. reflexivity. Qed.

(** *** Classifiers whose pattern is a choice of literal prefixes and a tail *)

Lemma getTokenOnFirstMatch_choice input ty t0 ts tail (G : string -> option string) :
  (forall t,
     match G t with
     | Some v =>
         exists st,
           m false (text t) (mkM None input 0 None)
             (fun st' => m false tail st' capture_all) = Some st
           /\ group1 (result_of input 0 st) = Some v
     | None =>
         m false (text t) (mkM None input 0 None)
           (fun st' => m false tail st' capture_all) = None
     end) ->
  getTokenOnFirstMatch input ty
    (Some (mk (Cat Bol (Group 1 (Cat (any_of (map text (t0 :: ts))) tail)))
              false false))
  = match first_success (t0 :: ts) G with
    | Some v => Some (found ty v)
    | None => None
    end.
Proof.
  intros H. unfold getTokenOnFirstMatch.
  pose proof (first_success_run
                (fun st v => group1 (result_of input 0 st) = Some v) _ G H (t0 :: ts))
    as Hr.
  destruct (first_success (t0 :: ts) G) as [v|].
  - destruct Hr as [st [Hst Hv]].
    rewrite (exec_found _ input st).
    + rewrite Hv. reflexivity.
    + cbn [ignoreCase source]. rewrite m_Cat, m_Bol, m_Group, m_Cat, m_any_of_text.
      exact Hst.
  - match goal with |- context [exec ?re ?i] => rewrite (LexerClaims.exec_none_at_anchor re i _ eq_refl) end; [reflexivity|].
    cbn [ignoreCase]. rewrite m_Group, m_Cat, m_any_of_text. exact Hr.
Qed.

(** *** Line comments *)

Lemma line_close_at prev rest idx cap :
  m false (Alt (Chr LF) Eol) (mkM prev rest idx cap) capture_all
  = match rest with
    | "" => Some (mkM prev "" idx (Some (0, idx)))
    | String c tl =>
        if Ascii.eqb c LF then Some (mkM (Some c) tl (S idx) (Some (0, S idx)))
        else None
    end.
Proof.
  unfold capture_all. destruct rest as [|c tl]; [reflexivity|].
  cbn [m step1 m_rest m_idx m_cap]. unfold chr_eq. rewrite (Ascii.eqb_sym c LF).
  destruct (Ascii.eqb LF c); reflexivity.
Qed.

(** The lazy [.*?] stops at the first line feed or at the end of the input,
    and cannot pass a carriage return. *)
Lemma lazy_scan_to_line_end :
  forall rest prev idx cap fuel,
    String.length rest <= fuel ->
    match line_end rest with
    | Some body =>
        exists st,
          repeat (fun s k' => m false Dot (reset Dot s) k') false
                 (fun st' => m false (Alt (Chr LF) Eol) st' capture_all)
                 fuel (mkM prev rest idx cap) = Some st
          /\ m_cap st = Some (0, idx + String.length body)
    | None =>
        repeat (fun s k' => m false Dot (reset Dot s) k') false
               (fun st' => m false (Alt (Chr LF) Eol) st' capture_all)
               fuel (mkM prev rest idx cap) = None
    end.
Proof.
  induction rest as [|c tl IH]; intros prev idx cap fuel Hlen.
  - destruct fuel; cbn [repeat line_end]; rewrite line_close_at;
      eexists; (split; [reflexivity|]); simpl; f_equal; f_equal; lia.
  - destruct fuel as [|fuel]; [simpl in Hlen; lia|].
    cbn [repeat line_end]. rewrite line_close_at.
    assert (Hstep : forall k,
      m false Dot (reset Dot (mkM prev (String c tl) idx cap)) k
      = if negb (is_line_terminator c) then k (mkM (Some c) tl (S idx) cap) else None)
      by reflexivity.
    rewrite Hstep. unfold is_line_terminator.
    destruct (Ascii.eqb c LF) eqn:El.
    + eexists. split; [reflexivity|]. simpl. f_equal. f_equal. lia.
    + cbn [orb]. destruct (Ascii.eqb c CR); cbn [negb]; [reflexivity|].
      cbn [m_idx].
      replace (S idx =? idx)%nat with false by (symmetry; apply Nat.eqb_neq; lia).
      specialize (IH (Some c) (S idx) cap fuel ltac:(simpl in Hlen; lia)).
      destruct (line_end tl) as [body|]; [|exact IH].
      destruct IH as [st [Hst Hcap]]. exists st. split; [exact Hst|].
      rewrite Hcap. simpl. f_equal. f_equal. lia.
Qed.

Lemma any_of_text_default types :
  any_of (map text types)
  = any_of (map text (match types with [] => [""] | _ :: _ => types end)).
Proof. destruct types; reflexivity. Qed.

(** What the line-comment pattern reads. *)
Lemma line_comment_reads types input :
  getTokenOnFirstMatch input LINE_COMMENT (Some (line_comment_re types))
  = match read_line_comment types input with
    | Some v => Some (found LINE_COMMENT v)
    | None => None
    end.
Proof.
  unfold line_comment_re, read_line_comment. rewrite any_of_text_default.
  assert (Hne : exists t0 ts,
            match types with [] => [""] | _ :: _ => types end = t0 :: ts).
  { destruct types; eauto. }
  destruct Hne as [t0 [ts ->]].
  apply getTokenOnFirstMatch_choice. intros t. rewrite m_text. cbn [m_rest].
  destruct (strip_prefix t input) as [r|] eqn:Es; [|reflexivity].
  rewrite m_Cat, m_Star. unfold after. cbn [m_prev m_rest m_idx m_cap].
  pose proof (lazy_scan_to_line_end r (last_of None t) (String.length t + 0) None
                (String.length r) (le_n _)) as Hs.
  destruct (line_end r) as [body|] eqn:El; [|exact Hs].
  destruct Hs as [st [Hst Hcap]]. exists st. split; [exact Hst|].
  unfold result_of. cbn [group1]. rewrite Hcap. f_equal.
  apply strip_prefix_app in Es. destruct (line_end_prefix _ _ El) as [rest Hr].
  subst input. rewrite Hr at 1. rewrite <- append_assoc.
  apply take_of_append. rewrite length_append. lia.
Qed.

(** *** White space *)

Lemma space_class c :
  xorb false (class_mem false [CsSpace false] c) = is_space c.
Proof. cbn [class_mem existsb cset_mem xorb]. destruct (is_space c); reflexivity. Qed.

Lemma whitespace_reads input :
  getTokenOnFirstMatch input WHITESPACE (Some whitespace_re)
  = match read_whitespace input with
    | Some v => Some (found WHITESPACE v)
    | None => None
    end.
Proof.
  unfold getTokenOnFirstMatch, read_whitespace.
  destruct input as [|c tl]; [reflexivity|]. cbn [take_while].
  destruct (is_space c) eqn:Ec.
  - set (run := take_while is_space tl).
    destruct (take_while_prefix is_space tl) as [rest Hr]. fold run in Hr.
    rewrite (exec_found whitespace_re _
               (set_cap (after (mkM (Some c) tl 1 None) run
                               (drop (String.length run) tl))
                        0 (String.length run + 1))).
    + unfold result_of. cbn [group1 set_cap m_cap]. unfold found. do 3 f_equal.
      clearbody run. subst tl.
      change (String c (run ++ rest)) with (String c run ++ rest).
      apply take_of_append. simpl. lia.
    + cbn [whitespace_re ignoreCase source]. rewrite m_Cat, m_Bol, m_Group, m_Plus.
      assert (Hstep : forall k,
        m false (Class false [CsSpace false])
          (reset (Class false [CsSpace false]) (mkM None (String c tl) 0 None)) k
        = k (mkM (Some c) tl 1 None)).
      { intros k. cbn [reset captures1 m step1 m_rest m_idx m_cap].
        rewrite space_class, Ec. reflexivity. }
      rewrite Hstep. cbn [m_rest].
      apply (greedy_class_run false false [CsSpace false] is_space);
        [exact space_class | apply le_n | reflexivity].
  - rewrite (LexerClaims.exec_none_at_anchor whitespace_re _ _ eq_refl); [reflexivity|].
    cbn [whitespace_re ignoreCase]. rewrite m_Group, m_Plus.
    cbn [reset captures1 m step1 m_rest]. rewrite space_class, Ec. reflexivity.
Qed.

(** *** Indexed placeholders *)

Lemma digit_class c :
  xorb false (class_mem false [CsRange "0" "9"] c) = is_digit c.
Proof.
  cbn [class_mem existsb cset_mem xorb]. unfold is_digit.
  change (code "0"%char) with 48%N. change (code "9"%char) with 57%N.
  destruct (between 48 57 c); reflexivity.
Qed.

Lemma indexed_placeholder_reads t0 ts input :
  getTokenOnFirstMatch input PLACEHOLDER (Some (indexed_placeholder_re (t0 :: ts)))
  = match read_indexed_placeholder (t0 :: ts) input with
    | Some v => Some (found PLACEHOLDER v)
    | None => None
    end.
Proof.
  unfold indexed_placeholder_re, read_indexed_placeholder.
  apply getTokenOnFirstMatch_choice. intros t. rewrite m_text. cbn [m_rest].
  destruct (strip_prefix t input) as [r|] eqn:Es; [|reflexivity].
  rewrite m_Star. unfold after at 1 2. cbn [m_prev m_rest m_idx m_cap].
  destruct (take_while_prefix is_digit r) as [rest Hr].
  eexists. split.
  - apply (greedy_class_run false false [CsRange "0" "9"] is_digit);
      [exact digit_class | apply le_n | reflexivity].
  - unfold result_of, capture_all, after. cbn [group1 set_cap m_cap m_idx]. f_equal.
    apply strip_prefix_app in Es. subst input.
    set (run := take_while is_digit r) in *. clearbody run. subst r.
    rewrite <- append_assoc. apply take_of_append. rewrite length_append. lia.
Qed.

Lemma slice_from_1 v : slice v 1 None = drop 1 v.
Proof.
  unfold slice. destruct v as [|c s]; [reflexivity|].
  cbn [Z.ltb Z.compare]. cbn [String.length].
  replace (Z.min 1 (Z.of_nat (S (String.length s)))) with 1%Z by lia.
  replace (Z.to_nat (Z.max (Z.of_nat (S (String.length s)) - 1) 0))
    with (String.length s) by lia.
  cbn [Z.to_nat Pos.to_nat Pos.iter_op Nat.add drop]. apply take_all.
Qed.

(** *** Operators *)

Lemma operator_re_choice :
  operator_re = mk (Cat Bol (Group 1 (any_of (map text operators ++ [Dot])%list)))
                   false false.
Proof. reflexivity. Qed.

Lemma operator_reads input :
  getTokenOnFirstMatch input OPERATOR (Some operator_re)
  = match read_operator input with
    | Some v => Some (found OPERATOR v)
    | None => None
    end.
Proof.
  unfold getTokenOnFirstMatch, read_operator. rewrite operator_re_choice.
  pose proof (first_success_run
                (fun st v => group1 (result_of input 0 st) = Some v)
                (fun t => m false (text t) (mkM None input 0 None) capture_all)
                (fun t => match strip_prefix t input with
                          | Some _ => Some t
                          | None => None
                          end)) as Hr.
  specialize (Hr ltac:(
    intros t; cbv beta; rewrite m_text; cbn [m_rest];
    destruct (strip_prefix t input) as [r|] eqn:Es; [|reflexivity];
    eexists; split; [reflexivity|];
    unfold result_of, capture_all, after; cbn [group1 set_cap m_cap m_idx]; f_equal;
    apply strip_prefix_app in Es; subst input; apply take_of_append; lia) operators).
  assert (Hm : forall k,
    m false (Cat Bol (Group 1 (any_of (map text operators ++ [Dot])%list)))
      (mkM None input 0 None) k
    = m false (any_of (map text operators ++ [Dot])%list) (mkM None input 0 None)
        (fun st' => k (set_cap st' 0 (m_idx st')))) by reflexivity.
  assert (Hg : m false (Group 1 (any_of (map text operators ++ [Dot])%list))
                 (mkM None input 0 None) Some
               = m false (any_of (map text operators ++ [Dot])%list)
                   (mkM None input 0 None) capture_all) by reflexivity.
  destruct (first_success operators _) as [v|].
  - destruct Hr as [st [Hst Hv]]. rewrite (exec_found _ input st).
    + rewrite Hv. reflexivity.
    + cbn [ignoreCase source]. rewrite Hm. fold capture_all.
      rewrite m_any_of_text_or, Hst. reflexivity.
  - destruct input as [|c tl].
    + match goal with |- context [exec ?re ?i] => rewrite (LexerClaims.exec_none_at_anchor re i _ eq_refl) end; [reflexivity|].
      cbn [ignoreCase]. rewrite Hg, m_any_of_text_or, Hr. reflexivity.
    + destruct (is_line_terminator c) eqn:El.
      * match goal with |- context [exec ?re ?i] => rewrite (LexerClaims.exec_none_at_anchor re i _ eq_refl) end; [reflexivity|].
        cbn [ignoreCase]. rewrite Hg, m_any_of_text_or, Hr.
        cbn [m step1 m_rest]. rewrite El. reflexivity.
      * rewrite (exec_found _ _ (mkM (Some c) tl 1 (Some (0, 1)))); [reflexivity|].
        cbn [ignoreCase source]. rewrite Hm. fold capture_all.
        rewrite m_any_of_text_or, Hr. cbn [m step1 m_rest]. rewrite El. reflexivity.
Qed.

(** *** Numbers *)

Lemma digit_is_word c : is_digit c = true -> is_word c = true.
Proof.
  intros H. unfold is_word. rewrite H.
  destruct (between 97 122 c), (between 65 90 c); reflexivity.
Qed.

Lemma take_while_all p s rest :
  all_of p s = true ->
  match rest with String c _ => p c = false | "" => True end ->
  take_while p (s ++ rest) = s.
Proof.
  unfold all_of. induction s as [|c s IH]; cbn [list_ascii_of_string forallb append];
    intros Hs Hr.
  - destruct rest as [|c tl]; [reflexivity|]. cbn [take_while]. rewrite Hr. reflexivity.
  - apply andb_true_iff in Hs. destruct Hs as [Hc Hs]. cbn [take_while].
    rewrite Hc. f_equal. apply IH; assumption.
Qed.

Lemma last_of_all p s : forall c,
  p c = true -> all_of p s = true ->
  exists x, last_of (Some c) s = Some x /\ p x = true.
Proof.
  unfold all_of. induction s as [|d s IH]; intros c Hc Hs.
  - exists c. auto.
  - cbn [list_ascii_of_string forallb] in Hs. apply andb_true_iff in Hs.
    destruct Hs as [Hd Hs]. cbn [last_of]. apply IH; assumption.
Qed.

(** After the digits of an integer the optional fraction is skipped and the
    word boundary holds. *)
Lemma number_tail_at x rest idx :
  is_word x = true ->
  ends_number rest = true ->
  m false (Opt true (Group 2 (Cat (Chr ".") (Plus true (Class false [CsRange "0" "9"])))))
    (mkM (Some x) rest idx None)
    (fun st' => m false (WordB false) (set_cap st' 0 (m_idx st')) Some)
  = Some (mkM (Some x) rest idx (Some (0, idx))).
Proof.
  intros Hx Hr. destruct rest as [|c tl].
  - cbn [m reset captures1 Nat.eqb orb step1 m_rest m_idx m_cap m_prev set_cap
         at_boundary word_before word_after xorb].
    unfold at_boundary, word_before, word_after, set_cap. cbn [m_prev m_rest].
    rewrite Hx. reflexivity.
  - cbn [ends_number] in Hr. apply andb_true_iff in Hr. destruct Hr as [Hw Hd].
    apply negb_true_iff in Hw, Hd.
    cbn [m reset captures1 Nat.eqb orb step1 m_rest m_idx m_cap m_prev set_cap
         at_boundary word_before word_after xorb].
    unfold chr_eq. rewrite (Ascii.eqb_sym "." c), Hd.
    unfold at_boundary, word_before, word_after, set_cap. cbn [m_prev m_rest].
    rewrite Hx, Hw. reflexivity.
Qed.

Lemma number_reads_integer digits rest :
  digits <> "" ->
  all_of is_digit digits = true ->
  ends_number rest = true ->
  getTokenOnFirstMatch (digits ++ rest) NUMBER (Some number_re)
  = Some (found NUMBER digits).
Proof.
  intros Hne Hd Hr. destruct digits as [|d0 dtl]; [congruence|].
  unfold all_of in Hd. cbn [list_ascii_of_string forallb] in Hd.
  apply andb_true_iff in Hd. destruct Hd as [Hd0 Hdtl]. fold (all_of is_digit dtl) in Hdtl.
  assert (Hrest : match rest with String c _ => is_digit c = false | "" => True end).
  { destruct rest as [|c tl]; [exact I|]. cbn [ends_number] in Hr.
    apply andb_true_iff in Hr. destruct Hr as [Hw _]. apply negb_true_iff in Hw.
    destruct (is_digit c) eqn:E; [|reflexivity].
    apply digit_is_word in E. congruence. }
  destruct (last_of_all is_digit dtl d0 Hd0 Hdtl) as [x [Hx Hxd]].
  unfold getTokenOnFirstMatch.
  rewrite (exec_found number_re _
             (mkM (Some x) rest (String.length dtl + 1)
                  (Some (0, String.length dtl + 1)))).
  - unfold result_of, found. cbn [group1 m_cap]. do 3 f_equal.
    change (String d0 dtl ++ rest) with (String d0 dtl ++ rest).
    apply take_of_append. simpl. lia.
  - cbn [number_re ignoreCase source]. rewrite m_Cat, m_Bol, m_Cat, m_Group.
    cbn [Nat.eqb m_idx].
    match goal with
    | |- m false (Alt ?a ?b) ?st ?k = Some ?res =>
        assert (Ha : m false a st k = Some res);
        [|cbn [m] in Ha |- *; rewrite Ha; reflexivity]
    end.
    rewrite m_Cat, m_Plus.
    assert (Hstep : forall k,
      m false (Class false [CsRange "0" "9"])
        (reset (Class false [CsRange "0" "9"])
               (mkM None (String d0 dtl ++ rest) 0 None)) k
      = k (mkM (Some d0) (dtl ++ rest) 1 None)).
    { intros k. cbn [append reset captures1 m step1 m_rest m_idx m_cap].
      rewrite digit_class, Hd0. reflexivity. }
    rewrite Hstep. cbn [m_rest].
    apply (greedy_class_run false false [CsRange "0" "9"] is_digit);
      [exact digit_class | apply le_n |].
    rewrite (take_while_all is_digit dtl rest Hdtl Hrest), drop_append.
    unfold after. cbn [m_prev m_idx m_cap]. rewrite Hx.
    apply number_tail_at; [apply digit_is_word; exact Hxd | exact Hr].
Qed.

Lemma number_needs_digit input :
  take_while is_digit input = "" ->
  getTokenOnFirstMatch input NUMBER (Some number_re) = None.
Proof.
  intros H. unfold getTokenOnFirstMatch.
  rewrite (LexerClaims.exec_none_at_anchor number_re input _ eq_refl); [reflexivity|].
  destruct input as [|c tl]; [reflexivity|].
  cbn [take_while] in H. destruct (is_digit c) eqn:Ec; [discriminate|].
  assert (H0 : Ascii.eqb "0" c = false).
  { destruct (Ascii.eqb "0" c) eqn:E; [|reflexivity].
    apply Ascii.eqb_eq in E. subst c. discriminate. }
  cbn [number_re ignoreCase]. rewrite m_Cat, m_Group.
  cbn [m reset captures1 step1 m_rest]. unfold chr_eq.
  rewrite digit_class, Ec, H0. reflexivity.
Qed.

(** *** Quoted placeholder names *)

Lemma new_escaped q :
  is_regexp_char q = false \/ q = "]"%char ->
  RegExp.new (escapeRegExp "\" ++ String q "") "g"
  = Ok (mk (Cat (Chr "\") (Chr q)) false true).
Proof.
  intros [H| ->]; [|reflexivity].
  unfold RegExp.new. cbn [parse_flags JS.bind fst snd escapeRegExp is_regexp_char
    existsb Ascii.eqb Bool.eqb orb append].
  change (parse (String "\" (String "\" (String q ""))) (mkP [] (mkFrame None [] []) 0 Normal))
    with (parse (String q "")
            (push_term (mkP [] (mkFrame None [] []) 0 Normal) (Chr "\") true)).
  unfold push_term at 1. cbn [p_stack p_cur p_groups p_mode f_kind f_alts f_seq].
  rewrite (parse_plain_char _ _ _ _ _ H). reflexivity.
Qed.

Lemma escaped_at q prev c tl idx :
  m false (Cat (Chr "\") (Chr q)) (mkM prev (String c tl) idx None) Some
  = if Ascii.eqb c "\"
    then match tl with
         | String d rest =>
             if Ascii.eqb d q then Some (mkM (Some d) rest (S (S idx)) None)
             else None
         | "" => None
         end
    else None.
Proof.
  cbn [m step1 m_rest m_idx m_cap]. unfold chr_eq.
  rewrite (Ascii.eqb_sym c "\"). destruct (Ascii.eqb "\" c); [|reflexivity].
  destruct tl as [|d rest]; [reflexivity|]. cbn [step1 m_rest m_idx m_cap].
  rewrite (Ascii.eqb_sym d q). reflexivity.
Qed.

Lemma replace_from_unescape_quote q :
  forall n key prev idx,
    String.length key <= n ->
    replace_from (mk (Cat (Chr "\") (Chr q)) false true) (String q "") 0 prev key idx
    = unescape_quote q key.
Proof.
  induction n as [|n IH]; intros key prev idx Hlen.
  - destruct key; [reflexivity | simpl in Hlen; lia].
  - destruct key as [|c tl]; [reflexivity|].
    rewrite LexerClaims.replace_from_here. cbn [ignoreCase source].
    rewrite escaped_at. simpl in Hlen.
    destruct tl as [|d rest].
    + destruct (Ascii.eqb c "\"); reflexivity.
    + cbn [unescape_quote]. simpl in Hlen.
      destruct (Ascii.eqb c "\"); cbn [andb].
      * destruct (Ascii.eqb d q).
        -- cbn [m_idx].
           replace (S (S idx) =? idx)%nat with false
             by (symmetry; apply Nat.eqb_neq; lia).
           replace (S (S idx) - idx - 1) with 1 by lia.
           rewrite LexerClaims.replace_from_skip. cbn [append]. f_equal. apply IH. lia.
        -- f_equal. apply IH. simpl. lia.
      * f_equal. apply IH. simpl. lia.
Qed.

(** *** The tokens [getNextToken] returns *)

Lemma getTokenOnFirstMatch_key input ty regex t :
  getTokenOnFirstMatch input ty regex = Some t -> key t = None /\ type t = ty.
Proof.
  unfold getTokenOnFirstMatch. destruct regex as [re|]; [|discriminate].
  destruct (exec re input); [|discriminate]. intros H. inversion H. auto.
Qed.

Lemma getPlaceholderTokenWithKey_key input regex parseKey t :
  getPlaceholderTokenWithKey input regex parseKey = Ok (Some t) ->
  key t <> None /\ type t = PLACEHOLDER.
Proof.
  unfold getPlaceholderTokenWithKey.
  destruct (getTokenOnFirstMatch input PLACEHOLDER regex) as [t0|] eqn:E;
    [|discriminate].
  apply getTokenOnFirstMatch_key in E. destruct E as [_ E]. intros H.
  apply bind_ok in H. destruct H as [v [_ H]].
  apply bind_ok in H. destruct H as [k [_ H]].
  inversion H. cbn [key type]. split; [discriminate | exact E].
Qed.

Lemma getNextToken_key this input prev t :
  getNextToken this input prev = Ok (Some t) ->
  (key t <> None <-> type t = PLACEHOLDER).
Proof.
  intros H. unfold getNextToken, getReservedWordToken in H.
  unfold getWhitespaceToken, getCommentToken, getLineCommentToken,
    getBlockCommentToken, getStringToken, getOpenParenToken, getCloseParenToken,
    getPlaceholderToken, getIdentNamedPlaceholderToken,
    getStringNamedPlaceholderToken, getIndexedPlaceholderToken, getNumberToken,
    getToplevelReservedToken, getNewlineReservedToken, getPlainReservedToken,
    getWordToken, getOperatorToken, or_else, or_else_r in H.
  repeat match type of H with
  | context [getTokenOnFirstMatch input ?ty ?re] =>
      let E := fresh "E" in
      destruct (getTokenOnFirstMatch input ty re) eqn:E;
      [ apply getTokenOnFirstMatch_key in E;
        let Ka := fresh "Ka" in let Kb := fresh "Kb" in
        destruct E as [Ka Kb];
        inversion H; subst; rewrite Ka, Kb; split; intros; congruence | ]
  | context [getPlaceholderTokenWithKey input ?re ?pk] =>
      let E := fresh "E" in
      destruct (getPlaceholderTokenWithKey input re pk) as [[?|]|] eqn:E;
      [ apply getPlaceholderTokenWithKey_key in E; inversion H; subst; tauto
      | | discriminate ]
  | context [preceded_by_dot prev] => destruct (preceded_by_dot prev)
  end.
  all: discriminate.
Qed.

(** *** The loop of [tokenize], token by token *)

Lemma tokenize_loop_each this (P : option IToken -> IToken -> Prop) :
  (forall input prev t v pos,
     getNextToken this input prev = Ok (Some t) ->
     value t = Some v ->
     P prev (mkToken (type t) (value t) (key t) (Some (pos, pos + String.length v)))) ->
  forall fuel input token lastPosition tokens out,
    tokenize_loop this fuel input token lastPosition tokens = Some (Ok out) ->
    exists new, out = (tokens ++ new)%list /\ each_after P token new.
Proof.
  intros HP.
  induction fuel as [|fuel IH]; intros input token lastPosition tokens out H;
    destruct input as [|c s]; simpl in H; try discriminate.
  - inversion H. exists []. rewrite app_nil_r. split; [reflexivity | exact I].
  - inversion H. exists []. rewrite app_nil_r. split; [reflexivity | exact I].
  - destruct (getNextToken this (String c s) token) as [[t|]|] eqn:E;
      try discriminate.
    destruct (value t) as [v|] eqn:Ev; [|discriminate].
    apply IH in H. destruct H as [new [Hout Hnew]].
    eexists (_ :: new). split.
    + rewrite Hout, <- app_assoc. reflexivity.
    + cbn [each_after]. split; [|exact Hnew].
      rewrite <- Ev. exact (HP _ _ _ _ _ E Ev).
Qed.

Lemma each_after_Forall (Q : IToken -> Prop) tokens : forall prev,
  each_after (fun _ t => Q t) prev tokens -> Forall Q tokens.
Proof.
  induction tokens as [|t rest IH]; intros prev H; [constructor|].
  destruct H as [H1 H2]. constructor; [exact H1 | exact (IH _ H2)].
Qed.

Lemma each_after_adjacent P tokens : forall prev l1 a b l2,
  each_after P prev tokens ->
  tokens = (l1 ++ a :: b :: l2)%list ->
  P (Some a) b.
Proof.
  induction tokens as [|t rest IH]; intros prev l1 a b l2 H Heq.
  - destruct l1; discriminate.
  - destruct H as [H1 H2]. destruct l1 as [|x l1]; cbn [app] in Heq.
    + inversion Heq; subst. destruct H2 as [H2 _]. exact H2.
    + inversion Heq; subst. exact (IH _ _ _ _ _ H2 eq_refl).
Qed.

Lemma take_while_whole p s : all_of p s = true -> take_while p s = s.
Proof.
  unfold all_of. induction s as [|c s IH]; [reflexivity|].
  cbn [list_ascii_of_string forallb take_while]. intros H.
  apply andb_true_iff in H. destruct H as [Hc Hs]. rewrite Hc. f_equal. exact (IH Hs).
Qed.

Lemma drop_all s : drop (String.length s) s = "".
Proof. induction s; simpl; congruence. Qed.

Lemma strip_prefix_terminated t : forall input r,
  all_of (fun c => negb (is_line_terminator c)) t = true ->
  strip_prefix t input = Some r ->
  line_end input = None -> line_end r = None.
Proof.
  unfold all_of. induction t as [|c t IH]; intros input r Ht Hs Hl.
  - inversion Hs. subst. exact Hl.
  - cbn [list_ascii_of_string forallb] in Ht. apply andb_true_iff in Ht.
    destruct Ht as [Hc Ht]. cbn [strip_prefix] in Hs.
    destruct input as [|d s]; [discriminate|].
    destruct (Ascii.eqb c d) eqn:E; [|discriminate].
    apply Ascii.eqb_eq in E. subst d. apply (IH s r Ht Hs).
    cbn [line_end] in Hl. apply negb_true_iff in Hc.
    unfold is_line_terminator in Hc. apply orb_false_iff in Hc.
    destruct Hc as [H1 H2]. rewrite H1, H2 in Hl.
    destruct (line_end s); [discriminate | reflexivity].
Qed.

Lemma first_success_none {A} (f : string -> option A) ts :
  (forall t, In t ts -> f t = None) -> first_success ts f = None.
Proof.
  induction ts as [|t ts IH]; intros H; [reflexivity|].
  cbn [first_success]. rewrite (H t (or_introl eq_refl)).
  apply IH. intros t' Ht. apply H. right. exact Ht.
Qed.

(** *** The patterns of a constructed tokenizer *)

Lemma new_line_comment cfg this types :
  Lexer.new cfg = Ok this ->
  lineCommentTypes cfg = Some types ->
  LINE_COMMENT_REGEX this = Some (line_comment_re types).
Proof.
  intros Hnew Hl. destruct (new_inv _ _ Hnew) as (_ & _ & _ & _ & (re & E & F) & _).
  rewrite Hl, createLineCommentRegex_compiled in E. injection E as <-. exact F.
Qed.

Lemma new_indexed_placeholder cfg this t0 ts :
  Lexer.new cfg = Ok this ->
  indexedPlaceholderTypes cfg = Some (t0 :: ts) ->
  INDEXED_PLACEHOLDER_REGEX this = Some (indexed_placeholder_re (t0 :: ts)).
Proof.
  intros Hnew Hi.
  destruct (new_inv _ _ Hnew) as
    (_ & _ & _ & _ & _ & _ & _ & _ & _ & _ & _ & _ & E & _).
  rewrite Hi, createPlaceholderRegex_indexed in E. injection E as <-. reflexivity.
Qed.

Lemma concat_length vs :
  Forall (fun v => v <> "") vs -> length vs <= String.length (JS.concat vs).
Proof.
  induction 1 as [|v vs Hv _ IH]; [apply le_n|].
  cbn [JS.concat fold_right length]. fold (JS.concat vs). rewrite length_append.
  destruct v; [congruence|]. simpl. lia.
Qed.

(** *** Facts about single characters *)

Lemma in_all_ascii c : In c all_ascii.
Proof.
  unfold all_ascii. rewrite <- (ascii_nat_embedding c). apply in_map.
  apply in_seq. pose proof (nat_ascii_bounded c). lia.
Qed.

Lemma for_all_ascii (P : ascii -> bool) :
  forallb P all_ascii = true -> forall c, P c = true.
Proof. intros H c. exact (proj1 (forallb_forall _ _) H c (in_all_ascii c)). Qed.

Lemma for_all_ascii2 (P : ascii -> ascii -> bool) :
  forallb (fun c => forallb (P c) all_ascii) all_ascii = true ->
  forall c d, P c d = true.
Proof.
  intros H c d. apply for_all_ascii.
  exact (for_all_ascii (fun c => forallb (P c) all_ascii) H c).
Qed.

Lemma word_plain c : is_word c = true -> is_regexp_char c = false.
Proof.
  intros H.
  pose proof (for_all_ascii (fun c => implb (is_word c) (negb (is_regexp_char c)))
                ltac:(vm_compute; reflexivity) c) as Hc.
  cbv beta in Hc. rewrite H in Hc. apply negb_true_iff. exact Hc.
Qed.

Lemma word_not_blank c : is_word c = true -> Ascii.eqb c " " = false.
Proof.
  intros H.
  pose proof (for_all_ascii (fun c => implb (is_word c) (negb (Ascii.eqb c " ")))
                ltac:(vm_compute; reflexivity) c) as Hc.
  cbv beta in Hc. rewrite H in Hc. apply negb_true_iff. exact Hc.
Qed.

Lemma word_not_question c : is_word c = true -> Ascii.eqb c "?" = false.
Proof.
  intros H.
  pose proof (for_all_ascii (fun c => implb (is_word c) (negb (Ascii.eqb c "?")))
                ltac:(vm_compute; reflexivity) c) as Hc.
  cbv beta in Hc. rewrite H in Hc. apply negb_true_iff. exact Hc.
Qed.

(** Without regard to letter case, a word character is matched by word
    characters only, and never by a white-space character. *)
Lemma word_matches_word c d :
  is_word c = true -> chr_eq true c d = true -> is_word d = true.
Proof.
  intros Hc Hd.
  pose proof (for_all_ascii2
                (fun c d => implb (is_word c && chr_eq true c d) (is_word d))
                ltac:(vm_compute; reflexivity) c d) as H.
  cbv beta in H. rewrite Hc, Hd in H. exact H.
Qed.

Lemma word_not_space c d :
  is_word c = true -> is_space d = true -> chr_eq true c d = false.
Proof.
  intros Hc Hd.
  pose proof (for_all_ascii2
                (fun c d => implb (is_word c && is_space d) (negb (chr_eq true c d)))
                ltac:(vm_compute; reflexivity) c d) as H.
  cbv beta in H. rewrite Hc, Hd in H. apply negb_true_iff. exact H.
Qed.

Lemma space_class_ci c :
  xorb false (class_mem true [CsSpace false] c) = is_space c.
Proof.
  pose proof (for_all_ascii
                (fun c => Bool.eqb (xorb false (class_mem true [CsSpace false] c))
                                   (is_space c))
                ltac:(vm_compute; reflexivity) c) as H.
  apply Bool.eqb_prop. exact H.
Qed.

(** *** The pattern text of reserved words *)

Lemma new_blank : RegExp.new " " "g" = Ok blank_re.
Proof. reflexivity. Qed.

Lemma replace_blank s : forall prev idx,
  replace_from blank_re "\s+" 0 prev s idx = spaced s.
Proof.
  induction s as [|c tl IH]; intros prev idx; [reflexivity|].
  rewrite LexerClaims.replace_from_here.
  cbn [blank_re ignoreCase source m step1 m_rest m_idx m_cap spaced]. unfold chr_eq.
  rewrite (Ascii.eqb_sym c " "). destruct (Ascii.eqb " " c).
  - cbn [m_idx].
    replace (S idx =? idx)%nat with false by (symmetry; apply Nat.eqb_neq; lia).
    replace (S idx - idx - 1) with 0 by lia. rewrite IH. reflexivity.
  - rewrite IH. reflexivity.
Qed.

Lemma spaced_append a b : spaced (a ++ b) = spaced a ++ spaced b.
Proof.
  induction a as [|c a IH]; [reflexivity|].
  cbn [append spaced]. rewrite IH. destruct (Ascii.eqb c " "); reflexivity.
Qed.

Lemma spaced_join ws : spaced (join "|" ws) = join "|" (map spaced ws).
Proof.
  induction ws as [|w ws IH]; [reflexivity|].
  destruct ws as [|w' ws']; [reflexivity|].
  change (join "|" (w :: w' :: ws')) with (w ++ "|" ++ join "|" (w' :: ws')).
  change (join "|" (map spaced (w :: w' :: ws')))
    with (spaced w ++ "|" ++ join "|" (map spaced (w' :: ws'))).
  rewrite !spaced_append, IH. reflexivity.
Qed.

(** *** An alternation in a pattern *)

Lemma parse_open c rest stack cur groups :
  Ascii.eqb c "?" = false ->
  parse (String "(" (String c rest)) (mkP stack cur groups Normal)
  = parse (String c rest) (open_group (mkP stack cur groups Normal) true).
Proof.
  destruct c as [b0 b1 b2 b3 b4 b5 b6 b7].
  destruct b0, b1, b2, b3, b4, b5, b6, b7; intros H;
    try discriminate H; reflexivity.
Qed.

Lemma plain_not_question c : is_regexp_char c = false -> Ascii.eqb c "?" = false.
Proof.
  intros H.
  pose proof (for_all_ascii
                (fun c => implb (negb (is_regexp_char c)) (negb (Ascii.eqb c "?")))
                ltac:(vm_compute; reflexivity) c) as Hc.
  cbv beta in Hc. rewrite H in Hc. apply negb_true_iff. exact Hc.
Qed.

Section Choice.

Variable enc : string -> string.
Variable ok : string -> bool.
Variable terms : string -> list (regex * bool).

Hypothesis enc_parse : forall t rest stack kind alts groups,
  ok t = true ->
  parse (enc t ++ rest) (mkP stack (mkFrame kind alts []) groups Normal)
  = parse rest (mkP stack (mkFrame kind alts (terms t)) groups Normal).

(** The alternatives of a group, up to the closing paren. *)
Lemma parse_choice ts : forall rest parent stack kind alts groups,
  forallb ok ts = true ->
  parse (join "|" (map enc ts) ++ String ")" rest)
        (mkP (parent :: stack) (mkFrame kind alts []) groups Normal)
  = parse rest
      (push_term (mkP stack parent groups Normal)
         (match kind with
          | Some n =>
              Group n (alts_of alts (any_of (map (fun t => seq_of (terms t)) ts)))
          | None => alts_of alts (any_of (map (fun t => seq_of (terms t)) ts))
          end) true).
Proof.
  induction ts as [|t ts IH]; intros rest parent stack kind alts groups Hok.
  - cbn [map join append]. rewrite parse_close. reflexivity.
  - cbn [forallb] in Hok. apply andb_true_iff in Hok. destruct Hok as [Ht Hts].
    destruct ts as [|t' ts'].
    + cbn [map join]. rewrite (enc_parse _ _ _ _ _ _ Ht), parse_close. reflexivity.
    + change (join "|" (map enc (t :: t' :: ts')))
        with (enc t ++ "|" ++ join "|" (map enc (t' :: ts'))).
      rewrite !append_assoc. rewrite (enc_parse _ _ _ _ _ _ Ht).
      change (parse ("|" ++ join "|" (map enc (t' :: ts')) ++ String ")" rest)
                (mkP (parent :: stack) (mkFrame kind alts (terms t)) groups Normal))
        with (parse (join "|" (map enc (t' :: ts')) ++ String ")" rest)
                (mkP (parent :: stack)
                     (mkFrame kind (seq_of (terms t) :: alts) []) groups Normal)).
      rewrite (IH _ _ _ _ _ _ Hts). reflexivity.
Qed.

Hypothesis enc_head : forall t c rest,
  ok t = true -> Ascii.eqb c "?" = false ->
  exists c' rest', enc t ++ String c rest = String c' rest'
                   /\ Ascii.eqb c' "?" = false.

Lemma join_head ts rest :
  forallb ok ts = true ->
  exists c' rest', join "|" (map enc ts) ++ String ")" rest = String c' rest'
                   /\ Ascii.eqb c' "?" = false.
Proof.
  intros Hok. destruct ts as [|t ts]; [exists ")"%char, rest; auto|].
  cbn [forallb] in Hok. apply andb_true_iff in Hok. destruct Hok as [Ht _].
  destruct ts as [|t' ts'].
  - cbn [map join]. apply enc_head; [exact Ht | reflexivity].
  - change (join "|" (map enc (t :: t' :: ts')))
      with (enc t ++ "|" ++ join "|" (map enc (t' :: ts'))).
    rewrite !append_assoc. apply enc_head; [exact Ht | reflexivity].
Qed.

(** The templates [^(alternatives)tail]: group 1 holds the ordered choice
    of the alternatives, and the parser goes on with [tail]. *)
Lemma parse_group_template ts tail :
  forallb ok ts = true ->
  parse ("^(" ++ join "|" (map enc ts) ++ String ")" tail)
        (mkP [] (mkFrame None [] []) 0 Normal)
  = parse tail
      (mkP [] (mkFrame None [] [(Group 1 (any_of (map (fun t => seq_of (terms t)) ts)),
                                 true); (Bol, false)]) 1 Normal).
Proof.
  intros Hok. destruct (join_head ts tail Hok) as [c' [rest' [Hj Hc]]].
  change ("^(" ++ join "|" (map enc ts) ++ String ")" tail)
    with (String "^" (String "(" (join "|" (map enc ts) ++ String ")" tail))).
  rewrite Hj.
  change (parse (String "^" (String "(" (String c' rest')))
                (mkP [] (mkFrame None [] []) 0 Normal))
    with (parse (String "(" (String c' rest'))
                (mkP [] (mkFrame None [] [(Bol, false)]) 0 Normal)).
  rewrite (parse_open _ _ _ _ _ Hc). rewrite <- Hj.
  cbv [open_group p_stack p_cur p_groups].
  rewrite (parse_choice ts _ _ _ _ _ _ Hok). reflexivity.
Qed.

End Choice.

Lemma parse_space_run c rest stack kind alts acc groups :
  Ascii.eqb c "?" = false ->
  parse (String "\" (String "s" (String "+" (String c rest))))
        (mkP stack (mkFrame kind alts acc) groups Normal)
  = parse (String c rest)
      (mkP stack (mkFrame kind alts ((space_run, false) :: acc)) groups Normal).
Proof.
  destruct c as [b0 b1 b2 b3 b4 b5 b6 b7].
  destruct b0, b1, b2, b3, b4, b5, b6, b7; intros H;
    try discriminate H; reflexivity.
Qed.

Lemma parse_spaced w : forall rest stack kind alts acc groups,
  phrase_ok w = true ->
  parse (spaced w ++ rest) (mkP stack (mkFrame kind alts acc) groups Normal)
  = parse rest (mkP stack (mkFrame kind alts (phrase_terms w acc)) groups Normal).
Proof.
  induction w as [|c w IH]; intros rest stack kind alts acc groups Hok; [reflexivity|].
  cbn [phrase_ok] in Hok. apply andb_true_iff in Hok. destruct Hok as [Hc Hw].
  cbn [spaced phrase_terms]. destruct (Ascii.eqb c " ") eqn:Ec.
  - destruct w as [|c' w']; [discriminate|].
    assert (Hs : spaced (String c' w') = String c' (spaced w')).
    { cbn [spaced]. rewrite (word_not_blank _ Hc). reflexivity. }
    rewrite <- (IH rest stack kind alts ((space_run, false) :: acc) groups Hw).
    rewrite Hs. cbn [append].
    apply parse_space_run. apply word_not_question. exact Hc.
  - rewrite <- (IH rest stack kind alts ((Chr c, true) :: acc) groups Hw).
    cbn [append]. rewrite (parse_plain_char _ _ _ _ _ (word_plain _ Hc)). reflexivity.
Qed.

Lemma seq_onto_phrase_terms w : forall acc r,
  seq_onto (phrase_terms w acc) r = seq_onto acc (fold_right (fun c x => Cat (item c) x) r (list_ascii_of_string w)).
Proof.
  induction w as [|c w IH]; intros acc r; [reflexivity|].
  cbn [phrase_terms list_ascii_of_string fold_right]. rewrite IH.
  unfold item. destruct (Ascii.eqb c " "); reflexivity.
Qed.

Lemma seq_of_phrase_terms w : forall acc,
  seq_of (phrase_terms w acc)
  = match w with
    | "" => seq_of acc
    | String _ _ => seq_onto acc (phrase w)
    end.
Proof.
  induction w as [|c w IH]; intros acc; [reflexivity|].
  cbn [phrase_terms]. rewrite IH. destruct w as [|c' w'].
  - unfold item, phrase, item. destruct (Ascii.eqb c " "); reflexivity.
  - change (phrase (String c (String c' w')))
      with (Cat (item c) (phrase (String c' w'))).
    unfold item. destruct (Ascii.eqb c " "); reflexivity.
Qed.

Lemma spaced_head w c rest :
  phrase_ok w = true -> Ascii.eqb c "?" = false ->
  exists c' rest', spaced w ++ String c rest = String c' rest'
                   /\ Ascii.eqb c' "?" = false.
Proof.
  intros Hok Hc. destruct w as [|a w]; [exists c, rest; auto|].
  cbn [phrase_ok] in Hok. apply andb_true_iff in Hok. destruct Hok as [Ha _].
  cbn [spaced]. destruct (Ascii.eqb a " ").
  - eexists _, _. split; reflexivity.
  - eexists _, _. split; [reflexivity|]. apply word_not_question. exact Ha.
Qed.

Lemma createReservedWordRegex_compiled words :
  forallb phrase_ok words = true ->
  createReservedWordRegex (Some words) = Ok (reserved_re words).
Proof.
  intros Hok. unfold createReservedWordRegex. cbn [defined JS.bind].
  rewrite new_blank. cbn [JS.bind]. unfold replace.
  rewrite replace_blank, spaced_join.
  unfold RegExp.new. cbn [parse_flags JS.bind fst snd].
  change (")\b") with (String ")" "\b").
  rewrite (parse_group_template spaced phrase_ok (fun w => phrase_terms w []));
    [|intros; apply parse_spaced; assumption
     |intros; apply spaced_head; assumption | exact Hok].
  rewrite (map_ext _ phrase) by (intros w; rewrite seq_of_phrase_terms;
                                 destruct w; reflexivity).
  unfold reserved_re. generalize (any_of (map phrase words)). intros r. reflexivity.
Qed.

(** *** The pattern text of words *)

Lemma parse_plain_text t : forall rest stack kind alts acc groups,
  plain t = true ->
  parse (t ++ rest) (mkP stack (mkFrame kind alts acc) groups Normal)
  = parse rest (mkP stack (mkFrame kind alts (text_terms t acc)) groups Normal).
Proof.
  unfold plain, all_of.
  induction t as [|c t IH]; intros rest stack kind alts acc groups Hp; [reflexivity|].
  cbn [list_ascii_of_string forallb] in Hp. apply andb_true_iff in Hp.
  destruct Hp as [Hc Ht]. apply negb_true_iff in Hc.
  cbn [append text_terms]. rewrite (parse_plain_char _ _ _ _ _ Hc).
  apply IH. exact Ht.
Qed.

Lemma seq_of_text t : seq_of (text_terms t []) = text t.
Proof. rewrite seq_of_text_terms. destruct t; reflexivity. Qed.

Lemma plain_head t c rest :
  plain t = true -> Ascii.eqb c "?" = false ->
  exists c' rest', t ++ String c rest = String c' rest'
                   /\ Ascii.eqb c' "?" = false.
Proof.
  intros Hok Hc. destruct t as [|a t]; [exists c, rest; auto|].
  unfold plain, all_of in Hok. cbn [list_ascii_of_string forallb] in Hok.
  apply andb_true_iff in Hok. destruct Hok as [Ha _]. apply negb_true_iff in Ha.
  eexists _, _. split; [reflexivity|]. apply plain_not_question. exact Ha.
Qed.

Lemma createWordRegex_compiled chars :
  forallb plain chars = true ->
  createWordRegex (Some chars) = Ok (word_re chars).
Proof.
  intros Hok. unfold createWordRegex, RegExp.new. cbn [parse_flags JS.bind fst snd].
  rewrite <- (map_id chars) at 1.
  change (")") with (String ")" "").
  rewrite (parse_group_template (fun t => t) plain (fun t => text_terms t []));
    [|intros; apply parse_plain_text; assumption
     |intros; apply plain_head; assumption | exact Hok].
  rewrite (map_ext _ text) by (intros t; apply seq_of_text).
  unfold word_re. generalize (any_of (map text chars)). intros r. reflexivity.
Qed.

(** *** The pattern text of parens *)

Lemma seq_onto_text_terms t : forall acc r,
  seq_onto (text_terms t acc) r = seq_onto acc (text_then t r).
Proof.
  induction t as [|c t IH]; intros acc r; [reflexivity|].
  cbn [text_terms]. rewrite IH. reflexivity.
Qed.

Lemma word_is_plain p : all_of is_word p = true -> plain p = true.
Proof.
  unfold plain, all_of. induction (list_ascii_of_string p) as [|c l IH];
    [reflexivity|].
  cbn [forallb]. intros H. apply andb_true_iff in H. destruct H as [Hc Hl].
  rewrite (word_plain _ Hc), (IH Hl). reflexivity.
Qed.

Lemma parse_escapeParen p : forall rest stack kind alts groups,
  paren_ok p = true ->
  parse (escapeParen p ++ rest) (mkP stack (mkFrame kind alts []) groups Normal)
  = parse rest (mkP stack (mkFrame kind alts (paren_terms p)) groups Normal).
Proof.
  intros rest stack kind alts groups Hok. unfold escapeParen, paren_terms.
  destruct (String.length p =? 1)%nat eqn:El.
  - rewrite parse_escapeRegExp by reflexivity. rewrite push_text_frame. reflexivity.
  - unfold paren_ok in Hok. rewrite El in Hok. cbn [orb] in Hok.
    apply andb_true_iff in Hok. destruct Hok as [_ Hw].
    rewrite !append_assoc.
    change (parse ("\b" ++ p ++ "\b" ++ rest)
              (mkP stack (mkFrame kind alts []) groups Normal))
      with (parse (p ++ "\b" ++ rest)
              (mkP stack (mkFrame kind alts [(WordB false, false)]) groups Normal)).
    rewrite (parse_plain_text p _ _ _ _ _ _ (word_is_plain _ Hw)). reflexivity.
Qed.

Lemma seq_of_paren_terms p : seq_of (paren_terms p) = paren_item p.
Proof.
  unfold paren_terms, paren_item. destruct (String.length p =? 1)%nat.
  - apply seq_of_text.
  - cbn [seq_of]. rewrite seq_onto_text_terms. reflexivity.
Qed.

Lemma escapeParen_head p c rest :
  paren_ok p = true -> Ascii.eqb c "?" = false ->
  exists c' rest', escapeParen p ++ String c rest = String c' rest'
                   /\ Ascii.eqb c' "?" = false.
Proof.
  intros Hok Hc. unfold escapeParen.
  destruct (String.length p =? 1)%nat eqn:El.
  - destruct p as [|a [|b p]]; try discriminate El.
    cbn [escapeRegExp]. destruct (is_regexp_char a) eqn:Ea.
    + eexists _, _. split; reflexivity.
    + eexists _, _. split; [reflexivity|]. apply plain_not_question. exact Ea.
  - eexists _, _. split; reflexivity.
Qed.

Lemma createParenRegex_compiled parens :
  forallb paren_ok parens = true ->
  createParenRegex (Some parens) = Ok (paren_re parens).
Proof.
  intros Hok. unfold createParenRegex. cbn [defined JS.bind].
  unfold RegExp.new. cbn [parse_flags JS.bind fst snd].
  change (")") with (String ")" "").
  rewrite (parse_group_template escapeParen paren_ok paren_terms);
    [|intros; apply parse_escapeParen; assumption
     |intros; apply escapeParen_head; assumption | exact Hok].
  rewrite (map_ext _ paren_item) by (intros t; apply seq_of_paren_terms).
  unfold paren_re. generalize (any_of (map paren_item parens)). intros r. reflexivity.
Qed.

(** *** Runs of the matcher on words *)

Lemma m_any_of_map ci (re : string -> regex) ts : forall t st k,
  m ci (any_of (map re (t :: ts))) st k
  = first_success (t :: ts) (fun t => m ci (re t) st k).
Proof.
  induction ts as [|t' ts IH]; intros t st k.
  - cbn [map any_of first_success]. destruct (m ci (re t) st k); reflexivity.
  - change (any_of (map re (t :: t' :: ts)))
      with (Alt (re t) (any_of (map re (t' :: ts)))).
    cbn [m]. rewrite IH. reflexivity.
Qed.

Lemma last_of_append a : forall prev b,
  last_of prev (a ++ b) = last_of (last_of prev a) b.
Proof. induction a as [|c a IH]; intros prev b; [reflexivity | apply IH]. Qed.

Lemma drop_take_while p s :
  drop (String.length (take_while p s)) s = drop_while p s.
Proof.
  induction s as [|c tl IH]; [reflexivity|].
  cbn [take_while drop_while]. destruct (p c); [exact IH | reflexivity].
Qed.

Lemma after_after st a x b r :
  after (after st a x) b r = after st (a ++ b) r.
Proof.
  unfold after. cbn [m_prev m_idx m_cap]. rewrite last_of_append, length_append.
  f_equal. lia.
Qed.

(** A greedy repetition of a character class, followed by something that
    cannot start with a member of the class, stops after the longest run
    of class members. *)
Lemma greedy_class_exact ci neg cs p k :
  (forall c, xorb neg (class_mem ci cs c) = p c) ->
  (forall prev c tl idx cap, p c = true -> k (mkM prev (String c tl) idx cap) = None) ->
  forall rest prev idx cap fuel,
    String.length rest <= fuel ->
    repeat (fun s k' => m ci (Class neg cs) (reset (Class neg cs) s) k') true k
           fuel (mkM prev rest idx cap)
    = k (after (mkM prev rest idx cap) (take_while p rest) (drop_while p rest)).
Proof.
  intros Hp Hk.
  induction rest as [|c tl IH]; intros prev idx cap fuel Hlen.
  - destruct fuel; reflexivity.
  - destruct fuel as [|fuel]; [simpl in Hlen; lia|].
    cbn [repeat].
    assert (Hstep : forall k0,
      m ci (Class neg cs) (reset (Class neg cs) (mkM prev (String c tl) idx cap)) k0
      = if p c then k0 (mkM (Some c) tl (S idx) cap) else None).
    { intros k0. cbn [reset captures1 m step1 m_rest m_idx m_cap]. rewrite Hp.
      reflexivity. }
    rewrite Hstep. cbn [take_while drop_while]. destruct (p c) eqn:Ec.
    + cbn [m_idx].
      replace (S idx =? idx)%nat with false by (symmetry; apply Nat.eqb_neq; lia).
      rewrite (IH (Some c) (S idx) cap fuel) by (simpl in Hlen; lia).
      assert (He : after (mkM (Some c) tl (S idx) cap) (take_while p tl)
                         (drop_while p tl)
                   = after (mkM prev (String c tl) idx cap)
                           (String c (take_while p tl)) (drop_while p tl)).
      { unfold after. cbn [m_prev m_idx m_cap last_of String.length].
        rewrite Nat.add_succ_r. reflexivity. }
      rewrite He. rewrite (Hk prev c tl idx cap Ec).
      destruct (k _); reflexivity.
    + reflexivity.
Qed.

Lemma read_phrase_app w : forall input v r,
  read_phrase w input = Some (v, r) -> input = v ++ r.
Proof.
  induction w as [|c w IH]; intros input v r H; cbn [read_phrase] in H.
  - inversion H. reflexivity.
  - destruct (Ascii.eqb c " ").
    + destruct (take_while is_space input) as [|a run] eqn:Et; [discriminate|].
      destruct (read_phrase w (drop_while is_space input)) as [[v' r']|] eqn:Er;
        [|discriminate].
      inversion H; subst. apply IH in Er.
      destruct (take_while_prefix is_space input) as [rest Hrest].
      pose proof (drop_take_while is_space input) as Hd.
      rewrite Et in Hrest, Hd. rewrite Hrest in Hd at 1.
      rewrite drop_append in Hd. rewrite <- Hd in Er. subst rest.
      rewrite Hrest at 1. symmetry. exact (append_assoc (String a run) v' r).
    + destruct input as [|d tl]; [discriminate|].
      destruct (chr_eq true c d); [|discriminate].
      destruct (read_phrase w tl) as [[v' r']|] eqn:Er; [|discriminate].
      inversion H; subst. apply IH in Er. subst tl. reflexivity.
Qed.

Lemma phrase_head_fails c w prev d tl idx cap k :
  is_word c = true -> is_space d = true ->
  m true (phrase (String c w)) (mkM prev (String d tl) idx cap) k = None.
Proof.
  intros Hc Hd.
  assert (Hi : item c = Chr c) by (unfold item; rewrite (word_not_blank _ Hc); reflexivity).
  destruct w as [|c' w'].
  - cbn [phrase]. rewrite Hi. cbn [m step1 m_rest].
    rewrite (word_not_space _ _ Hc Hd). reflexivity.
  - change (phrase (String c (String c' w')))
      with (Cat (item c) (phrase (String c' w'))).
    rewrite Hi, m_Cat. cbn [m step1 m_rest].
    rewrite (word_not_space _ _ Hc Hd). reflexivity.
Qed.

(** The compiled form of a word reads what [read_phrase] reads. *)
Lemma m_phrase w : forall st k,
  phrase_ok w = true ->
  m true (phrase w) st k
  = match read_phrase w (m_rest st) with
    | Some (v, r) => k (after st v r)
    | None => None
    end.
Proof.
  induction w as [|c w IH]; intros [prev rest idx cap] k Hok; [reflexivity|].
  cbn [phrase_ok] in Hok. apply andb_true_iff in Hok. destruct Hok as [Hc Hw].
  cbn [m_rest read_phrase].
  destruct (Ascii.eqb c " ") eqn:Ec.
  - (* a blank: the next character of the word is a word character *)
    destruct w as [|c' w']; [discriminate|].
    change (phrase (String c (String c' w')))
      with (Cat (item c) (phrase (String c' w'))).
    unfold item. rewrite Ec. unfold space_run. rewrite m_Cat, m_Plus.
    destruct rest as [|d tl]; [reflexivity|].
    assert (Hstep : forall k0,
      m true (Class false [CsSpace false])
        (reset (Class false [CsSpace false]) (mkM prev (String d tl) idx cap)) k0
      = if is_space d then k0 (mkM (Some d) tl (S idx) cap) else None).
    { intros k0. cbn [reset captures1 m step1 m_rest m_idx m_cap].
      rewrite space_class_ci. reflexivity. }
    rewrite Hstep. cbn [take_while drop_while]. destruct (is_space d) eqn:Ed;
      [|reflexivity].
    cbn [m_rest].
    rewrite (greedy_class_exact true false [CsSpace false] is_space);
      [|exact space_class_ci
       |intros; apply phrase_head_fails; assumption
       |apply le_n].
    rewrite (IH _ k Hw). unfold after at 1. cbn [m_rest].
    destruct (read_phrase (String c' w') (drop_while is_space tl)) as [[v r]|];
      [|reflexivity].
    rewrite after_after. f_equal.
    unfold after. cbn [m_prev m_idx m_cap last_of String.length append].
    rewrite Nat.add_succ_r. reflexivity.
  - (* a word character *)
    assert (Hi : item c = Chr c) by (unfold item; rewrite Ec; reflexivity).
    destruct rest as [|d tl].
    + destruct w as [|c' w'].
      * cbn [phrase]. rewrite Hi. reflexivity.
      * change (phrase (String c (String c' w')))
          with (Cat (item c) (phrase (String c' w'))).
        rewrite Hi. reflexivity.
    + assert (Hgo : m true (phrase (String c w)) (mkM prev (String d tl) idx cap) k
                    = if chr_eq true c d
                      then m true (phrase w) (mkM (Some d) tl (S idx) cap) k
                      else None).
      { destruct w as [|c' w'].
        - cbn [phrase]. rewrite Hi. reflexivity.
        - change (phrase (String c (String c' w')))
            with (Cat (item c) (phrase (String c' w'))).
          rewrite Hi. reflexivity. }
      rewrite Hgo. destruct (chr_eq true c d); [|reflexivity].
      rewrite (IH _ k Hw). cbn [m_rest].
      destruct (read_phrase w tl) as [[v r]|]; [|reflexivity].
      f_equal. unfold after. cbn [m_prev m_idx m_cap last_of String.length].
      rewrite Nat.add_succ_r. reflexivity.
Qed.

(** *** Classifiers whose pattern is a choice of alternatives *)

Lemma getTokenOnFirstMatch_run input ty re x (F : string -> option mstate)
    (G : string -> option string) ts :
  source re = Cat Bol x ->
  m (ignoreCase re) x (mkM None input 0 None) Some = first_success ts F ->
  (forall t, match G t with
             | Some v => exists st, F t = Some st
                                    /\ group1 (result_of input 0 st) = Some v
             | None => F t = None
             end) ->
  getTokenOnFirstMatch input ty (Some re)
  = match first_success ts G with
    | Some v => Some (found ty v)
    | None => None
    end.
Proof.
  intros Hs Hm H. unfold getTokenOnFirstMatch.
  pose proof (first_success_run
                (fun st v => group1 (result_of input 0 st) = Some v) F G H ts) as Hr.
  destruct (first_success ts G) as [v|].
  - destruct Hr as [st [Hst Hv]].
    rewrite (exec_found re input st).
    + rewrite Hv. reflexivity.
    + rewrite Hs, m_Cat, m_Bol, Hm. exact Hst.
  - rewrite (LexerClaims.exec_none_at_anchor re input x Hs); [reflexivity|].
    rewrite Hm. exact Hr.
Qed.

Lemma default_nonempty (ts : list string) :
  exists t0 more, match ts with [] => [""] | _ :: _ => ts end = t0 :: more.
Proof. destruct ts; eauto. Qed.

(** What the pattern of a list of reserved words reads. *)
Lemma reserved_reads ty words input :
  forallb phrase_ok words = true ->
  getTokenOnFirstMatch input ty (Some (reserved_re words))
  = match read_reserved words input with
    | Some v => Some (found ty v)
    | None => None
    end.
Proof.
  intros Hok. unfold read_reserved.
  assert (Hok' : forall w, In w (match words with [] => [""] | _ :: _ => words end)
                           -> phrase_ok w = true).
  { intros w Hin. destruct words as [|w0 ws].
    - destruct Hin as [<-|[]]. reflexivity.
    - exact (proj1 (forallb_forall _ _) Hok w Hin). }
  assert (Hre : reserved_re words
                = reserved_re (match words with [] => [""] | _ :: _ => words end))
    by (destruct words; reflexivity).
  rewrite Hre. clear Hre Hok.
  destruct (default_nonempty words) as [t0 [more Hd]]. rewrite Hd in *.
  set (K := fun st' : mstate =>
              m true (WordB false) (set_cap st' 0 (m_idx st')) Some).
  assert (Hin : forall w, phrase_ok w = true ->
            match (match read_phrase w input with
                   | Some (v, r) => if boundary v r then Some v else None
                   | None => None
                   end) with
            | Some v =>
                exists st, m true (phrase w) (mkM None input 0 None) K = Some st
                           /\ group1 (result_of input 0 st) = Some v
            | None => m true (phrase w) (mkM None input 0 None) K = None
            end).
  { intros w Hw. rewrite (m_phrase w _ K Hw). cbn [m_rest].
    destruct (read_phrase w input) as [[v r]|] eqn:Er; [|reflexivity].
    assert (HK : K (after (mkM None input 0 None) v r)
                 = if boundary v r
                   then Some (set_cap (after (mkM None input 0 None) v r) 0
                                      (String.length v + 0))
                   else None) by reflexivity.
    rewrite HK. destruct (boundary v r); [|reflexivity].
    eexists. split; [reflexivity|].
    unfold result_of, set_cap. cbn [group1 m_cap]. f_equal.
    apply read_phrase_app in Er. subst input. apply take_of_append. lia. }
  (* alternatives that are not well formed are not in the list *)
  assert (Hall : forall ts, (forall w, In w ts -> phrase_ok w = true) ->
            match first_success ts
                    (fun w => match read_phrase w input with
                              | Some (v, r) => if boundary v r then Some v else None
                              | None => None
                              end) with
            | Some v =>
                exists st,
                  first_success ts
                    (fun w => m true (phrase w) (mkM None input 0 None) K) = Some st
                  /\ group1 (result_of input 0 st) = Some v
            | None =>
                first_success ts
                  (fun w => m true (phrase w) (mkM None input 0 None) K) = None
            end).
  { induction ts as [|w ts IH]; intros Hts; [reflexivity|].
    cbn [first_success]. pose proof (Hin w (Hts w (or_introl eq_refl))) as Hw.
    destruct (match read_phrase w input with
              | Some (v, r) => if boundary v r then Some v else None
              | None => None
              end) as [v|].
    - destruct Hw as [st [Hst Hv]]. rewrite Hst. eauto.
    - rewrite Hw. apply IH. intros w' Hw'. apply Hts. right. exact Hw'. }
  specialize (Hall (t0 :: more) Hok').
  unfold getTokenOnFirstMatch.
  assert (Hm : m true (Cat (Group 1 (any_of (map phrase (t0 :: more)))) (WordB false))
                 (mkM None input 0 None) Some
               = first_success (t0 :: more)
                   (fun w => m true (phrase w) (mkM None input 0 None) K)).
  { rewrite m_Cat, m_Group, m_any_of_map. reflexivity. }
  destruct (first_success (t0 :: more) _) as [v|] in Hall |- *.
  - destruct Hall as [st [Hst Hv]].
    rewrite (exec_found (reserved_re (t0 :: more)) input st).
    + rewrite Hv. reflexivity.
    + cbn [reserved_re ignoreCase source]. rewrite m_Cat, m_Bol, Hm. exact Hst.
  - rewrite (LexerClaims.exec_none_at_anchor (reserved_re (t0 :: more)) input _ eq_refl);
      [reflexivity|].
    cbn [reserved_re ignoreCase]. rewrite Hm. exact Hall.
Qed.

(** What the word pattern reads. *)
Lemma word_reads chars input :
  getTokenOnFirstMatch input WORD (Some (word_re chars))
  = match read_word chars input with
    | Some v => Some (found WORD v)
    | None => None
    end.
Proof.
  unfold read_word.
  assert (Hre : word_re chars
                = word_re (match chars with [] => [""] | _ :: _ => chars end))
    by (destruct chars; reflexivity).
  rewrite Hre. clear Hre.
  destruct (default_nonempty chars) as [t0 [more ->]].
  apply (getTokenOnFirstMatch_run input WORD (word_re (t0 :: more))
           (Group 1 (any_of (map text (t0 :: more))))
           (fun t => m false (text t) (mkM None input 0 None) capture_all)).
  - reflexivity.
  - cbn [word_re ignoreCase]. rewrite m_Group, m_any_of_map. reflexivity.
  - intros t. rewrite m_text. cbn [m_rest].
    destruct (strip_prefix t input) as [r|] eqn:Es; [|reflexivity].
    eexists. split; [reflexivity|].
    unfold result_of, capture_all, after. cbn [group1 set_cap m_cap m_idx]. f_equal.
    apply strip_prefix_app in Es. subst input. apply take_of_append. lia.
Qed.

(** *** Parens *)

Lemma m_text_then p r : forall st k,
  all_of is_word p = true ->
  m true (text_then p r) st k
  = match read_phrase p (m_rest st) with
    | Some (v, r') => m true r (after st v r') k
    | None => None
    end.
Proof.
  unfold all_of.
  induction p as [|c p IH]; intros [prev rest idx cap] k Hp; [reflexivity|].
  cbn [list_ascii_of_string forallb] in Hp. apply andb_true_iff in Hp.
  destruct Hp as [Hc Hp]. cbn [text_then m_rest read_phrase].
  rewrite (word_not_blank _ Hc), m_Cat.
  destruct rest as [|d tl]; [reflexivity|].
  cbn [m step1 m_rest]. destruct (chr_eq true c d); [|reflexivity].
  rewrite (IH _ k Hp). cbn [m_rest m_idx m_cap].
  destruct (read_phrase p tl) as [[v r']|]; [|reflexivity].
  f_equal. unfold after. cbn [m_prev m_idx m_cap last_of String.length].
  rewrite Nat.add_succ_r. reflexivity.
Qed.

Lemma read_phrase_needs_word c p input :
  is_word c = true ->
  match input with String d _ => is_word d | "" => false end = false ->
  read_phrase (String c p) input = None.
Proof.
  intros Hc Hi. cbn [read_phrase]. rewrite (word_not_blank _ Hc).
  destruct input as [|d tl]; [reflexivity|].
  destruct (chr_eq true c d) eqn:E; [|reflexivity].
  rewrite (word_matches_word _ _ Hc E) in Hi. discriminate.
Qed.

(** What the pattern of a list of parens reads. *)
Lemma paren_reads ty p0 ps input :
  forallb paren_ok (p0 :: ps) = true ->
  getTokenOnFirstMatch input ty (Some (paren_re (p0 :: ps)))
  = match read_paren (p0 :: ps) input with
    | Some v => Some (found ty v)
    | None => None
    end.
Proof.
  intros Hok. unfold read_paren.
  set (G := fun p : string =>
              if (String.length p =? 1)%nat
              then match p, input with
                   | String c _, String d _ =>
                       if chr_eq true c d then Some (String d "") else None
                   | _, _ => None
                   end
              else match read_phrase p input with
                   | Some (v, r) => if boundary v r then Some v else None
                   | None => None
                   end).
  set (F := fun p : string =>
              m true (paren_item p) (mkM None input 0 None) capture_all).
  assert (Hin : forall p, paren_ok p = true ->
            match G p with
            | Some v => exists st, F p = Some st
                                   /\ group1 (result_of input 0 st) = Some v
            | None => F p = None
            end).
  { intros p Hp. unfold G, F, paren_item. unfold paren_ok in Hp.
    destruct (String.length p =? 1)%nat eqn:El.
    - destruct p as [|c [|c' p']]; try discriminate El.
      destruct input as [|d tl]; [reflexivity|].
      cbn [text m step1 m_rest]. destruct (chr_eq true c d); [|reflexivity].
      eexists. split; [reflexivity|]. reflexivity.
    - cbn [orb] in Hp. apply andb_true_iff in Hp. destruct Hp as [Hl Hw].
      destruct p as [|c p']; [discriminate Hl|].
      assert (Hc : is_word c = true).
      { unfold all_of in Hw. cbn [list_ascii_of_string forallb] in Hw.
        apply andb_true_iff in Hw. tauto. }
      rewrite m_Cat.
      assert (Hb : forall k,
                m true (WordB false) (mkM None input 0 None) k
                = if match input with String d _ => is_word d | "" => false end
                  then k (mkM None input 0 None) else None) by reflexivity.
      rewrite Hb.
      destruct (match input with String d _ => is_word d | "" => false end) eqn:Ei.
      + rewrite (m_text_then _ _ _ _ Hw). cbn [m_rest].
        destruct (read_phrase (String c p') input) as [[v r]|] eqn:Er; [|reflexivity].
        assert (HK : m true (WordB false) (after (mkM None input 0 None) v r)
                       capture_all
                     = if boundary v r
                       then Some (set_cap (after (mkM None input 0 None) v r) 0
                                          (String.length v + 0))
                       else None) by reflexivity.
        rewrite HK. destruct (boundary v r); [|reflexivity].
        eexists. split; [reflexivity|].
        unfold result_of, set_cap. cbn [group1 m_cap]. f_equal.
        apply read_phrase_app in Er. subst input. apply take_of_append. lia.
      + rewrite (read_phrase_needs_word c p' input Hc Ei). reflexivity. }
  assert (Hall : forall ts, forallb paren_ok ts = true ->
            match first_success ts G with
            | Some v => exists st, first_success ts F = Some st
                                   /\ group1 (result_of input 0 st) = Some v
            | None => first_success ts F = None
            end).
  { induction ts as [|p ts IH]; intros Hts; [reflexivity|].
    cbn [forallb] in Hts. apply andb_true_iff in Hts. destruct Hts as [Hp Hts].
    cbn [first_success]. pose proof (Hin p Hp) as Hw.
    destruct (G p) as [v|].
    - destruct Hw as [st [Hst Hv]]. rewrite Hst. eauto.
    - rewrite Hw. apply IH. exact Hts. }
  specialize (Hall (p0 :: ps) Hok).
  assert (Hm : m true (Group 1 (any_of (map paren_item (p0 :: ps))))
                 (mkM None input 0 None) Some
               = first_success (p0 :: ps) F).
  { rewrite m_Group, m_any_of_map. reflexivity. }
  unfold getTokenOnFirstMatch.
  destruct (first_success (p0 :: ps) G) as [v|].
  - destruct Hall as [st [Hst Hv]].
    rewrite (exec_found (paren_re (p0 :: ps)) input st).
    + rewrite Hv. reflexivity.
    + cbn [paren_re ignoreCase source]. rewrite m_Cat, m_Bol, Hm. exact Hst.
  - rewrite (LexerClaims.exec_none_at_anchor (paren_re (p0 :: ps)) input _ eq_refl);
      [reflexivity|].
    cbn [paren_re ignoreCase]. rewrite Hm. exact Hall.
Qed.

(** *** An iteration that takes nothing *)

Lemma tokenize_loop_stuck this input t :
  value t = Some "" ->
  (forall previousToken,
     preceded_by_dot previousToken = false ->
     getNextToken this input previousToken = Ok (Some t)) ->
  forall fuel token lastPosition tokens,
    input <> "" ->
    preceded_by_dot token = false ->
    tokenize_loop this fuel input token lastPosition tokens = None.
Proof.
  intros Hv Hn. induction fuel as [|fuel IH]; intros token lastPosition tokens Hne Hd;
    destruct input as [|c s]; try congruence; [reflexivity|].
  cbn [tokenize_loop]. rewrite (Hn token Hd). cbv beta iota. rewrite Hv.
  cbn [String.length substring_from drop]. apply IH; [exact Hne|].
  reflexivity.
Qed.

Lemma getNextToken_previous this input p1 p2 :
  preceded_by_dot p1 = preceded_by_dot p2 ->
  getNextToken this input p1 = getNextToken this input p2.
Proof.
  intros H. unfold getNextToken, getReservedWordToken. rewrite H. reflexivity.
Qed.

Lemma word_is_not_space c : is_word c = true -> is_space c = false.
Proof.
  intros H.
  pose proof (for_all_ascii (fun c => implb (is_word c) (negb (is_space c)))
                ltac:(vm_compute; reflexivity) c) as Hc.
  cbv beta in Hc. rewrite H in Hc. apply negb_true_iff. exact Hc.
Qed.

(** The pattern [^()], of an empty list of alternatives, matches the empty
    text at the start of every input. *)
Lemma empty_choice_reads input ty ci :
  getTokenOnFirstMatch input ty (Some (mk (Cat Bol (Group 1 Empty)) ci false))
  = Some (found ty "").
Proof.
  unfold getTokenOnFirstMatch.
  rewrite (exec_found _ input (mkM None input 0 (Some (0, 0)))); reflexivity.
Qed.

Lemma new_reserved cfg this :
  Lexer.new cfg = Ok this ->
  (forall words, reservedToplevelWords cfg = Some words ->
     forallb phrase_ok words = true ->
     RESERVED_TOPLEVEL_REGEX this = Some (reserved_re words))
  /\ (forall words, reservedNewlineWords cfg = Some words ->
        forallb phrase_ok words = true ->
        RESERVED_NEWLINE_REGEX this = Some (reserved_re words))
  /\ (forall words, reservedWords cfg = Some words ->
        forallb phrase_ok words = true ->
        RESERVED_PLAIN_REGEX this = Some (reserved_re words)).
Proof.
  intros Hnew.
  destruct (new_inv _ _ Hnew) as
    (_ & _ & _ & _ & _ & (r2 & E2 & F2) & (r3 & E3 & F3) & (r4 & E4 & F4) & _).
  repeat split; intros words Hw Hok.
  - rewrite Hw, (createReservedWordRegex_compiled _ Hok) in E2.
    injection E2 as <-. exact F2.
  - rewrite Hw, (createReservedWordRegex_compiled _ Hok) in E3.
    injection E3 as <-. exact F3.
  - rewrite Hw, (createReservedWordRegex_compiled _ Hok) in E4.
    injection E4 as <-. exact F4.
Qed.

Lemma new_parens cfg this :
  Lexer.new cfg = Ok this ->
  (forall parens, openParens cfg = Some parens ->
     forallb paren_ok parens = true ->
     OPEN_PAREN_REGEX this = Some (paren_re parens))
  /\ (forall parens, closeParens cfg = Some parens ->
        forallb paren_ok parens = true ->
        CLOSE_PAREN_REGEX this = Some (paren_re parens)).
Proof.
  intros Hnew.
  destruct (new_inv _ _ Hnew) as
    (_ & _ & _ & _ & _ & _ & _ & _ & _ & _ & (r7 & E7 & F7) & (r8 & E8 & F8) & _).
  split; intros parens Hp Hok.
  - rewrite Hp, (createParenRegex_compiled _ Hok) in E7. injection E7 as <-. exact F7.
  - rewrite Hp, (createParenRegex_compiled _ Hok) in E8. injection E8 as <-. exact F8.
Qed.

(** *** Quoted segments *)

Lemma none_of_class l c :
  xorb true (class_mem false (map CsChar l) c) = none_of l c.
Proof.
  assert (H : existsb (cset_mem c) (map CsChar l)
              = existsb (fun x => Ascii.eqb x c) l).
  { induction l as [|x l IH]; [reflexivity|].
    cbn [map existsb cset_mem]. rewrite IH. reflexivity. }
  unfold none_of, class_mem. rewrite H.
  destruct (existsb (fun x => Ascii.eqb x c) l); reflexivity.
Qed.

Lemma drop_while_head p s :
  match drop_while p s with String c _ => p c = false | "" => True end.
Proof.
  induction s as [|c tl IH]; [exact I|].
  cbn [drop_while]. destruct (p c) eqn:E; [exact IH | exact E].
Qed.

Lemma length_drop_while p s : String.length (drop_while p s) <= String.length s.
Proof.
  induction s as [|c tl IH]; [apply le_n|].
  cbn [drop_while]. destruct (p c); simpl; lia.
Qed.

(** Scanning goes over a run of characters that stand for themselves. *)
Lemma scan_run cls q s :
  scan_quoted cls q s
  = match scan_quoted cls q (drop_while cls s) with
    | Some (v, r) => Some (take_while cls s ++ v, r)
    | None => None
    end.
Proof.
  induction s as [|c tl IH]; [reflexivity|].
  cbn [take_while drop_while]. destruct (cls c) eqn:Ec.
  - cbn [scan_quoted]. rewrite Ec, IH.
    destruct (scan_quoted cls q (drop_while cls tl)) as [[v r]|]; reflexivity.
  - destruct (scan_quoted cls q (String c tl)) as [[v r]|]; reflexivity.
Qed.

Lemma scan_quoted_app cls q : forall n s v r,
  String.length s <= n ->
  scan_quoted cls q s = Some (v, r) -> s = v ++ r.
Proof.
  induction n as [|n IH]; intros s v r Hlen H.
  - destruct s; [|simpl in Hlen; lia]. inversion H. reflexivity.
  - destruct s as [|c tl]; [inversion H; reflexivity|].
    simpl in Hlen. cbn [scan_quoted] in H. destruct (cls c).
    + destruct (scan_quoted cls q tl) as [[v' r']|] eqn:E; [|discriminate].
      inversion H; subst. apply IH in E; [|lia]. subst tl. reflexivity.
    + destruct (Ascii.eqb c q); [inversion H; reflexivity|].
      destruct (Ascii.eqb c "\"); [|discriminate].
      destruct tl as [|d tl']; [discriminate|].
      destruct (is_line_terminator d); [discriminate|].
      destruct (scan_quoted cls q tl') as [[v' r']|] eqn:E; [|discriminate].
      inversion H; subst. apply IH in E; [|simpl in Hlen; lia]. subst tl'.
      reflexivity.
Qed.

Lemma read_segment_app opening cls q s v r :
  read_segment opening cls q s = Some (v, r) -> s = v ++ r.
Proof.
  unfold read_segment. intros H.
  destruct (strip_prefix opening s) as [r0|] eqn:Es; [|discriminate].
  destruct (scan_quoted cls q r0) as [[v' r']|] eqn:E; [|discriminate].
  inversion H; subst. apply strip_prefix_app in Es.
  apply (scan_quoted_app cls q _ _ _ _ (le_n _)) in E. subst.
  symmetry. apply append_assoc.
Qed.

Lemma m_text_then_plain o r : forall st k,
  m false (text_then o r) st k
  = match strip_prefix o (m_rest st) with
    | Some r0 => m false r (after st o r0) k
    | None => None
    end.
Proof.
  induction o as [|c o IH]; intros [prev rest idx cap] k; [reflexivity|].
  cbn [text_then m_rest strip_prefix]. rewrite m_Cat.
  destruct rest as [|d tl]; [reflexivity|].
  cbn [m step1 m_rest]. unfold chr_eq. destruct (Ascii.eqb c d) eqn:E; [|reflexivity].
  apply Ascii.eqb_eq in E. subst d. rewrite IH. cbn [m_rest m_idx m_cap].
  destruct (strip_prefix o tl) as [r0|]; [|reflexivity].
  f_equal. unfold after. cbn [m_prev m_idx m_cap last_of String.length].
  rewrite Nat.add_succ_r. reflexivity.
Qed.

Lemma m_Chr ci x st k : m ci (Chr x) st k = step1 (chr_eq ci x) st k.
Proof. reflexivity. Qed.

Lemma m_Dot ci st k :
  m ci Dot st k = step1 (fun c => negb (is_line_terminator c)) st k.
Proof. reflexivity. Qed.

Lemma m_Group_other ci n a st k :
  (n =? 1)%nat = false -> m ci (Group n a) st k = m ci a st k.
Proof. intros H. rewrite m_Group, H. reflexivity. Qed.

Lemma not_group1 g : 1 <= g -> (S g =? 1)%nat = false.
Proof. intros H. destruct g; [lia | reflexivity]. Qed.

(** A greedy run of a class given by a list of excluded characters. *)
Lemma run_exact cs k st :
  (forall prev c tl idx cap,
     none_of cs c = true -> k (mkM prev (String c tl) idx cap) = None) ->
  m false (Star true (Class true (map CsChar cs))) st k
  = k (after st (take_while (none_of cs) (m_rest st))
                (drop_while (none_of cs) (m_rest st))).
Proof.
  intros Hk. rewrite m_Star. destruct st as [prev rest idx cap]. cbn [m_rest].
  apply (greedy_class_exact false true (map CsChar cs) (none_of cs));
    [apply none_of_class | exact Hk | apply le_n].
Qed.

Section Plain.

Variable q : ascii.
Variable n : nat.
Hypothesis Hn : (n =? 1)%nat = false.

Lemma plain_close_at k prev s idx cap :
  m false (Group n (Alt Eol (Chr q))) (mkM prev s idx cap) k
  = match s with
    | "" => k (mkM prev "" idx cap)
    | String c tl => if Ascii.eqb c q then k (mkM (Some c) tl (S idx) cap) else None
    end.
Proof.
  rewrite (m_Group_other _ _ _ _ _ Hn). destruct s as [|c tl].
  - cbn [m m_rest]. destruct (k _); reflexivity.
  - cbn [m m_rest step1 m_idx m_cap]. unfold chr_eq. rewrite (Ascii.eqb_sym q c).
    reflexivity.
Qed.

Lemma plain_body_reads st k :
  m false (plain_body q n) st k
  = match scan_quoted (none_of [q]) q (m_rest st) with
    | Some (v, r) => k (after st v r)
    | None => None
    end.
Proof.
  unfold plain_body. rewrite m_Cat.
  change [CsChar q] with (map CsChar [q]).
  destruct st as [prev rest idx cap].
  rewrite run_exact.
  2:{ intros p c tl i cp Hc. rewrite plain_close_at.
      unfold none_of in Hc. cbn [existsb] in Hc. rewrite orb_false_r in Hc.
      apply negb_true_iff in Hc. rewrite (Ascii.eqb_sym c q), Hc. reflexivity. }
  cbn [m_rest]. rewrite (scan_run (none_of [q]) q rest).
  pose proof (drop_while_head (none_of [q]) rest) as Hh.
  unfold after at 1. cbn [m_prev m_idx m_cap]. rewrite plain_close_at.
  destruct (drop_while (none_of [q]) rest) as [|c tl].
  - cbn [scan_quoted]. f_equal. unfold after. cbn [m_prev m_idx m_cap].
    rewrite last_of_append, length_append. cbn [last_of String.length].
    f_equal. lia.
  - cbn [scan_quoted]. rewrite Hh.
    unfold none_of in Hh. cbn [existsb] in Hh. rewrite orb_false_r in Hh.
    apply negb_false_iff in Hh. rewrite (Ascii.eqb_sym c q), Hh.
    f_equal. unfold after. cbn [m_prev m_idx m_cap].
    rewrite last_of_append, length_append. cbn [last_of String.length].
    f_equal. lia.
Qed.

End Plain.

Section Escaped.

Variable cs : list ascii.
Variable q : ascii.
Variable n : nat.
Hypothesis Hq : none_of cs q = false.
Hypothesis Hb : none_of cs "\" = false.
Hypothesis Hqb : Ascii.eqb q "\" = false.
Hypothesis Hn : (n =? 1)%nat = false.

Lemma member_not_quote c : none_of cs c = true -> Ascii.eqb c q = false.
Proof.
  intros Hc. destruct (Ascii.eqb c q) eqn:E; [|reflexivity].
  apply Ascii.eqb_eq in E. subst c. congruence.
Qed.

Lemma member_not_backslash c : none_of cs c = true -> Ascii.eqb c "\" = false.
Proof.
  intros Hc. destruct (Ascii.eqb c "\") eqn:E; [|reflexivity].
  apply Ascii.eqb_eq in E. subst c. congruence.
Qed.

Lemma close_at k prev s idx cap :
  m false (Group n (Alt (Chr q) Eol)) (mkM prev s idx cap) k
  = match s with
    | "" => k (mkM prev "" idx cap)
    | String c tl => if Ascii.eqb c q then k (mkM (Some c) tl (S idx) cap) else None
    end.
Proof.
  rewrite (m_Group_other _ _ _ _ _ Hn). destruct s as [|c tl].
  - reflexivity.
  - cbn [m m_rest step1 m_idx m_cap]. unfold chr_eq. rewrite (Ascii.eqb_sym q c).
    destruct (Ascii.eqb c q); [|reflexivity]. destruct (k _); reflexivity.
Qed.

Lemma escape_at k prev s idx cap :
  m false (escape cs) (reset (escape cs) (mkM prev s idx cap)) k
  = match s with
    | String c (String d tl) =>
        if Ascii.eqb c "\"
        then if is_line_terminator d then None
             else m false (Star true (Class true (map CsChar cs)))
                    (mkM (Some d) tl (S (S idx)) cap) k
        else None
    | _ => None
    end.
Proof.
  assert (Hr : reset (escape cs) (mkM prev s idx cap) = mkM prev s idx cap)
    by reflexivity.
  rewrite Hr. unfold escape. rewrite m_Cat, m_Chr. unfold step1 at 1.
  cbn [m_rest m_idx m_cap]. destruct s as [|c tl]; [reflexivity|].
  unfold chr_eq. rewrite (Ascii.eqb_sym "\" c).
  destruct (Ascii.eqb c "\"); [|destruct tl; reflexivity].
  rewrite m_Cat, m_Dot. unfold step1. cbn [m_rest m_idx m_cap].
  destruct tl as [|d tl]; [reflexivity|].
  destruct (is_line_terminator d); reflexivity.
Qed.

Lemma escapes_fail_on_member k fuel prev c tl idx cap :
  none_of cs c = true ->
  repeat (fun s k' => m false (escape cs) (reset (escape cs) s) k') true
         (fun st' => m false (Group n (Alt (Chr q) Eol)) st' k)
         fuel (mkM prev (String c tl) idx cap) = None.
Proof.
  intros Hc. destruct fuel; cbn [repeat].
  - rewrite close_at, (member_not_quote _ Hc). reflexivity.
  - rewrite escape_at, close_at, (member_not_quote _ Hc),
      (member_not_backslash _ Hc).
    destruct tl; reflexivity.
Qed.

(** The escapes of a segment and its close, read from a place where no run
    is under way. *)
Lemma escapes_read k : forall fuel s prev idx cap,
  String.length s <= fuel ->
  match s with String c _ => none_of cs c = false | "" => True end ->
  repeat (fun s k' => m false (escape cs) (reset (escape cs) s) k') true
         (fun st' => m false (Group n (Alt (Chr q) Eol)) st' k)
         fuel (mkM prev s idx cap)
  = match scan_quoted (none_of cs) q s with
    | Some (v, r) => k (after (mkM prev s idx cap) v r)
    | None => None
    end.
Proof.
  induction fuel as [|fuel IH]; intros s prev idx cap Hlen Hh.
  - destruct s; [|simpl in Hlen; lia]. cbn [repeat]. rewrite close_at. reflexivity.
  - cbn [repeat]. rewrite escape_at, close_at. destruct s as [|c tl]; [reflexivity|].
    cbn [scan_quoted]. rewrite Hh.
    destruct (Ascii.eqb c q) eqn:Eq.
    + (* the closing quote *)
      assert (Ec : Ascii.eqb c "\" = false).
      { apply Ascii.eqb_eq in Eq. subst c. exact Hqb. }
      rewrite Ec. destruct tl; reflexivity.
    + destruct (Ascii.eqb c "\") eqn:Ec; [|destruct tl; reflexivity].
      destruct tl as [|d tl']; [reflexivity|].
      destruct (is_line_terminator d); [reflexivity|].
      rewrite run_exact.
      2:{ intros p c' t' i cp Hc'. cbn [m_idx].
          destruct (i =? idx)%nat; [reflexivity|].
          apply escapes_fail_on_member. exact Hc'. }
      cbn [m_rest]. unfold after at 1. cbn [m_prev m_idx m_cap].
      replace (String.length (take_while (none_of cs) tl') + S (S idx) =? idx)%nat
        with false by (symmetry; apply Nat.eqb_neq; lia).
      unfold after at 1. cbn [m_prev m_idx m_cap].
      rewrite IH.
      * rewrite (scan_run (none_of cs) q tl').
        destruct (scan_quoted (none_of cs) q (drop_while (none_of cs) tl'))
          as [[v r]|]; [|reflexivity].
        assert (He : after (mkM (last_of (Some d) (take_while (none_of cs) tl'))
                                (drop_while (none_of cs) tl')
                                (String.length (take_while (none_of cs) tl') + S (S idx))
                                cap) v r
                     = after (mkM prev (String c (String d tl')) idx cap)
                             (String c (String d (take_while (none_of cs) tl' ++ v))) r).
        { unfold after. cbn [m_prev m_idx m_cap last_of String.length].
          rewrite last_of_append, length_append. f_equal. lia. }
        rewrite He. destruct (k _); reflexivity.
      * pose proof (length_drop_while (none_of cs) tl'). simpl in Hlen. lia.
      * apply drop_while_head.
Qed.

Lemma escaped_body_reads st k :
  m false (escaped_body cs q n) st k
  = match scan_quoted (none_of cs) q (m_rest st) with
    | Some (v, r) => k (after st v r)
    | None => None
    end.
Proof.
  unfold escaped_body. rewrite m_Cat. destruct st as [prev rest idx cap].
  rewrite run_exact.
  2:{ intros p c tl i cp Hc. rewrite m_Cat, m_Star.
      apply escapes_fail_on_member. exact Hc. }
  cbn [m_rest]. rewrite m_Cat, m_Star. unfold after at 1 2.
  cbn [m_prev m_rest m_idx m_cap].
  rewrite escapes_read; [|apply le_n | apply drop_while_head].
  rewrite (scan_run (none_of cs) q rest).
  destruct (scan_quoted (none_of cs) q (drop_while (none_of cs) rest)) as [[v r]|];
    [|reflexivity].
  f_equal. unfold after. cbn [m_prev m_idx m_cap].
  rewrite last_of_append, length_append. f_equal. lia.
Qed.

End Escaped.

(** *** Segments one after the other *)

Lemma after_nothing st : after st "" (m_rest st) = st.
Proof. destruct st. reflexivity. Qed.

Section Segments.

Variable seg : string -> option (string * string).
Variable body : mstate -> cont -> option mstate.
Variable k : cont.

Hypothesis body_reads : forall st k',
  body st k' = match seg (m_rest st) with
               | Some (v, r) => k' (after st v r)
               | None => None
               end.
Hypothesis seg_app : forall s v r, seg s = Some (v, r) -> s = v ++ r.
Hypothesis k_total : total k.

Lemma repeat_segments : forall fuel st,
  String.length (m_rest st) <= fuel ->
  repeat body true k fuel st
  = k (let (more, rest) := read_many seg fuel (m_rest st) in after st more rest).
Proof.
  induction fuel as [|fuel IH]; intros st Hlen.
  - cbn [repeat read_many]. rewrite after_nothing. reflexivity.
  - cbn [repeat read_many]. rewrite body_reads.
    destruct (seg (m_rest st)) as [[v r]|] eqn:Es.
    + destruct v as [|c v].
      * unfold after at 1. cbn [m_idx String.length Nat.add].
        rewrite Nat.eqb_refl, after_nothing. reflexivity.
      * pose proof (seg_app _ _ _ Es) as Happ.
        assert (Hr : String.length r <= fuel).
        { rewrite Happ in Hlen. rewrite length_append in Hlen. simpl in Hlen. lia. }
        assert (Hi : (m_idx (after st (String c v) r) =? m_idx st)%nat = false).
        { apply Nat.eqb_neq. unfold after. simpl. lia. }
        rewrite Hi. rewrite (IH (after st (String c v) r) Hr).
        assert (Hm : m_rest (after st (String c v) r) = r) by reflexivity.
        rewrite Hm. destruct (read_many seg fuel r) as [more rest].
        rewrite after_after.
        destruct (k (after st (String c v ++ more) rest)) eqn:Ek; [reflexivity|].
        exfalso. exact (k_total _ Ek).
    + rewrite after_nothing. reflexivity.
Qed.

End Segments.

(** A first segment and then a greedy repetition of segments. *)
Lemma m_segments first_re seg_re first seg st k :
  (forall st k', m false first_re st k'
                 = match first (m_rest st) with
                   | Some (v, r) => k' (after st v r)
                   | None => None
                   end) ->
  (forall st k', m false seg_re (reset seg_re st) k'
                 = match seg (m_rest st) with
                   | Some (v, r) => k' (after st v r)
                   | None => None
                   end) ->
  (forall s v r, seg s = Some (v, r) -> s = v ++ r) ->
  total k ->
  m false (Cat first_re (Star true seg_re)) st k
  = match read_segments first seg (m_rest st) with
    | Some (v, r) => k (after st v r)
    | None => None
    end.
Proof.
  intros Hf Hs Happ Hk. rewrite m_Cat, Hf. unfold read_segments.
  destruct (first (m_rest st)) as [[v r]|]; [|reflexivity].
  rewrite m_Star.
  rewrite (repeat_segments seg _ k Hs Happ Hk) by apply le_n.
  assert (Hm : m_rest (after st v r) = r) by reflexivity.
  rewrite Hm. destruct (read_many seg (String.length r) r) as [more rest].
  rewrite after_after. reflexivity.
Qed.

(** A greedy repetition of at least one segment. *)
Lemma m_some_segments seg_re seg st k :
  (forall st k', m false seg_re (reset seg_re st) k'
                 = match seg (m_rest st) with
                   | Some (v, r) => k' (after st v r)
                   | None => None
                   end) ->
  (forall s v r, seg s = Some (v, r) -> s = v ++ r) ->
  total k ->
  m false (Plus true seg_re) st k
  = match read_segments seg seg (m_rest st) with
    | Some (v, r) => k (after st v r)
    | None => None
    end.
Proof.
  intros Hs Happ Hk. rewrite m_Plus, Hs. unfold read_segments.
  destruct (seg (m_rest st)) as [[v r]|]; [|reflexivity].
  rewrite (repeat_segments seg _ k Hs Happ Hk) by apply le_n.
  assert (Hm : m_rest (after st v r) = r) by reflexivity.
  rewrite Hm. destruct (read_many seg (String.length r) r) as [more rest].
  rewrite after_after. reflexivity.
Qed.

(** The two kinds of segment. *)
Lemma plain_segment_reads opening q n2 n3 st k :
  (n2 =? 1)%nat = false -> (n3 =? 1)%nat = false ->
  m false (Group n2 (text_then opening (plain_body q n3)))
    (reset (Group n2 (text_then opening (plain_body q n3))) st) k
  = match read_segment opening (none_of [q]) q (m_rest st) with
    | Some (v, r) => k (after st v r)
    | None => None
    end.
Proof.
  intros H2 H3.
  assert (Hc : captures1 (Group n2 (text_then opening (plain_body q n3))) = false).
  { cbn [captures1]. rewrite H2. cbn [orb].
    induction opening as [|c o IH]; cbn [text_then captures1 plain_body orb];
      [rewrite H3; reflexivity | exact IH]. }
  unfold reset. rewrite Hc. rewrite (m_Group_other _ _ _ _ _ H2), m_text_then_plain.
  unfold read_segment. destruct (strip_prefix opening (m_rest st)) as [r0|];
    [|reflexivity].
  rewrite (plain_body_reads q n3 H3). unfold after at 1. cbn [m_rest].
  destruct (scan_quoted (none_of [q]) q r0) as [[v r]|]; [|reflexivity].
  rewrite after_after. reflexivity.
Qed.

Lemma escaped_segment_reads opening cs q n2 n3 st k :
  none_of cs q = false -> none_of cs "\" = false -> Ascii.eqb q "\" = false ->
  (n2 =? 1)%nat = false -> (n3 =? 1)%nat = false ->
  m false (Group n2 (text_then opening (escaped_body cs q n3)))
    (reset (Group n2 (text_then opening (escaped_body cs q n3))) st) k
  = match read_segment opening (none_of cs) q (m_rest st) with
    | Some (v, r) => k (after st v r)
    | None => None
    end.
Proof.
  intros Hq Hb Hqb H2 H3.
  assert (Hc : captures1 (Group n2 (text_then opening (escaped_body cs q n3))) = false).
  { cbn [captures1]. rewrite H2. cbn [orb].
    induction opening as [|c o IH];
      cbn [text_then captures1 escaped_body escape orb];
      [rewrite H3; reflexivity | exact IH]. }
  unfold reset. rewrite Hc. rewrite (m_Group_other _ _ _ _ _ H2), m_text_then_plain.
  unfold read_segment. destruct (strip_prefix opening (m_rest st)) as [r0|];
    [|reflexivity].
  rewrite (escaped_body_reads cs q n3 Hq Hb Hqb H3). unfold after at 1. cbn [m_rest].
  destruct (scan_quoted (none_of cs) q r0) as [[v r]|]; [|reflexivity].
  rewrite after_after. reflexivity.
Qed.

Lemma reset_nothing a st : captures1 a = false -> reset a st = st.
Proof. unfold reset. intros ->. reflexivity. Qed.

(** What the compiled form of a string type reads. *)
Lemma string_item_reads g t st k :
  1 <= g -> total k ->
  m false (string_item g t) st k
  = match read_string t (m_rest st) with
    | Some (v, r) => k (after st v r)
    | None => None
    end.
Proof.
  intros Hg Hk.
  assert (H1 : (S g =? 1)%nat = false) by (apply not_group1; exact Hg).
  assert (H2 : (S (S g) =? 1)%nat = false) by reflexivity.
  assert (H3 : (S (S (S g)) =? 1)%nat = false) by reflexivity.
  assert (H4 : (S (S (S (S g))) =? 1)%nat = false) by reflexivity.
  assert (H5 : (S (S (S (S (S g)))) =? 1)%nat = false) by reflexivity.
  unfold string_item, read_string.
  destruct (t =? "``").
  { rewrite (m_Group_other _ _ _ _ _ H1).
    apply m_some_segments; [|intros s v r; apply read_segment_app | exact Hk].
    intros st' k'. apply plain_segment_reads; assumption. }
  destruct (t =? "[]").
  { rewrite (m_Group_other _ _ _ _ _ H1).
    apply m_segments; [| |intros s v r; apply read_segment_app | exact Hk].
    - intros st' k'.
      rewrite <- (reset_nothing (Group (S (S g)) (text_then "[" (plain_body "]" (S (S (S g))))))
                    st') at 1 by reflexivity.
      apply plain_segment_reads; assumption.
    - intros st' k'. apply plain_segment_reads; assumption. }
  destruct (t =? dquote ++ dquote).
  { rewrite (m_Group_other _ _ _ _ _ H1).
    apply m_some_segments; [|intros s v r; apply read_segment_app | exact Hk].
    intros st' k'. apply escaped_segment_reads; try assumption; reflexivity. }
  destruct (t =? "''").
  { rewrite (m_Group_other _ _ _ _ _ H1).
    apply m_some_segments; [|intros s v r; apply read_segment_app | exact Hk].
    intros st' k'. apply escaped_segment_reads; try assumption; reflexivity. }
  destruct (t =? "N''").
  { rewrite (m_Group_other _ _ _ _ _ H1).
    apply m_some_segments; [|intros s v r; apply read_segment_app | exact Hk].
    intros st' k'. apply escaped_segment_reads; try assumption; reflexivity. }
  cbn [m]. rewrite after_nothing. reflexivity.
Qed.

(** *** The pattern text of strings *)

Section CountedChoice.

Variable enc : string -> string.
Variable count : string -> nat.
Variable terms : nat -> string -> list (regex * bool).
Variable item : nat -> string -> regex.

Hypothesis enc_parse : forall t rest stack kind alts groups,
  parse (enc t ++ rest) (mkP stack (mkFrame kind alts []) groups Normal)
  = parse rest (mkP stack (mkFrame kind alts (terms groups t))
                    (count t + groups) Normal).
Hypothesis terms_item : forall g t, seq_of (terms g t) = item g t.

(** The alternatives of a group whose alternatives open groups of their
    own, up to the closing paren. *)
Lemma parse_counted_choice ts : forall rest parent stack kind alts groups,
  parse (join "|" (map enc ts) ++ String ")" rest)
        (mkP (parent :: stack) (mkFrame kind alts []) groups Normal)
  = parse rest
      (push_term (mkP stack parent (groups_after count groups ts) Normal)
         (match kind with
          | Some n => Group n (alts_of alts (any_of (choice_from item count groups ts)))
          | None => alts_of alts (any_of (choice_from item count groups ts))
          end) true).
Proof.
  induction ts as [|t ts IH]; intros rest parent stack kind alts groups.
  - cbn [map join append]. rewrite parse_close. reflexivity.
  - destruct ts as [|t' ts'].
    + cbn [map join]. rewrite enc_parse, parse_close.
      unfold close_frame. cbn [f_kind f_alts f_seq choice_from any_of groups_after].
      rewrite terms_item. reflexivity.
    + change (join "|" (map enc (t :: t' :: ts')))
        with (enc t ++ "|" ++ join "|" (map enc (t' :: ts'))).
      rewrite !append_assoc. rewrite enc_parse.
      change (parse ("|" ++ join "|" (map enc (t' :: ts')) ++ String ")" rest)
                (mkP (parent :: stack) (mkFrame kind alts (terms groups t))
                     (count t + groups) Normal))
        with (parse (join "|" (map enc (t' :: ts')) ++ String ")" rest)
                (mkP (parent :: stack)
                     (mkFrame kind (seq_of (terms groups t) :: alts) [])
                     (count t + groups) Normal)).
      rewrite IH, terms_item. reflexivity.
Qed.

Hypothesis enc_head : forall t c rest,
  Ascii.eqb c "?" = false ->
  exists c' rest', enc t ++ String c rest = String c' rest'
                   /\ Ascii.eqb c' "?" = false.

Lemma counted_join_head ts rest :
  exists c' rest', join "|" (map enc ts) ++ String ")" rest = String c' rest'
                   /\ Ascii.eqb c' "?" = false.
Proof.
  destruct ts as [|t ts]; [exists ")"%char, rest; auto|].
  destruct ts as [|t' ts'].
  - cbn [map join]. apply enc_head. reflexivity.
  - change (join "|" (map enc (t :: t' :: ts')))
      with (enc t ++ "|" ++ join "|" (map enc (t' :: ts'))).
    rewrite !append_assoc. apply enc_head. reflexivity.
Qed.

Lemma parse_counted_template ts tail :
  parse ("^(" ++ join "|" (map enc ts) ++ String ")" tail)
        (mkP [] (mkFrame None [] []) 0 Normal)
  = parse tail
      (mkP [] (mkFrame None [] [(Group 1 (any_of (choice_from item count 1 ts)), true);
                                (Bol, false)])
           (groups_after count 1 ts) Normal).
Proof.
  destruct (counted_join_head ts tail) as [c' [rest' [Hj Hc]]].
  change ("^(" ++ join "|" (map enc ts) ++ String ")" tail)
    with (String "^" (String "(" (join "|" (map enc ts) ++ String ")" tail))).
  rewrite Hj.
  change (parse (String "^" (String "(" (String c' rest')))
                (mkP [] (mkFrame None [] []) 0 Normal))
    with (parse (String "(" (String c' rest'))
                (mkP [] (mkFrame None [] [(Bol, false)]) 0 Normal)).
  rewrite (parse_open _ _ _ _ _ Hc). rewrite <- Hj.
  cbv [open_group p_stack p_cur p_groups].
  rewrite parse_counted_choice. reflexivity.
Qed.

End CountedChoice.

Lemma parse_string_text t rest stack kind alts groups :
  parse (string_text t ++ rest) (mkP stack (mkFrame kind alts []) groups Normal)
  = parse rest (mkP stack (mkFrame kind alts (string_terms groups t))
                    (string_count t + groups) Normal).
Proof.
  unfold string_text, string_terms, string_count, string_item, patterns.
  destruct (String.eqb_spec t "``") as [->|_]; [reflexivity|].
  destruct (String.eqb_spec t "[]") as [->|_]; [reflexivity|].
  destruct (String.eqb_spec t (dquote ++ dquote)) as [->|_]; [reflexivity|].
  destruct (String.eqb_spec t "''") as [->|_]; [reflexivity|].
  destruct (String.eqb_spec t "N''") as [->|_]; reflexivity.
Qed.

Lemma string_terms_item g t : seq_of (string_terms g t) = string_item g t.
Proof.
  unfold string_terms, string_item, patterns.
  destruct (t =? "``"); [reflexivity|].
  destruct (t =? "[]"); [reflexivity|].
  destruct (t =? dquote ++ dquote); [reflexivity|].
  destruct (t =? "''"); [reflexivity|].
  destruct (t =? "N''"); reflexivity.
Qed.

Lemma string_text_head t c rest :
  Ascii.eqb c "?" = false ->
  exists c' rest', string_text t ++ String c rest = String c' rest'
                   /\ Ascii.eqb c' "?" = false.
Proof.
  intros Hc. unfold string_text, patterns.
  destruct (t =? "``"); [eexists _, _; split; reflexivity|].
  destruct (t =? "[]"); [eexists _, _; split; reflexivity|].
  destruct (t =? dquote ++ dquote); [eexists _, _; split; reflexivity|].
  destruct (t =? "''"); [eexists _, _; split; reflexivity|].
  destruct (t =? "N''"); [eexists _, _; split; reflexivity|].
  exists c, rest. auto.
Qed.

Lemma createStringRegex_compiled types :
  existsb inherited_key types = false ->
  createStringRegex (Some types) = Ok (string_re types).
Proof.
  intros Hk. unfold createStringRegex, createStringPattern, defined.
  cbn [JS.bind]. rewrite Hk. cbn [JS.bind].
  unfold RegExp.new. cbn [parse_flags JS.bind fst snd].
  change (")") with (String ")" "").
  change (fun t : string => match patterns t with Some p => p | None => "" end)
    with string_text.
  rewrite (parse_counted_template string_text string_count string_terms string_item
             parse_string_text string_terms_item string_text_head).
  unfold string_re.
  generalize (any_of (choice_from string_item string_count 1 types)). intros r.
  reflexivity.
Qed.

(** *** Runs of the matcher on strings *)

Lemma read_many_app seg :
  (forall s v r, seg s = Some (v, r) -> s = v ++ r) ->
  forall fuel s more rest, read_many seg fuel s = (more, rest) -> s = more ++ rest.
Proof.
  intros Happ. induction fuel as [|fuel IH]; intros s more rest H.
  - cbn [read_many] in H. injection H as <- <-. reflexivity.
  - cbn [read_many] in H. destruct (seg s) as [[v r]|] eqn:Es.
    + destruct v as [|c v]; [injection H as <- <-; reflexivity|].
      destruct (read_many seg fuel r) as [more' rest'] eqn:Em.
      injection H as <- <-. rewrite (Happ _ _ _ Es), (IH _ _ _ Em).
      cbn [append]. rewrite append_assoc. reflexivity.
    + injection H as <- <-. reflexivity.
Qed.

Lemma read_segments_app first seg s v r :
  (forall s v r, first s = Some (v, r) -> s = v ++ r) ->
  (forall s v r, seg s = Some (v, r) -> s = v ++ r) ->
  read_segments first seg s = Some (v, r) -> s = v ++ r.
Proof.
  intros Hf Hs. unfold read_segments.
  destruct (first s) as [[v0 r0]|] eqn:Ef; [|discriminate].
  destruct (read_many seg (String.length r0) r0) as [more rest] eqn:Em.
  intros H. injection H as <- <-.
  rewrite (Hf _ _ _ Ef), (read_many_app seg Hs _ _ _ _ Em), append_assoc.
  reflexivity.
Qed.

Lemma read_string_app t s v r : read_string t s = Some (v, r) -> s = v ++ r.
Proof.
  unfold read_string.
  destruct (t =? "``");
    [apply read_segments_app; intros s' v' r'; apply read_segment_app|].
  destruct (t =? "[]");
    [apply read_segments_app; intros s' v' r'; apply read_segment_app|].
  destruct (t =? dquote ++ dquote);
    [apply read_segments_app; intros s' v' r'; apply read_segment_app|].
  destruct (t =? "''");
    [apply read_segments_app; intros s' v' r'; apply read_segment_app|].
  destruct (t =? "N''");
    [apply read_segments_app; intros s' v' r'; apply read_segment_app|].
  intros H. injection H as <- <-. reflexivity.
Qed.

(** The ordered choice of the string types takes the first type that
    reads something. *)
Lemma m_choice_from ts : forall t g st k,
  1 <= g -> total k ->
  m false (any_of (choice_from string_item string_count g (t :: ts))) st k
  = first_success (t :: ts)
      (fun t => match read_string t (m_rest st) with
                | Some (v, r) => k (after st v r)
                | None => None
                end).
Proof.
  induction ts as [|t' ts IH]; intros t g st k Hg Hk.
  - cbn [choice_from any_of first_success]. rewrite (string_item_reads _ _ _ _ Hg Hk).
    destruct (read_string t (m_rest st)) as [[v r]|]; [|reflexivity].
    destruct (k (after st v r)); reflexivity.
  - change (any_of (choice_from string_item string_count g (t :: t' :: ts)))
      with (Alt (string_item g t)
                (any_of (choice_from string_item string_count
                           (string_count t + g) (t' :: ts)))).
    cbn [m first_success]. rewrite (string_item_reads _ _ _ _ Hg Hk).
    rewrite IH by (assumption || lia). reflexivity.
Qed.

Lemma capture_all_total : total capture_all.
Proof. intros st. discriminate. Qed.

Lemma string_reads types input :
  getTokenOnFirstMatch input STRING (Some (string_re types))
  = match read_string_token types input with
    | Some v => Some (found STRING v)
    | None => None
    end.
Proof.
  unfold read_string_token.
  set (ts := match types with [] => [""] | _ :: _ => types end).
  set (F := fun t => match read_string t input with
                     | Some (v, r) => capture_all (after (mkM None input 0 None) v r)
                     | None => None
                     end).
  apply (getTokenOnFirstMatch_run input STRING (string_re types)
           (Group 1 (any_of (choice_from string_item string_count 1 types))) F).
  - reflexivity.
  - cbn [string_re ignoreCase]. rewrite m_Group.
    change (fun st' : mstate =>
              Some (if (1 =? 1)%nat then set_cap st' (m_idx (mkM None input 0 None))
                                           (m_idx st') else st'))
      with capture_all.
    destruct types as [|t more].
    + subst ts F. cbn [choice_from any_of first_success m read_string].
      reflexivity.
    + subst ts. rewrite (m_choice_from more t 1 _ capture_all (le_n 1) capture_all_total).
      reflexivity.
  - intros t. subst F. cbv beta.
    destruct (read_string t input) as [[v r]|] eqn:Er; [|reflexivity].
    eexists. split; [reflexivity|].
    unfold result_of, capture_all, after. cbn [group1 set_cap m_cap m_idx]. f_equal.
    apply read_string_app in Er. subst input. apply take_of_append. lia.
Qed.

Lemma new_strings cfg this types :
  Lexer.new cfg = Ok this ->
  stringTypes cfg = Some types ->
  STRING_REGEX this = Some (string_re types).
Proof.
  intros Hnew Ht.
  destruct (new_inv _ _ Hnew) as
    (_ & _ & _ & _ & _ & _ & _ & _ & _ & (re & E & F) & _ & _ & _ & _
     & (p & Ep & _)).
  rewrite Ht in E, Ep. unfold createStringPattern in Ep. cbn [defined JS.bind] in Ep.
  destruct (existsb inherited_key types) eqn:Hk; [discriminate Ep|].
  rewrite (createStringRegex_compiled _ Hk) in E. injection E as <-. exact F.
Qed.

(** *** Single-quoted strings *)

Lemma scan_open cls q b :
  all_of cls b = true -> scan_quoted cls q b = Some (b, "").
Proof.
  unfold all_of. induction b as [|c b IH]; [reflexivity|].
  cbn [list_ascii_of_string forallb scan_quoted]. intros H.
  apply andb_true_iff in H. destruct H as [Hc Hb]. rewrite Hc, (IH Hb). reflexivity.
Qed.

Lemma scan_closed cls q b r :
  all_of cls b = true -> cls q = false ->
  scan_quoted cls q (b ++ String q r) = Some (b ++ String q "", r).
Proof.
  unfold all_of. intros Hb Hq. induction b as [|c b IH].
  - cbn [append scan_quoted]. rewrite Hq, Ascii.eqb_refl. reflexivity.
  - cbn [list_ascii_of_string forallb] in Hb. apply andb_true_iff in Hb.
    destruct Hb as [Hc Hb]. cbn [append scan_quoted]. rewrite Hc, (IH Hb).
    reflexivity.
Qed.

Lemma scan_escape cls q b d r :
  all_of cls b = true -> cls "\"%char = false -> Ascii.eqb "\" q = false ->
  is_line_terminator d = false ->
  scan_quoted cls q (b ++ String "\" (String d r))
  = match scan_quoted cls q r with
    | Some (v, r') => Some (b ++ String "\" (String d v), r')
    | None => None
    end.
Proof.
  unfold all_of. intros Hb Hs Hq Hd. induction b as [|c b IH].
  - cbn [append scan_quoted]. rewrite Hs, Hq, Hd. cbn [Ascii.eqb Bool.eqb].
    destruct (scan_quoted cls q r) as [[v r']|]; reflexivity.
  - cbn [list_ascii_of_string forallb] in Hb. apply andb_true_iff in Hb.
    destruct Hb as [Hc Hb]. cbn [append scan_quoted]. rewrite Hc, (IH Hb).
    destruct (scan_quoted cls q r) as [[v r']|]; reflexivity.
Qed.

Lemma read_string_single s :
  read_string "''" s = read_segments single_quoted single_quoted s.
Proof. reflexivity. Qed.

Lemma single_quoted_at s :
  single_quoted (String "'" s)
  = match scan_quoted (none_of ["'"%char; "\"%char]) "'" s with
    | Some (v, r) => Some (String "'" v, r)
    | None => None
    end.
Proof. reflexivity. Qed.

Lemma single_quoted_none s :
  strip_prefix "'" s = None -> single_quoted s = None.
Proof. unfold single_quoted, read_segment. intros ->. reflexivity. Qed.

Lemma append_nothing s : s ++ "" = s.
Proof. induction s as [|c s IH]; [reflexivity|]. cbn [append]. rewrite IH. reflexivity. Qed.

Lemma read_many_one seg c v r fuel s :
  seg s = Some (String c v, r) -> seg r = None ->
  read_many seg (S fuel) s = (String c v, r).
Proof.
  intros Hs Hr. cbn [read_many]. rewrite Hs.
  destruct fuel; cbn [read_many]; rewrite ?Hr, append_nothing; reflexivity.
Qed.

(** *** String-named placeholders *)

Lemma parse_open_noncapturing rest stack cur groups :
  parse ("(?:" ++ rest) (mkP stack cur groups Normal)
  = parse rest (mkP (cur :: stack) (mkFrame None [] []) groups Normal).
Proof. reflexivity. Qed.

Lemma createPlaceholderRegex_strings t types stringTypes :
  createPlaceholderRegex (Some (t :: types))
    (Some (join "|" (map string_text stringTypes)))
  = Ok (Some (string_placeholder_re (t :: types) stringTypes)).
Proof.
  unfold createPlaceholderRegex. cbn [isEmpty defined JS.bind interpolate].
  unfold RegExp.new. cbn [parse_flags JS.bind fst snd].
  change (")(?:" ++ join "|" (map string_text stringTypes) ++ "))")
    with (")" ++ "(?:" ++ join "|" (map string_text stringTypes) ++ String ")" ")").
  rewrite parse_types_template, parse_open_noncapturing.
  rewrite (parse_counted_choice string_text string_count string_terms string_item
             parse_string_text string_terms_item).
  unfold string_placeholder_re.
  generalize (any_of (choice_from string_item string_count 1 stringTypes)).
  generalize (any_of (map text (t :: types))). intros r1 r2. reflexivity.
Qed.

Lemma first_string_reads st k : total k -> forall ts,
  match first_success ts (fun t => match read_string t (m_rest st) with
                                   | Some (v, _) => Some v
                                   | None => None
                                   end) with
  | Some v =>
      exists r, m_rest st = v ++ r
                /\ first_success ts
                     (fun t => match read_string t (m_rest st) with
                               | Some (v, r) => k (after st v r)
                               | None => None
                               end) = k (after st v r)
  | None =>
      first_success ts
        (fun t => match read_string t (m_rest st) with
                  | Some (v, r) => k (after st v r)
                  | None => None
                  end) = None
  end.
Proof.
  intros Hk. induction ts as [|t ts IH]; [reflexivity|].
  cbn [first_success]. destruct (read_string t (m_rest st)) as [[v r]|] eqn:Er.
  - exists r. split; [exact (read_string_app _ _ _ _ Er)|].
    destruct (k (after st v r)) eqn:Ek; [reflexivity|]. exfalso. exact (Hk _ Ek).
  - exact IH.
Qed.

(** The choice of the string types, wherever it stands in a pattern. *)
Lemma string_choice_reads types st k :
  total k ->
  match read_string_token types (m_rest st) with
  | Some v =>
      exists r, m_rest st = v ++ r
                /\ m false (any_of (choice_from string_item string_count 1 types)) st k
                   = k (after st v r)
  | None =>
      m false (any_of (choice_from string_item string_count 1 types)) st k = None
  end.
Proof.
  intros Hk. unfold read_string_token. destruct types as [|t more].
  - cbn [first_success read_string String.eqb]. exists (m_rest st).
    split; [reflexivity|]. rewrite after_nothing. reflexivity.
  - rewrite (m_choice_from more t 1 st k (le_n 1) Hk).
    exact (first_string_reads st k Hk (t :: more)).
Qed.

Lemma string_placeholder_reads t0 ts stringTypes input :
  getTokenOnFirstMatch input PLACEHOLDER
    (Some (string_placeholder_re (t0 :: ts) stringTypes))
  = match read_string_placeholder (t0 :: ts) stringTypes input with
    | Some v => Some (found PLACEHOLDER v)
    | None => None
    end.
Proof.
  unfold string_placeholder_re, read_string_placeholder.
  apply getTokenOnFirstMatch_choice. intros t. rewrite m_text. cbn [m_rest].
  destruct (strip_prefix t input) as [r|] eqn:Es; [|reflexivity].
  pose proof (string_choice_reads stringTypes (after (mkM None input 0 None) t r)
                capture_all capture_all_total) as H.
  cbn [after m_rest] in H.
  destruct (read_string_token stringTypes r) as [v|].
  - destruct H as [r' [Hr Hm]]. eexists. split; [exact Hm|].
    unfold result_of, capture_all, after. cbn [group1 set_cap m_cap m_idx]. f_equal.
    apply strip_prefix_app in Es. subst input r.
    rewrite <- append_assoc. apply take_of_append. rewrite length_append. lia.
  - exact H.
Qed.

Lemma new_string_placeholder cfg this t0 ts stringTypes0 :
  Lexer.new cfg = Ok this ->
  namedPlaceholderTypes cfg = Some (t0 :: ts) ->
  stringTypes cfg = Some stringTypes0 ->
  STRING_NAMED_PLACEHOLDER_REGEX this
  = Some (string_placeholder_re (t0 :: ts) stringTypes0).
Proof.
  intros Hnew Hn Hs.
  destruct (new_inv _ _ Hnew) as
    (_ & _ & _ & _ & _ & _ & _ & _ & _ & _ & _ & _ & _ & _ & (p & Ep & E)).
  rewrite Hs in Ep. unfold createStringPattern in Ep. cbn [defined JS.bind] in Ep.
  destruct (existsb inherited_key stringTypes0); [discriminate Ep|].
  injection Ep as <-. rewrite Hn in E.
  change (fun t : string => match patterns t with Some p => p | None => "" end)
    with string_text in E.
  rewrite createPlaceholderRegex_strings in E. injection E as <-. reflexivity.
Qed.

End ReadingFacts.

(* ================================================================== *)
(** ** Further behaviour of the lexer

    What the constructor, the classifiers and the loop of [tokenize] do,
    read off the code of [Tokenizer]. *)

Module LexerBehaviour.
Import RegExp Shape Example Reading RegExpFacts Lexer LexerFacts ReadingFacts.

(** *** The constructor *)

(** X1.  The constructor succeeds only for a configuration that has the
    seven lists it maps over or joins: the line-comment prefixes, the three
    lists of reserved words, the string types and the two lists of parens. *)
Theorem constructor_needs_lists cfg this :
  Lexer.new cfg = Ok this ->
  lineCommentTypes cfg <> None
  /\ reservedToplevelWords cfg <> None
  /\ reservedNewlineWords cfg <> None
  /\ reservedWords cfg <> None
  /\ stringTypes cfg <> None
  /\ openParens cfg <> None
  /\ closeParens cfg <> None.
Proof.
  intros Hnew.
  destruct (new_inv _ _ Hnew) as
    (_ & _ & _ & _ & (r1 & E1 & _) & (r2 & E2 & _) & (r3 & E3 & _)
     & (r4 & E4 & _) & _ & (r6 & E6 & _) & (r7 & E7 & _) & (r8 & E8 & _) & _).
  repeat split; intros Hn.
  - rewrite Hn in E1. discriminate E1.
  - rewrite Hn in E2. discriminate E2.
  - rewrite Hn in E3. discriminate E3.
  - rewrite Hn in E4. discriminate E4.
  - rewrite Hn in E6. discriminate E6.
  - rewrite Hn in E7. discriminate E7.
  - rewrite Hn in E8. discriminate E8.
Qed.

Lemma constructor_needs_lists_witness :
  exists this,
    Lexer.new Dialect.sql = Ok this
    /\ lineCommentTypes Dialect.sql <> None
    /\ reservedToplevelWords Dialect.sql <> None
    /\ reservedNewlineWords Dialect.sql <> None
    /\ reservedWords Dialect.sql <> None
    /\ stringTypes Dialect.sql <> None
    /\ openParens Dialect.sql <> None
    /\ closeParens Dialect.sql <> None.
Proof.
  eexists. split; [vm_compute; reflexivity|].
  exact (constructor_needs_lists Dialect.sql _ ltac:(vm_compute; reflexivity)).
Defined.

(** X2.  Without the list of line-comment prefixes, or without the list of
    top-level reserved words, the constructor raises [TypeError], whatever
    the rest of the configuration: the line-comment pattern is built first
    and cannot fail otherwise, and the top-level reserved words come
    next. *)
Theorem constructor_raises_without_list cfg :
  lineCommentTypes cfg = None \/ reservedToplevelWords cfg = None ->
  Lexer.new cfg = Throw TypeError.
Proof.
  intros H. unfold Lexer.new.
  rewrite new_whitespace, new_number, new_operator, new_block_comment.
  cbn [JS.bind]. destruct (lineCommentTypes cfg) as [types|]; [|reflexivity].
  destruct H as [H|H]; [discriminate|].
  rewrite createLineCommentRegex_compiled. cbn [JS.bind]. rewrite H. reflexivity.
Qed.

Lemma constructor_raises_without_list_witness :
  Lexer.new (Dialect.with_lineCommentTypes Dialect.sql None) = Throw TypeError.
Proof.
  exact (constructor_raises_without_list
           (Dialect.with_lineCommentTypes Dialect.sql None) (or_introl eq_refl)).
Defined.

(** X3.  The prefixes of line comments and of indexed placeholders go
    through [escapeRegExp]: whatever characters they contain, the pattern
    is a regular expression, in which each prefix is matched as the literal
    text it is, the prefixes being tried in the order of the list. *)
Theorem escaped_prefixes_are_literal types :
  createLineCommentRegex (Some types) = Ok (line_comment_re types)
  /\ forall t,
       createPlaceholderRegex (Some (t :: types)) (Some "[0-9]*")
       = Ok (Some (indexed_placeholder_re (t :: types))).
Proof.
  split; [apply createLineCommentRegex_compiled|].
  intros t. apply createPlaceholderRegex_indexed.
Qed.

(** *** Line comments *)

(** X4.  The line-comment classifier takes the first prefix of the list
    that starts the input, and the text after it up to and including the
    first line feed, or up to the end of the input.  A prefix whose line
    runs into a carriage return is passed over; with an empty list of
    prefixes every line is a comment. *)
Theorem getLineCommentToken_reads cfg this types input :
  Lexer.new cfg = Ok this ->
  lineCommentTypes cfg = Some types ->
  getLineCommentToken this input
  = match read_line_comment types input with
    | Some v => Some (found LINE_COMMENT v)
    | None => None
    end.
Proof.
  intros Hnew Hl. unfold getLineCommentToken.
  rewrite (new_line_comment _ _ _ Hnew Hl). apply line_comment_reads.
Qed.

Lemma getLineCommentToken_reads_witness :
  exists this,
    Lexer.new Dialect.sql = Ok this
    /\ getLineCommentToken this ("-- a" ++ newline ++ "b")
       = Some (found LINE_COMMENT ("-- a" ++ newline)).
Proof.
  eexists. split; [vm_compute; reflexivity|].
  exact (getLineCommentToken_reads Dialect.sql _ ["#"; "--"] ("-- a" ++ newline ++ "b")
           ltac:(vm_compute; reflexivity) eq_refl).
Defined.

(** X5.  A line whose first line terminator is a carriage return is not a
    line comment: neither [.] nor the end of the pattern accepts the
    carriage return, so a comment line that ends in CR LF is left to the
    other classifiers. *)
Theorem line_comment_stops_at_carriage_return cfg this types input :
  Lexer.new cfg = Ok this ->
  lineCommentTypes cfg = Some types ->
  (forall t, In t types ->
     all_of (fun c => negb (is_line_terminator c)) t = true) ->
  line_end input = None ->
  getLineCommentToken this input = None.
Proof.
  intros Hnew Hl Ht Hcr. unfold getLineCommentToken.
  rewrite (new_line_comment _ _ _ Hnew Hl), line_comment_reads.
  unfold read_line_comment. rewrite first_success_none; [reflexivity|].
  intros t Hin.
  destruct (strip_prefix t input) as [r|] eqn:Es; [|reflexivity].
  assert (Hp : all_of (fun c => negb (is_line_terminator c)) t = true).
  { destruct types as [|t0 ts]; [|exact (Ht t Hin)].
    destruct Hin as [<-|[]]. reflexivity. }
  rewrite (strip_prefix_terminated t input r Hp Es Hcr). reflexivity.
Qed.

Lemma line_comment_stops_at_carriage_return_witness :
  exists this,
    Lexer.new Dialect.sql = Ok this
    /\ getLineCommentToken this ("-- a" ++ String CR newline ++ "b") = None.
Proof.
  eexists. split; [vm_compute; reflexivity|].
  refine (line_comment_stops_at_carriage_return Dialect.sql _ ["#"; "--"]
            ("-- a" ++ String CR newline ++ "b")
            ltac:(vm_compute; reflexivity) eq_refl _ eq_refl).
  intros t [<-|[<-|[]]]; reflexivity.
Defined.

(** *** White space *)

(** X6.  The white-space classifier takes the longest run of white-space
    characters at the start of the input, and nothing when the input does
    not start with one. *)
Theorem getWhitespaceToken_reads cfg this input :
  Lexer.new cfg = Ok this ->
  getWhitespaceToken this input
  = match read_whitespace input with
    | Some v => Some (found WHITESPACE v)
    | None => None
    end.
Proof.
  intros Hnew. destruct (new_inv _ _ Hnew) as (Hw & _).
  unfold getWhitespaceToken. rewrite Hw. apply whitespace_reads.
Qed.

Lemma getWhitespaceToken_reads_witness :
  exists this,
    Lexer.new Dialect.sql = Ok this
    /\ getWhitespaceToken this ("  " ++ newline ++ "a b")
       = Some (found WHITESPACE ("  " ++ newline)).
Proof.
  eexists. split; [vm_compute; reflexivity|].
  exact (getWhitespaceToken_reads Dialect.sql _ ("  " ++ newline ++ "a b")
           ltac:(vm_compute; reflexivity)).
Defined.

(** X7.  An input that consists of white space only is one white-space
    token, in every dialect. *)
Theorem tokenize_whitespace cfg this input :
  Lexer.new cfg = Ok this ->
  input <> "" ->
  all_of is_space input = true ->
  tokenize this input
    [mkToken WHITESPACE (Some input) None (Some (0, String.length input))].
Proof.
  intros Hnew Hne Hs. destruct (new_inv _ _ Hnew) as (Hw & _).
  assert (Hnext : getNextToken this input None = Ok (Some (found WHITESPACE input))).
  { unfold getNextToken, or_else_r, getWhitespaceToken. rewrite Hw, whitespace_reads.
    unfold read_whitespace. rewrite (take_while_whole _ _ Hs).
    destruct input; [congruence | reflexivity]. }
  exists 1. unfold tokenize_within. destruct input as [|c s]; [congruence|].
  cbn [tokenize_loop]. rewrite Hnext. cbn [found value type key].
  unfold substring_from. rewrite drop_all. reflexivity.
Qed.

Lemma tokenize_whitespace_witness :
  exists this,
    Lexer.new Dialect.sql = Ok this
    /\ tokenize this (" " ++ newline)
         [mkToken WHITESPACE (Some (" " ++ newline)) None (Some (0, 2))].
Proof.
  eexists. split; [vm_compute; reflexivity|].
  refine (tokenize_whitespace Dialect.sql _ (" " ++ newline)
            ltac:(vm_compute; reflexivity) _ eq_refl).
  discriminate.
Defined.

(** *** Indexed placeholders *)

(** X8.  The indexed-placeholder classifier takes the first prefix of the
    list that starts the input, and the digits after it, if any; the key of
    the token is its value without the first character. *)
Theorem getIndexedPlaceholderToken_reads cfg this t0 ts input :
  Lexer.new cfg = Ok this ->
  indexedPlaceholderTypes cfg = Some (t0 :: ts) ->
  getIndexedPlaceholderToken this input
  = Ok (match read_indexed_placeholder (t0 :: ts) input with
        | Some v => Some (mkToken PLACEHOLDER (Some v) (Some (drop 1 v)) None)
        | None => None
        end).
Proof.
  intros Hnew Hi. unfold getIndexedPlaceholderToken, getPlaceholderTokenWithKey.
  rewrite (new_indexed_placeholder _ _ _ _ Hnew Hi), indexed_placeholder_reads.
  destruct (read_indexed_placeholder (t0 :: ts) input) as [v|]; [|reflexivity].
  cbn [found value defined JS.bind type position]. rewrite slice_from_1. reflexivity.
Qed.

Lemma getIndexedPlaceholderToken_reads_witness :
  exists this,
    Lexer.new Dialect.sql = Ok this
    /\ getIndexedPlaceholderToken this "?12 = x"
       = Ok (Some (mkToken PLACEHOLDER (Some "?12") (Some "12") None)).
Proof.
  eexists. split; [vm_compute; reflexivity|].
  exact (getIndexedPlaceholderToken_reads Dialect.sql _ "?" [] "?12 = x"
           ltac:(vm_compute; reflexivity) eq_refl).
Defined.

(** *** Operators *)

(** X9.  The operator classifier takes the first operator of its list that
    starts the input (a longer operator is listed before its prefixes), and
    otherwise the first character of the input, unless that is a line
    terminator. *)
Theorem getOperatorToken_reads cfg this input :
  Lexer.new cfg = Ok this ->
  getOperatorToken this input
  = match read_operator input with
    | Some v => Some (found OPERATOR v)
    | None => None
    end.
Proof.
  intros Hnew. destruct (new_inv _ _ Hnew) as (_ & _ & Ho & _).
  unfold getOperatorToken. rewrite Ho. apply operator_reads.
Qed.

Lemma getOperatorToken_reads_witness :
  exists this,
    Lexer.new Dialect.sql = Ok this
    /\ getOperatorToken this "<=> 1" = Some (found OPERATOR "<=").
Proof.
  eexists. split; [vm_compute; reflexivity|].
  exact (getOperatorToken_reads Dialect.sql _ "<=> 1" ltac:(vm_compute; reflexivity)).
Defined.

(** *** Numbers *)

(** X10.  A number token starts with a digit: an input that starts with
    anything else, a sign or a dot included, is not a number. *)
Theorem getNumberToken_needs_digit cfg this input :
  Lexer.new cfg = Ok this ->
  take_while is_digit input = "" ->
  getNumberToken this input = None.
Proof.
  intros Hnew H. destruct (new_inv _ _ Hnew) as (_ & Hn & _).
  unfold getNumberToken. rewrite Hn. apply number_needs_digit. exact H.
Qed.

Lemma getNumberToken_needs_digit_witness :
  exists this,
    Lexer.new Dialect.sql = Ok this /\ getNumberToken this "-1" = None.
Proof.
  eexists. split; [vm_compute; reflexivity|].
  exact (getNumberToken_needs_digit Dialect.sql _ "-1"
           ltac:(vm_compute; reflexivity) eq_refl).
Defined.

(** X11.  A run of digits followed by the end of the input, or by a
    character that is neither a word character nor a dot, is a number token
    made of exactly these digits. *)
Theorem getNumberToken_integer cfg this digits rest :
  Lexer.new cfg = Ok this ->
  digits <> "" ->
  all_of is_digit digits = true ->
  ends_number rest = true ->
  getNumberToken this (digits ++ rest) = Some (found NUMBER digits).
Proof.
  intros Hnew Hne Hd Hr. destruct (new_inv _ _ Hnew) as (_ & Hn & _).
  unfold getNumberToken. rewrite Hn. apply number_reads_integer; assumption.
Qed.

Lemma getNumberToken_integer_witness :
  exists this,
    Lexer.new Dialect.sql = Ok this
    /\ getNumberToken this "42)" = Some (found NUMBER "42").
Proof.
  eexists. split; [vm_compute; reflexivity|].
  refine (getNumberToken_integer Dialect.sql _ "42" ")"
            ltac:(vm_compute; reflexivity) _ eq_refl eq_refl).
  discriminate.
Defined.

(** *** Quoted placeholder names *)

(** X12.  For a quote character that is not regular-expression syntax (the
    single, double and back quote among them) and for the closing bracket,
    [getEscapedPlaceholderKey] replaces every backslash followed by the
    quote character by the quote character, and leaves the rest of the key
    as it is. *)
Theorem getEscapedPlaceholderKey_decodes q key :
  is_regexp_char q = false \/ q = "]"%char ->
  getEscapedPlaceholderKey key (String q "") = Ok (unescape_quote q key).
Proof.
  intros Hq. unfold getEscapedPlaceholderKey. rewrite (new_escaped q Hq).
  cbn [JS.bind]. unfold replace. f_equal.
  eapply replace_from_unescape_quote. apply le_n.
Qed.

Lemma getEscapedPlaceholderKey_decodes_witness :
  getEscapedPlaceholderKey "a\`b\c" "`" = Ok "a`b\c".
Proof.
  exact (getEscapedPlaceholderKey_decodes "`" "a\`b\c" (or_introl eq_refl)).
Defined.

(** X13.  The quote character goes into the pattern as it is: with [(],
    [)], [[] or a backslash for quote character [getEscapedPlaceholderKey]
    raises [SyntaxError], whatever the key. *)
Theorem getEscapedPlaceholderKey_raises key :
  getEscapedPlaceholderKey key "(" = Throw SyntaxError
  /\ getEscapedPlaceholderKey key ")" = Throw SyntaxError
  /\ getEscapedPlaceholderKey key "[" = Throw SyntaxError
  /\ getEscapedPlaceholderKey key "\" = Throw SyntaxError.
Proof. repeat split. Qed.

(** *** The tokens of a result *)

(** X14.  Every token [tokenize] returns has a value and a position range
    as long as the value, and it has a key if and only if it is a
    placeholder. *)
Theorem tokenize_tokens_well_formed this input tokens :
  tokenize this input tokens -> Forall well_formed tokens.
Proof.
  intros [fuel H]. unfold tokenize_within in H.
  destruct (tokenize_loop_each this (fun _ t => well_formed t)) with
    (fuel := fuel) (input := input) (token := @None IToken) (lastPosition := 0)
    (tokens := @nil IToken) (out := tokens) as [new [Hout Hnew]]; [|exact H|].
  - intros inp prev t v pos Hn Hv. exists v, pos. cbn [value position key type].
    split; [exact Hv|]. split; [reflexivity|]. exact (getNextToken_key _ _ _ _ Hn).
  - simpl in Hout. subst new. exact (each_after_Forall _ _ _ Hnew).
Qed.

Lemma tokenize_tokens_well_formed_witness :
  exists this,
    Lexer.new Dialect.sql = Ok this
    /\ Forall well_formed
         [mkToken PLACEHOLDER (Some "?1") (Some "1") (Some (0, 2));
          mkToken OPERATOR (Some "=") None (Some (2, 3))].
Proof.
  destruct (Lexer.new Dialect.sql) as [this|e] eqn:E;
    [|vm_compute in E; discriminate].
  exists this. split; [reflexivity|].
  apply (tokenize_tokens_well_formed this "?1=").
  vm_compute in E. injection E as <-. exists 2. vm_compute. reflexivity.
Defined.

(** X15.  With anchored patterns that cannot match the empty text, no
    token of a result has the empty value, and a result has at most as many
    tokens as the input has characters. *)
Theorem tokenize_no_empty_token this input tokens :
  anchored_patterns this = true ->
  productive_patterns this = true ->
  tokenize this input tokens ->
  Forall (fun t => value t <> Some "") tokens
  /\ length tokens <= String.length input.
Proof.
  intros Ha Hp Ht.
  assert (Hv : Forall (fun t => value t <> Some "") tokens).
  { destruct Ht as [fuel H]. unfold tokenize_within in H.
    destruct (tokenize_loop_each this (fun _ t => value t <> Some "")) with
      (fuel := fuel) (input := input) (token := @None IToken) (lastPosition := 0)
      (tokens := @nil IToken) (out := tokens) as [new [Hout Hnew]]; [|exact H|].
    - intros inp prev t v pos Hn Hv. cbn [value].
      destruct (getNextToken_cut _ _ _ _ Ha Hn) as [v' [rest [Hv' [_ Hne]]]].
      rewrite Hv'. intros Heq. inversion Heq. exact (Hne Hp H1).
    - simpl in Hout. subst new. exact (each_after_Forall _ _ _ Hnew). }
  split; [exact Hv|].
  destruct (tokenize_covers this input tokens Ha Ht) as [vs [Hvs [Hcat _]]].
  rewrite <- Hcat. rewrite (Forall2_length Hvs). apply concat_length.
  clear Hcat Ht. induction Hvs as [|t v ts vs Htv _ IH]; [constructor|].
  inversion Hv; subst. constructor; [|exact (IH H2)].
  intros ->. congruence.
Qed.

Lemma tokenize_no_empty_token_witness :
  exists this,
    Lexer.new Dialect.sql = Ok this
    /\ Forall (fun t => value t <> Some "")
         [mkToken PLACEHOLDER (Some "?1") (Some "1") (Some (0, 2));
          mkToken OPERATOR (Some "=") None (Some (2, 3))]
    /\ 2 <= 3.
Proof.
  destruct (Lexer.new Dialect.sql) as [this|e] eqn:E;
    [|vm_compute in E; discriminate].
  exists this. split; [reflexivity|].
  apply (tokenize_no_empty_token this "?1=");
    vm_compute in E; injection E as <-.
  - vm_compute. reflexivity.
  - vm_compute. reflexivity.
  - exists 2. vm_compute. reflexivity.
Defined.

(** X16.  On a non-empty input [getNextToken] never returns [null]: a
    constructed tokenizer has the white-space pattern and the operator
    pattern, and every character is taken by one of the two. *)
Theorem getNextToken_finds_token cfg this c s previousToken :
  Lexer.new cfg = Ok this ->
  getNextToken this (String c s) previousToken <> Ok None.
Proof.
  intros Hnew H. destruct (new_inv _ _ Hnew) as (Hw & _ & Ho & _).
  apply getNextToken_none in H. destruct H as [H1 H2].
  destruct (some_classifier_matches this c s Hw Ho); congruence.
Qed.

Lemma getNextToken_finds_token_witness :
  exists this,
    Lexer.new Dialect.sql = Ok this /\ getNextToken this "~" None <> Ok None.
Proof.
  eexists. split; [vm_compute; reflexivity|].
  exact (getNextToken_finds_token Dialect.sql _ "~" "" None
           ltac:(vm_compute; reflexivity)).
Defined.

(** X17.  In a result of [tokenize], the token that follows a token with
    the value [.] is never a reserved word of any of the three kinds. *)
Theorem no_reserved_token_after_dot this input tokens l1 a b l2 :
  tokenize this input tokens ->
  tokens = (l1 ++ a :: b :: l2)%list ->
  value a = Some "." ->
  is_reserved (type b) = false.
Proof.
  intros [fuel H] Heq Ha. unfold tokenize_within in H.
  destruct (tokenize_loop_each this
              (fun prev t => preceded_by_dot prev = true
                             -> is_reserved (type t) = false)) with
    (fuel := fuel) (input := input) (token := @None IToken) (lastPosition := 0)
    (tokens := @nil IToken) (out := tokens) as [new [Hout Hnew]]; [|exact H|].
  - intros inp prev t v pos Hn Hv Hd. cbn [type].
    exact (LexerClaims.no_reserved_word_after_dot _ _ _ _ Hd Hn).
  - simpl in Hout. subst new.
    apply (each_after_adjacent _ _ _ _ _ _ _ Hnew Heq).
    unfold preceded_by_dot. rewrite Ha. reflexivity.
Qed.

Lemma no_reserved_token_after_dot_witness :
  exists this,
    Lexer.new Dialect.sql = Ok this
    /\ is_reserved (type (operator_token "o" 1 2)) = false.
Proof.
  destruct (Lexer.new Dialect.sql) as [this|e] eqn:E;
    [|vm_compute in E; discriminate].
  exists this. split; [reflexivity|].
  refine (no_reserved_token_after_dot this ".on"
            [operator_token "." 0 1; operator_token "o" 1 2; operator_token "n" 2 3]
            [] (operator_token "." 0 1) (operator_token "o" 1 2)
            [operator_token "n" 2 3] _ eq_refl eq_refl).
  vm_compute in E. injection E as <-. exists 3. vm_compute. reflexivity.
Defined.

(** *** Block comments *)

(** X18.  The block-comment classifier takes an input exactly when it
    starts with [/*], and then up to and including the first [*/]; a
    comment that is not closed reaches to the end of the input. *)
Theorem getBlockCommentToken_reads cfg this input :
  Lexer.new cfg = Ok this ->
  getBlockCommentToken this input
  = match strip_prefix "/*" input with
    | Some rest =>
        Some (found BLOCK_COMMENT
                ("/*" ++ (if has_close rest then comment_body rest else rest)))
    | None => None
    end.
Proof.
  intros Hnew. destruct (new_inv _ _ Hnew) as (_ & _ & _ & Hb & _).
  assert (Hnone : forall s,
            m false (Group 1 (Cat (Chr "/") (Cat (Chr "*")
                       (Cat (Star false (Class true [])) comment_close))))
              (mkM None s 0 None) Some = None ->
            getBlockCommentToken this s = None).
  { intros s Hs. unfold getBlockCommentToken, getTokenOnFirstMatch. rewrite Hb.
    rewrite (LexerClaims.exec_none_at_anchor block_comment_re s _ eq_refl);
      [reflexivity | exact Hs]. }
  destruct input as [|c tl]; [apply Hnone; reflexivity|].
  cbn [strip_prefix]. destruct (Ascii.eqb "/" c) eqn:E1.
  - destruct tl as [|d rest].
    + apply Hnone. rewrite m_Group, m_Cat. cbn [m step1 m_rest]. unfold chr_eq.
      rewrite E1. reflexivity.
    + destruct (Ascii.eqb "*" d) eqn:E2.
      * apply Ascii.eqb_eq in E1, E2. subst c d.
        change (String "/" (String "*" rest)) with ("/*" ++ rest).
        rewrite (LexerClaims.getBlockCommentToken_open this rest Hb).
        unfold block_comment, found. destruct (has_close rest) eqn:Ec; [reflexivity|].
        rewrite (LexerClaims.comment_body_unclosed rest Ec). reflexivity.
      * apply Hnone. rewrite m_Group, m_Cat. cbn [m step1 m_rest]. unfold chr_eq.
        rewrite E1. cbn [step1 m_rest]. rewrite E2. reflexivity.
  - apply Hnone. rewrite m_Group, m_Cat. cbn [m step1 m_rest]. unfold chr_eq.
    rewrite E1. reflexivity.
Qed.

Lemma getBlockCommentToken_reads_witness :
  exists this,
    Lexer.new Dialect.sql = Ok this
    /\ getBlockCommentToken this "/* a * b" = Some (found BLOCK_COMMENT "/* a * b").
Proof.
  eexists. split; [vm_compute; reflexivity|].
  exact (getBlockCommentToken_reads Dialect.sql _ "/* a * b"
           ltac:(vm_compute; reflexivity)).
Defined.

(** *** Reserved words *)

(** X19.  For reserved words made of word characters, with single blanks
    between them, each of the three reserved-word classifiers takes the
    first word of its list that starts the input, letter case ignored and
    each blank of the word standing for a run of white space, provided a
    word boundary follows; the token has the text of the input, not the
    spelling of the list. *)
Theorem reserved_word_tokens_read cfg this input :
  Lexer.new cfg = Ok this ->
  (forall words,
     reservedToplevelWords cfg = Some words ->
     forallb phrase_ok words = true ->
     getToplevelReservedToken this input
     = match read_reserved words input with
       | Some v => Some (found RESERVED_TOPLEVEL v)
       | None => None
       end)
  /\ (forall words,
        reservedNewlineWords cfg = Some words ->
        forallb phrase_ok words = true ->
        getNewlineReservedToken this input
        = match read_reserved words input with
          | Some v => Some (found RESERVED_NEWLINE v)
          | None => None
          end)
  /\ (forall words,
        reservedWords cfg = Some words ->
        forallb phrase_ok words = true ->
        getPlainReservedToken this input
        = match read_reserved words input with
          | Some v => Some (found RESERVED v)
          | None => None
          end).
Proof.
  intros Hnew. destruct (new_reserved _ _ Hnew) as (Ht & Hn & Hp).
  repeat split; intros words Hw Hok.
  - unfold getToplevelReservedToken. rewrite (Ht _ Hw Hok).
    apply reserved_reads. exact Hok.
  - unfold getNewlineReservedToken. rewrite (Hn _ Hw Hok).
    apply reserved_reads. exact Hok.
  - unfold getPlainReservedToken. rewrite (Hp _ Hw Hok).
    apply reserved_reads. exact Hok.
Qed.

Lemma reserved_word_tokens_read_witness :
  exists this,
    Lexer.new Dialect.sql = Ok this
    /\ getToplevelReservedToken this ("Group " ++ newline ++ "BY x")
       = Some (found RESERVED_TOPLEVEL ("Group " ++ newline ++ "BY")).
Proof.
  eexists. split; [vm_compute; reflexivity|].
  exact (proj1 (reserved_word_tokens_read Dialect.sql _
                  ("Group " ++ newline ++ "BY x") ltac:(vm_compute; reflexivity))
               ["select"; "where"; "group by"] eq_refl eq_refl).
Defined.

(** X20.  An empty list of reserved words does not switch its classifier
    off: the pattern is [^()\b], and on every input that starts with a
    word character the classifier returns a token with the empty value. *)
Theorem empty_reserved_list_takes_nothing cfg this c s :
  Lexer.new cfg = Ok this ->
  is_word c = true ->
  (reservedToplevelWords cfg = Some [] ->
   getToplevelReservedToken this (String c s) = Some (found RESERVED_TOPLEVEL ""))
  /\ (reservedNewlineWords cfg = Some [] ->
      getNewlineReservedToken this (String c s) = Some (found RESERVED_NEWLINE ""))
  /\ (reservedWords cfg = Some [] ->
      getPlainReservedToken this (String c s) = Some (found RESERVED "")).
Proof.
  intros Hnew Hc. destruct (new_reserved _ _ Hnew) as (Ht & Hn & Hp).
  assert (Hr : read_reserved [] (String c s) = Some "").
  { unfold read_reserved. cbn [first_success read_phrase boundary last_of xorb].
    rewrite Hc. reflexivity. }
  repeat split; intros Hw.
  - unfold getToplevelReservedToken. rewrite (Ht _ Hw eq_refl).
    rewrite reserved_reads by reflexivity. rewrite Hr. reflexivity.
  - unfold getNewlineReservedToken. rewrite (Hn _ Hw eq_refl).
    rewrite reserved_reads by reflexivity. rewrite Hr. reflexivity.
  - unfold getPlainReservedToken. rewrite (Hp _ Hw eq_refl).
    rewrite reserved_reads by reflexivity. rewrite Hr. reflexivity.
Qed.

Lemma empty_reserved_list_takes_nothing_witness :
  exists this,
    Lexer.new no_toplevel_words = Ok this
    /\ getToplevelReservedToken this "a" = Some (found RESERVED_TOPLEVEL "").
Proof.
  eexists. split; [vm_compute; reflexivity|].
  exact (proj1 (empty_reserved_list_takes_nothing no_toplevel_words _ "a" ""
                  ltac:(vm_compute; reflexivity) eq_refl) eq_refl).
Defined.

(** *** Words *)

(** X21.  With word characters free of regular-expression syntax, the word
    classifier takes the first entry of [wordChars] that starts the input,
    and nothing else: the value of a word token is always one of the
    configured entries.  With [wordChars] left out, or empty, it returns a
    token with the empty value on every input. *)
Theorem getWordToken_reads cfg this input :
  Lexer.new cfg = Ok this ->
  (forall chars,
     wordChars cfg = Some chars ->
     forallb plain chars = true ->
     getWordToken this input
     = match read_word chars input with
       | Some v => Some (found WORD v)
       | None => None
       end)
  /\ (wordChars cfg = None \/ wordChars cfg = Some [] ->
      getWordToken this input = Some (found WORD "")).
Proof.
  intros Hnew.
  destruct (new_inv _ _ Hnew) as (_ & _ & _ & _ & _ & _ & _ & _ & (r & E & F) & _).
  assert (Hsome : forall chars,
            wordChars cfg = Some chars -> forallb plain chars = true ->
            getWordToken this input
            = match read_word chars input with
              | Some v => Some (found WORD v)
              | None => None
              end).
  { intros chars Hw Hok. rewrite Hw, (createWordRegex_compiled _ Hok) in E.
    injection E as <-. unfold getWordToken. rewrite F. apply word_reads. }
  split; [exact Hsome|]. intros [Hw|Hw].
  - rewrite Hw in E.
    change (createWordRegex None) with (createWordRegex (Some [])) in E.
    rewrite (createWordRegex_compiled [] eq_refl) in E. injection E as <-.
    unfold getWordToken. rewrite F, word_reads. reflexivity.
  - rewrite (Hsome [] Hw eq_refl). reflexivity.
Qed.

Lemma getWordToken_reads_witness :
  exists this,
    Lexer.new Dialect.sql = Ok this
    /\ getWordToken this "#tmp" = Some (found WORD "#").
Proof.
  eexists. split; [vm_compute; reflexivity|].
  exact (proj1 (getWordToken_reads Dialect.sql _ "#tmp" ltac:(vm_compute; reflexivity))
               ["@"; "#"] eq_refl eq_refl).
Defined.

(** *** Parens *)

(** X22.  With parens that are single characters or words of word
    characters, each paren classifier takes the first paren of its list
    that starts the input, letter case ignored: a single character
    whatever follows, a word only when a word boundary follows it. *)
Theorem paren_tokens_read cfg this input :
  Lexer.new cfg = Ok this ->
  (forall p ps,
     openParens cfg = Some (p :: ps) ->
     forallb paren_ok (p :: ps) = true ->
     getOpenParenToken this input
     = match read_paren (p :: ps) input with
       | Some v => Some (found OPEN_PAREN v)
       | None => None
       end)
  /\ (forall p ps,
        closeParens cfg = Some (p :: ps) ->
        forallb paren_ok (p :: ps) = true ->
        getCloseParenToken this input
        = match read_paren (p :: ps) input with
          | Some v => Some (found CLOSE_PAREN v)
          | None => None
          end).
Proof.
  intros Hnew. destruct (new_parens _ _ Hnew) as (Ho & Hc).
  split; intros p ps Hp Hok.
  - unfold getOpenParenToken. rewrite (Ho _ Hp Hok). apply paren_reads. exact Hok.
  - unfold getCloseParenToken. rewrite (Hc _ Hp Hok). apply paren_reads. exact Hok.
Qed.

Lemma paren_tokens_read_witness :
  exists this,
    Lexer.new Dialect.sql = Ok this
    /\ getOpenParenToken this "Case x" = Some (found OPEN_PAREN "Case")
    /\ getOpenParenToken this "cases" = None.
Proof.
  eexists. split; [vm_compute; reflexivity|].
  split.
  - exact (proj1 (paren_tokens_read Dialect.sql _ "Case x"
                    ltac:(vm_compute; reflexivity)) "(" ["case"] eq_refl eq_refl).
  - exact (proj1 (paren_tokens_read Dialect.sql _ "cases"
                    ltac:(vm_compute; reflexivity)) "(" ["case"] eq_refl eq_refl).
Defined.

(** X23.  An empty list of string types, of open parens or of close parens
    does not switch its classifier off: the pattern is [^()], and the
    classifier returns a token with the empty value on every input. *)
Theorem empty_list_takes_nothing cfg this input :
  Lexer.new cfg = Ok this ->
  (stringTypes cfg = Some [] ->
   getStringToken this input = Some (found STRING ""))
  /\ (openParens cfg = Some [] ->
      getOpenParenToken this input = Some (found OPEN_PAREN ""))
  /\ (closeParens cfg = Some [] ->
      getCloseParenToken this input = Some (found CLOSE_PAREN "")).
Proof.
  intros Hnew.
  destruct (new_inv _ _ Hnew) as
    (_ & _ & _ & _ & _ & _ & _ & _ & _ & (r6 & E6 & F6) & (r7 & E7 & F7)
     & (r8 & E8 & F8) & _).
  repeat split; intros H.
  - rewrite H in E6. vm_compute in E6. injection E6 as <-.
    unfold getStringToken. rewrite F6. apply empty_choice_reads.
  - rewrite H in E7. vm_compute in E7. injection E7 as <-.
    unfold getOpenParenToken. rewrite F7. apply empty_choice_reads.
  - rewrite H in E8. vm_compute in E8. injection E8 as <-.
    unfold getCloseParenToken. rewrite F8. apply empty_choice_reads.
Qed.

Lemma empty_list_takes_nothing_witness :
  exists this,
    Lexer.new no_open_parens = Ok this
    /\ getOpenParenToken this "a" = Some (found OPEN_PAREN "").
Proof.
  eexists. split; [vm_compute; reflexivity|].
  exact (proj1 (proj2 (empty_list_takes_nothing no_open_parens _ "a"
                         ltac:(vm_compute; reflexivity))) eq_refl).
Defined.

(** *** Tokens with the empty value *)

(** X24.  The loop of [tokenize] has no guard against a token that takes
    nothing.  Take an iteration whose previous token, if there is one, does
    not have the value of a dot: when [getNextToken] returns there a token
    with the empty value on a non-empty input, the input stays as it is,
    every later iteration gets the same token, and the loop does not end,
    whatever the position and the tokens collected so far.  [tokenize]
    starts the loop without a previous token, so it does not return when
    its first iteration is such a one. *)
Theorem tokenize_diverges_on_empty_token this input previousToken lastPosition
    tokens t :
  input <> "" ->
  (forall p, previousToken = Some p -> value p <> Some ".") ->
  getNextToken this input previousToken = Ok (Some t) ->
  value t = Some "" ->
  forall fuel,
    tokenize_loop this fuel input previousToken lastPosition tokens = None.
Proof.
  intros Hne Hp Hn Hv fuel. apply not_after_dot in Hp.
  apply (tokenize_loop_stuck this input t Hv); [|exact Hne | exact Hp].
  intros previousToken' Hd. rewrite <- Hn.
  apply getNextToken_previous. rewrite Hd, Hp. reflexivity.
Qed.

Lemma tokenize_diverges_on_empty_token_witness :
  exists this,
    Lexer.new no_open_parens = Ok this
    /\ tokenize_diverges this "a"
    /\ forall fuel,
         tokenize_loop this fuel "a" (Some (token WHITESPACE " " 1 2)) 2
           [operator_token "." 0 1; token WHITESPACE " " 1 2] = None.
Proof.
  destruct (Lexer.new no_open_parens) as [this|e] eqn:E;
    [|vm_compute in E; discriminate].
  exists this. split; [reflexivity|].
  assert (Hn : forall previousToken,
            getNextToken this "a" previousToken = Ok (Some (found OPEN_PAREN ""))).
  { intros previousToken. vm_compute in E. injection E as <-.
    unfold getNextToken, getReservedWordToken.
    destruct (preceded_by_dot previousToken); vm_compute; reflexivity. }
  split.
  - intros fuel.
    refine (tokenize_diverges_on_empty_token this "a" None 0 [] (found OPEN_PAREN "")
              _ _ (Hn None) eq_refl fuel).
    + discriminate.
    + intros p Hp. discriminate Hp.
  - refine (tokenize_diverges_on_empty_token this "a"
              (Some (token WHITESPACE " " 1 2)) 2 _ (found OPEN_PAREN "")
              _ _ (Hn _) eq_refl).
    + discriminate.
    + intros p Hp. injection Hp as <-. discriminate.
Defined.

(** After a dot the next iteration can get another token: the empty word
    is not a dot, so the reserved-word classifiers, left out once, are
    tried again.  With the indexed-placeholder prefix [.] and [wordChars]
    left out, [.from] is cut into the placeholder [.], an empty word and
    the reserved word [from]. *)
Lemma empty_token_after_dot_passes :
  exists this,
    Lexer.new (Dialect.with_indexedPlaceholderTypes Dialect.sql_default_words
                 (Some ["."])) = Ok this
    /\ tokenize this ".from"
         [mkToken PLACEHOLDER (Some ".") (Some "") (Some (0, 1));
          token WORD "" 1 1; token RESERVED "from" 1 5].
Proof.
  eexists. split; [vm_compute; reflexivity|]. exists 3. vm_compute. reflexivity.
Qed.

(** *** Strings *)

(** X25.  For every list of string types, the string classifier goes
    through the types in the order of the list and takes what the first
    type that reads something reads: for the quote types a run of adjacent
    quoted segments, each from its opening quote to the closing quote or
    to the end of the input, where a backslash in the types with escapes
    passes over the character after it unless that is a line terminator;
    for the type of square brackets a bracketed segment and then segments
    that open with a closing bracket; for an unknown type the empty
    text. *)
Theorem getStringToken_reads cfg this types input :
  Lexer.new cfg = Ok this ->
  stringTypes cfg = Some types ->
  getStringToken this input
  = match read_string_token types input with
    | Some v => Some (found STRING v)
    | None => None
    end.
Proof.
  intros Hnew Ht. unfold getStringToken.
  rewrite (new_strings _ _ _ Hnew Ht). apply string_reads.
Qed.

Lemma getStringToken_reads_witness :
  exists this,
    Lexer.new Dialect.sql = Ok this
    /\ getStringToken this "'a''b\'c' x" = Some (found STRING "'a''b\'c'")
    /\ getStringToken this "x 'a'" = None.
Proof.
  eexists. split; [vm_compute; reflexivity|].
  split.
  - exact (getStringToken_reads Dialect.sql _ ["''"] "'a''b\'c' x"
             ltac:(vm_compute; reflexivity) eq_refl).
  - exact (getStringToken_reads Dialect.sql _ ["''"] "x 'a'"
             ltac:(vm_compute; reflexivity) eq_refl).
Defined.

(** X26.  A single-quoted string that is never closed is a string token
    all the same: when the first string type is the single quote and no
    quote or backslash follows the opening quote, the token runs to the
    end of the input. *)
Theorem unterminated_string_reads_to_end cfg this more body :
  Lexer.new cfg = Ok this ->
  stringTypes cfg = Some ("''" :: more) ->
  all_of (none_of ["'"%char; "\"%char]) body = true ->
  getStringToken this ("'" ++ body) = Some (found STRING ("'" ++ body)).
Proof.
  intros Hnew Ht Hb. unfold getStringToken.
  rewrite (new_strings _ _ _ Hnew Ht), string_reads.
  unfold read_string_token. cbn [first_success]. rewrite read_string_single.
  unfold read_segments. change ("'" ++ body) with (String "'" body).
  rewrite single_quoted_at, (scan_open _ _ _ Hb). cbn [String.length read_many].
  rewrite append_nothing. reflexivity.
Qed.

Lemma unterminated_string_reads_to_end_witness :
  exists this,
    Lexer.new Dialect.sql = Ok this
    /\ getStringToken this "'abc def" = Some (found STRING "'abc def").
Proof.
  eexists. split; [vm_compute; reflexivity|].
  exact (unterminated_string_reads_to_end Dialect.sql _ [] "abc def"
           ltac:(vm_compute; reflexivity) eq_refl eq_refl).
Defined.

(** X27.  Neither a doubled quote nor a quote after a backslash ends a
    single-quoted string: when the first string type is the single quote,
    the two parts have no quote or backslash, and what follows the last
    quote does not start with a quote, the token is the whole text up to
    that last quote.  The character after the backslash may be any but a
    line terminator. *)
Theorem quote_inside_string cfg this more a b d rest :
  Lexer.new cfg = Ok this ->
  stringTypes cfg = Some ("''" :: more) ->
  all_of (none_of ["'"%char; "\"%char]) a = true ->
  all_of (none_of ["'"%char; "\"%char]) b = true ->
  is_line_terminator d = false ->
  strip_prefix "'" rest = None ->
  getStringToken this ("'" ++ a ++ "''" ++ b ++ "'" ++ rest)
  = Some (found STRING ("'" ++ a ++ "''" ++ b ++ "'"))
  /\ getStringToken this ("'" ++ a ++ String "\" (String d (b ++ "'" ++ rest)))
     = Some (found STRING ("'" ++ a ++ String "\" (String d (b ++ "'")))).
Proof.
  intros Hnew Ht Ha Hb Hd Hrest. unfold getStringToken.
  rewrite (new_strings _ _ _ Hnew Ht), !string_reads.
  unfold read_string_token. cbn [first_success]. rewrite !read_string_single.
  unfold read_segments. split.
  - change ("'" ++ a ++ "''" ++ b ++ "'" ++ rest)
      with (String "'" (a ++ String "'" (String "'" (b ++ String "'" rest)))).
    rewrite single_quoted_at, (scan_closed _ "'" _ _ Ha eq_refl).
    cbn [String.length].
    rewrite (read_many_one single_quoted "'" (b ++ "'") rest).
    + change ("'" ++ a ++ "''" ++ b ++ "'")
        with (String "'" (a ++ String "'" (String "'" (b ++ "'")))).
      cbn [append]. rewrite append_assoc. reflexivity.
    + rewrite single_quoted_at, (scan_closed _ "'" _ _ Hb eq_refl). reflexivity.
    + apply single_quoted_none. exact Hrest.
  - change ("'" ++ a ++ String "\" (String d (b ++ "'" ++ rest)))
      with (String "'" (a ++ String "\" (String d (b ++ String "'" rest)))).
    rewrite single_quoted_at, (scan_escape _ "'" _ _ _ Ha eq_refl eq_refl Hd),
      (scan_closed _ "'" _ _ Hb eq_refl).
    destruct rest as [|c rest'].
    + cbn [String.length read_many]. rewrite append_nothing. reflexivity.
    + cbn [String.length read_many].
      rewrite (single_quoted_none _ Hrest), append_nothing. reflexivity.
Qed.

Lemma quote_inside_string_witness :
  exists this,
    Lexer.new Dialect.sql = Ok this
    /\ getStringToken this "'it''s' = x" = Some (found STRING "'it''s'")
    /\ getStringToken this "'it\'s' = x" = Some (found STRING "'it\'s'").
Proof.
  eexists. split; [vm_compute; reflexivity|].
  exact (quote_inside_string Dialect.sql _ [] "it" "s" "'" " = x"
           ltac:(vm_compute; reflexivity) eq_refl eq_refl eq_refl eq_refl
           eq_refl).
Defined.


(** *** String-named placeholders *)

(** X28.  With a list of named-placeholder prefixes that is not empty, the
    string-named placeholder classifier takes the first prefix of the list
    that starts the input with a string of the configured string types
    after it (the empty text where no type reads more).  The key is
    computed from the value by dropping its first two characters and its
    last one and decoding the escapes of its last character, and the
    classifier raises when that decoding raises. *)
Theorem getStringNamedPlaceholderToken_reads cfg this t0 ts types input :
  Lexer.new cfg = Ok this ->
  namedPlaceholderTypes cfg = Some (t0 :: ts) ->
  stringTypes cfg = Some types ->
  getStringNamedPlaceholderToken this input
  = match read_string_placeholder (t0 :: ts) types input with
    | Some v =>
        k <- getEscapedPlaceholderKey (slice v 2 (Some (-1)%Z)) (slice v (-1) None) ;;
        Ok (Some (mkToken PLACEHOLDER (Some v) (Some k) None))
    | None => Ok None
    end.
Proof.
  intros Hnew Hn Hs. unfold getStringNamedPlaceholderToken, getPlaceholderTokenWithKey.
  rewrite (new_string_placeholder _ _ _ _ _ Hnew Hn Hs), string_placeholder_reads.
  destruct (read_string_placeholder (t0 :: ts) types input) as [v|]; reflexivity.
Qed.

Lemma getStringNamedPlaceholderToken_reads_witness :
  exists this,
    Lexer.new Dialect.sql = Ok this
    /\ getStringNamedPlaceholderToken this "@'a\'b' x"
       = Ok (Some (mkToken PLACEHOLDER (Some "@'a\'b'") (Some "a'b") None)).
Proof.
  eexists. split; [vm_compute; reflexivity|].
  refine (eq_trans
            (getStringNamedPlaceholderToken_reads Dialect.sql _ "@" [] ["''"]
               "@'a\'b' x" ltac:(vm_compute; reflexivity) eq_refl eq_refl) _).
  vm_compute. reflexivity.
Defined.

End LexerBehaviour.
